(** * gost3413: block-cipher modes of GOST R 34.13-2015, MGM and ACPKM

    A shallow embedding of [src/utils.ts], [src/index.ts] and [src/mgm.ts].

    Modelling conventions.
    - A [Uint8Array] is a [list Z] whose elements are octets ([bytes_ok]).
    - A JavaScript [number] holding a length, an index or a size, and a
      [bigint], are both [Z].  A remainder by zero is [NaN] in the source: a
      test [a % b == 0] is then false ([rem_eq0]), and where [NaN] would flow
      into a value the function is modelled for non-zero sizes only.  The
      32-bit coercion [x | 0] is written out ([to_int32]).
    - A [throw] is the [Err] branch of [result]; every [Error] message of the
      embedded functions has its own constructor in [error].
    - ECB, CBC, CFB and OFB have a module and a result type of their own
      ([Modes]); their loops, like the loop of [ctr], are modelled for a
      positive block size.  The method [validateNonce], which the source
      never calls, is left out.
    - A string of hexadecimal digits is the list of its character codes, as
      [charCodeAt] reads them.
    - The nonce buffers that [MGM] slices and then mutates in place live in
      a store ([heap]); buffers that are only read are passed as values.
      [nonce.slice()] is a method of the nonce's class: on a plain
      [Uint8Array] it returns a copy, on a [Buffer] of Node.js or Bun, a
      subclass of [Uint8Array], it returns a view of the same memory.  The
      class of the nonce is a parameter ([array_class]) of [seal_of],
      [open_of] and [nonce_prepare_of]; [seal], [open] and [nonce_prepare]
      are these methods on a plain [Uint8Array]. *)

From Stdlib Require Import ZArith List Lia Bool.
From stdpp Require Import base option list gmap.
Import ListNotations.
Open Scope Z_scope.

(** ** Results and errors *)

Inductive error : Type :=
| HexUnpadded (hl : Z)     (* hexToBytes: unpadded hex of length hl *)
| HexNonHexChar            (* hexToBytes: non-hex character *)
| BigIntSyntax             (* BigInt('0x' + hex) on a malformed literal *)
| PadMarkerNotFound        (* unpad2: Padding marker (0x80) not found *)
| PadNonZero               (* unpad2: non-zero bytes after 0x80 *)
| InvalidIVSize            (* ctr: Invalid IV size *)
| TooBigData               (* ctr: Too big data *)
| OnlyBlockSize            (* MGM: Only 64/128-bit block size *)
| InvalidTagSize           (* MGM: Invalid tagSize *)
| SizesRequired            (* MGM: At least one of plaintext or ... required *)
| SizesTooBig              (* MGM: plaintext+additional_data are too big *)
| InvalidAuthTag           (* MGM.open: Invalid authentication tag *)
| DanglingBuffer           (* a store address that holds no buffer *)
| Diverges.                (* a while loop that does not terminate *)

Inductive result (A : Type) : Type :=
| Ok (a : A)
| Err (e : error).
Arguments Ok {A} a.
Arguments Err {A} e.

(** The error monad, with stdpp's notation [x ← m; k]. *)
#[global] Instance result_ret : MRet result := @Ok.
#[global] Instance result_bind : MBind result := fun A B k m =>
  match m with
  | Ok a => k a
  | Err e => Err e
  end.

Definition is_ok {A : Type} (m : result A) : bool :=
  match m with Ok _ => true | Err _ => false end.

(** ** Typed arrays *)

Abbreviation bytes := (list Z).

Definition byte_ok (x : Z) : Prop := 0 <= x < 256.
Definition bytes_ok (b : bytes) : Prop := Forall byte_ok b.

Definition len {A : Type} (l : list A) : Z := Z.of_nat (length l).

(** [new Uint8Array(n)]: [n] zero octets. *)
Definition zeros (n : Z) : bytes := replicate (Z.to_nat n) 0.

(** Relative indices of [TypedArray.prototype.subarray] and [slice]:
    a negative index counts from the end, and both ends are clamped. *)
Definition rel_index (n i : Z) : Z :=
  if i <? 0 then Z.max (n + i) 0 else Z.min i n.

Definition subarray (a : bytes) (b e : Z) : bytes :=
  let b' := rel_index (len a) b in
  let e' := rel_index (len a) e in
  take (Z.to_nat (e' - b')) (drop (Z.to_nat b') a).

(** [a.subarray(b)], the end defaulting to the length. *)
Definition subarray_from (a : bytes) (b : Z) : bytes := subarray a b (len a).

(** [a.slice(-n)] *)
Definition slice_from (a : bytes) (b : Z) : bytes := subarray a b (len a).

(** [a[i]] read as a number operand of a bit operation: [undefined] is 0. *)
Definition get0 (a : bytes) (i : nat) : Z := default 0 (a !! i).

(** [x | 0]: ToInt32. *)
Definition to_int32 (x : Z) : Z := (x + 2 ^ 31) mod 2 ^ 32 - 2 ^ 31.

(** [(a / b) | 0] on integers: the quotient is truncated, then coerced. *)
Definition idiv32 (a b : Z) : Z := to_int32 (Z.quot a b).

(** [Math.ceil(a / b)] for [0 < b]. *)
Definition ceil_div (a b : Z) : Z := (a + b - 1) / b.

(** [a % b == 0]; the remainder by zero is [NaN], which equals nothing. *)
Definition rem_eq0 (a b : Z) : bool :=
  if b =? 0 then false else Z.rem a b =? 0.

(** [target.set(src, offset)] *)
Definition array_set (target src : bytes) (offset : nat) : bytes :=
  take offset target ++ src ++ drop (offset + length src) target.

Module Utils.

Definition KEYSIZE : Z := 32.

(** [CipherFunc]: a block function. *)
Definition CipherFunc : Type := bytes -> bytes.

(** [ACPKMConstructor]: [new cipherClass(key)] followed by
    [cipher.encrypt.bind(cipher)]. *)
Definition ACPKMConstructor : Type := bytes -> CipherFunc.

Record ACPKMParameters : Type := {
  cipherClass : ACPKMConstructor;
  sectionSize : Z
}.

(** [xor]: the loop runs over [min(a.length, b.length)] positions. *)
Fixpoint xor (a b : bytes) : bytes :=
  match a, b with
  | x :: a', y :: b' => Z.lxor x y :: xor a' b'
  | _, _ => []
  end.

Definition concatBytes (arrays : list bytes) : bytes := concat arrays.

Definition asciiToBase16 (ch : Z) : option Z :=
  if (48 <=? ch) && (ch <=? 57) then Some (ch - 48)
  else if (65 <=? ch) && (ch <=? 70) then Some (ch - (65 - 10))
  else if (97 <=? ch) && (ch <=? 102) then Some (ch - (97 - 10))
  else None.

Fixpoint hexToBytes_loop (hex : list Z) : result bytes :=
  match hex with
  | c1 :: c2 :: rest =>
      match asciiToBase16 c1, asciiToBase16 c2 with
      | Some n1, Some n2 =>
          r ← hexToBytes_loop rest; Ok (n1 * 16 + n2 :: r)
      | _, _ => Err HexNonHexChar
      end
  | _ => Ok []
  end.

Definition hexToBytes (hex : list Z) : result bytes :=
  let hl := len hex in
  if Z.odd hl then Err (HexUnpadded hl) else hexToBytes_loop hex.

(** The [k] low hexadecimal digits of [n], most significant first. *)
Fixpoint be_digits (k : nat) (n : Z) : list Z :=
  match k with
  | O => []
  | S k' => be_digits k' (n / 16) ++ [n mod 16]
  end.

Definition hex_digit_count (n : Z) : nat :=
  if n =? 0 then 1%nat else Z.to_nat (Z.log2 n / 4 + 1).

Definition digit_char (d : Z) : Z := if d <? 10 then 48 + d else 87 + d.

(** [n.toString(16)] *)
Definition toString16 (n : Z) : list Z :=
  if n <? 0 then 45 :: map digit_char (be_digits (hex_digit_count (- n)) (- n))
  else map digit_char (be_digits (hex_digit_count n) n).

(** [s.padStart(target, '0')] *)
Definition padStart (s : list Z) (target : Z) : list Z :=
  replicate (Z.to_nat (target - len s)) 48 ++ s.

(** [hexes[i]] *)
Definition hexes (i : Z) : list Z := padStart (toString16 i) 2.

Definition bytesToHex (b : bytes) : list Z := flat_map hexes b.

Definition numberToBytesBE (n : Z) (l : Z) : result bytes :=
  hexToBytes (padStart (toString16 n) (l * 2)).

Fixpoint hexToNumber_loop (hex : list Z) (acc : Z) : result Z :=
  match hex with
  | [] => Ok acc
  | c :: rest =>
      match asciiToBase16 c with
      | Some d => hexToNumber_loop rest (acc * 16 + d)
      | None => Err BigIntSyntax
      end
  end.

(** [hexToNumber], on strings without white space: [BigInt] trims white
    space at the ends of its argument, so a string of digits followed by
    white space, which [bytesToHex] never writes, is read as its digits by
    the source and is malformed here. *)
Definition hexToNumber (hex : list Z) : result Z :=
  match hex with
  | [] => Ok 0
  | _ => hexToNumber_loop hex 0
  end.

Definition bytesToNumberBE (b : bytes) : result Z :=
  hexToNumber (bytesToHex b).

End Utils.

Import Utils.

Module Gost3413.

Definition getPadLength (dataLength blockSize : Z) : Z :=
  if dataLength <? blockSize then blockSize - dataLength
  else if rem_eq0 dataLength blockSize then 0
  else blockSize - Z.rem dataLength blockSize.

Definition pad1 (data : bytes) (blockSize : Z) : bytes :=
  let padded := zeros (len data + getPadLength (len data) blockSize) in
  array_set padded data 0.

Definition pad2 (data : bytes) (blockSize : Z) : bytes :=
  let padded :=
    zeros (len data + 1 + getPadLength (len data + 1) blockSize) in
  let padded := array_set padded data 0 in
  <[length data := 0x80]> padded.

(** The first loop of [unpad2]: indices [i - 1], ..., [0] of the last block
    are scanned for 0x80; [-1] when there is none. *)
Fixpoint find_marker (lastBlock : bytes) (i : nat) : Z :=
  match i with
  | O => -1
  | S i' =>
      if get0 lastBlock i' =? 0x80 then Z.of_nat i'
      else find_marker lastBlock i'
  end.

Definition unpad2 (data : bytes) (blockSize : Z) : result bytes :=
  let lastBlock := subarray_from data (len data - blockSize) in
  let padIndex := find_marker lastBlock (length lastBlock) in
  if padIndex =? -1 then Err PadMarkerNotFound
  else if negb (forallb (fun b => b =? 0)
                  (drop (Z.to_nat (padIndex + 1)) lastBlock))
  then Err PadNonZero
  else Ok (subarray data 0 (len data - (blockSize - padIndex))).

Definition pad3 (data : bytes) (blockSize : Z) : bytes :=
  if getPadLength (len data) blockSize =? 0 then data
  else pad2 data blockSize.

(** [acpkmDerivation]: block [k] holds the octets [d + i] for
    [d = 0x80 + k * blockSize]. *)
Definition acpkmDerivation (encrypter : CipherFunc) (blockSize : Z) : bytes :=
  concatBytes
    (map (fun k =>
            let d := 0x80 + Z.of_nat k * blockSize in
            encrypter (map (fun i => (d + Z.of_nat i) mod 256)
                           (seq 0 (Z.to_nat blockSize))))
         (seq 0 (Z.to_nat (idiv32 KEYSIZE blockSize)))).

(** The re-keying test at the head of the loop body of [ctr]. *)
Definition ctr_rekey (acpkm : option ACPKMParameters) (acpkmSectionSize : Z)
    (blockSize ctr : Z) (encrypter : CipherFunc) : CipherFunc :=
  match acpkm with
  | Some p =>
      if negb (ctr =? 0) && rem_eq0 ctr acpkmSectionSize
      then cipherClass p (acpkmDerivation encrypter blockSize)
      else encrypter
  | None => encrypter
  end.

(** The loop of [ctr]: [n] iterations remain, [ctr] is the counter. *)
Fixpoint ctr_loop (acpkm : option ACPKMParameters) (acpkmSectionSize : Z)
    (blockSize halfBlockSize : Z) (iv : bytes) (encrypter : CipherFunc)
    (n : nat) (ctr : Z) : result (list bytes) :=
  match n with
  | O => Ok []
  | S n' =>
      let encrypter :=
        ctr_rekey acpkm acpkmSectionSize blockSize ctr encrypter in
      c ← numberToBytesBE ctr halfBlockSize;
      let block := encrypter (concatBytes [iv; c]) in
      rest ← ctr_loop acpkm acpkmSectionSize blockSize halfBlockSize iv
               encrypter n' (ctr + 1);
      Ok (block :: rest)
  end.

Definition ctr (encrypter : CipherFunc) (blockSize : Z) (data iv : bytes)
    (acpkm : option ACPKMParameters) : result bytes :=
  let halfBlockSize := idiv32 blockSize 2 in
  if negb (len iv =? halfBlockSize) then Err InvalidIVSize else
  let ctrMax := Z.shiftl 1 (8 * halfBlockSize) in
  let maxSize := ctrMax * blockSize in
  if len data >? maxSize then Err TooBigData else
  let acpkmSectionSize :=
    match acpkm with
    | Some p => idiv32 (sectionSize p) blockSize
    | None => 0
    end in
  keystreamBlocks ← ctr_loop acpkm acpkmSectionSize blockSize halfBlockSize iv
                      encrypter (Z.to_nat (ceil_div (len data) blockSize)) 0;
  Ok (xor (concatBytes keystreamBlocks) data).

Definition Rb64 : Z := 0x1B.
Definition Rb128 : Z := 0x87.

Definition macShift (blockSize : Z) (data : bytes) (xorLsb : Z)
    : result bytes :=
  v ← bytesToNumberBE data;
  let num := Z.lxor (v * 2) xorLsb in
  b ← numberToBytesBE num blockSize;
  Ok (slice_from b (- blockSize)).

(** The subkey step of [macKs], applied once to [l] and once to [k1]. *)
Definition macKs_step (blockSize Rb : Z) (l : bytes) : result bytes :=
  if negb (Z.land (get0 l 0) 0x80 =? 0) then macShift blockSize l Rb
  else macShift blockSize l 0.

Definition macKs (encrypter : CipherFunc) (blockSize : Z)
    : result (bytes * bytes) :=
  let Rb := if blockSize =? 16 then Rb128 else Rb64 in
  let l := encrypter (zeros blockSize) in
  k1 ← macKs_step blockSize Rb l;
  k2 ← macKs_step blockSize Rb k1;
  Ok (k1, k2).

(** The chaining loop of [mac]: [n] iterations remain, [i] is the offset. *)
Fixpoint mac_chain (encrypter : CipherFunc) (blockSize : Z) (data : bytes)
    (n : nat) (i : Z) (prev : bytes) : bytes :=
  match n with
  | O => prev
  | S n' =>
      mac_chain encrypter blockSize data n' (i + blockSize)
        (encrypter (xor (subarray data i (i + blockSize)) prev))
  end.

Definition mac (encrypter : CipherFunc) (blockSize : Z) (data : bytes)
    : result bytes :=
  ks ← macKs encrypter blockSize;
  let '(k1, k2) := ks in
  let tailOffset :=
    if rem_eq0 (len data) blockSize then len data - blockSize
    else len data - Z.rem (len data) blockSize in
  let prev :=
    mac_chain encrypter blockSize data
      (Z.to_nat (ceil_div tailOffset blockSize)) 0 (zeros blockSize) in
  let tail := subarray_from data tailOffset in
  let xorWithPrev := xor (pad3 tail blockSize) prev in
  Ok (encrypter (xor xorWithPrev (if len tail =? blockSize then k1 else k2))).

Definition ctr_acpkm (cipherClass : ACPKMConstructor) (encrypter : CipherFunc)
    (sectionSize blockSize : Z) (data iv : bytes) : result bytes :=
  ctr encrypter blockSize data iv
    (Some {| cipherClass := cipherClass; sectionSize := sectionSize |}).

Definition acpkmDerivationMaster (cipherClass : ACPKMConstructor)
    (encrypter : CipherFunc) (keySectionSize blockSize keyMaterialLength : Z)
    : result bytes :=
  ctr_acpkm cipherClass encrypter keySectionSize blockSize
    (zeros keyMaterialLength)
    (replicate (Z.to_nat (idiv32 blockSize 2)) 0xFF).

(** [omac_acpkm_master], lines 418-421: the number of sections. *)
Definition omac_sections (dataLength sectionSize : Z) : Z :=
  if negb (rem_eq0 dataLength sectionSize) then dataLength + 1
  else dataLength.

(** The length of key material that [omac_acpkm_master] asks
    [acpkmDerivationMaster] for. *)
Definition omac_keymat_length (sectionSize blockSize : Z) (data : bytes) : Z :=
  (KEYSIZE + blockSize) * omac_sections (len data) sectionSize.

(** [omac_acpkm_master], lines 443-446: K2 from the current K1. *)
Definition omac_k2 (blockSize : Z) (k1 : bytes) : result bytes :=
  v ← bytesToNumberBE k1;
  k2 ← numberToBytesBE (Z.shiftl v 1) blockSize;
  if negb (Z.land (get0 k1 0) 0x80 =? 0) then
    rb ← numberToBytesBE (if blockSize =? 16 then Rb128 else Rb64) blockSize;
    Ok (xor k2 rb)
  else Ok k2.

Record omac_state : Type := {
  st_keymats : bytes;
  st_k1 : bytes;
  st_encrypter : CipherFunc;
  st_prev : bytes
}.

(** The body of the loop of [omac_acpkm_master] at offset [i]. *)
Definition omac_body (cipherClass : ACPKMConstructor)
    (sectionSize blockSize : Z) (data : bytes) (i : Z) (st : omac_state)
    : omac_state :=
  let st :=
    if rem_eq0 i sectionSize then
      let keymat := subarray (st_keymats st) 0 (KEYSIZE + blockSize) in
      let keymats := subarray_from (st_keymats st) (KEYSIZE + blockSize) in
      let key := subarray keymat 0 KEYSIZE in
      {| st_keymats := keymats;
         st_k1 := subarray_from keymat KEYSIZE;
         st_encrypter := cipherClass key;
         st_prev := st_prev st |}
    else st in
  {| st_keymats := st_keymats st;
     st_k1 := st_k1 st;
     st_encrypter := st_encrypter st;
     st_prev := st_encrypter st
                  (xor (subarray data i (i + blockSize)) (st_prev st)) |}.

Fixpoint omac_loop (cipherClass : ACPKMConstructor)
    (sectionSize blockSize : Z) (data : bytes) (n : nat) (i : Z)
    (st : omac_state) : omac_state :=
  match n with
  | O => st
  | S n' =>
      omac_loop cipherClass sectionSize blockSize data n' (i + blockSize)
        (omac_body cipherClass sectionSize blockSize data i st)
  end.

Definition omac_acpkm_master (cipherClass : ACPKMConstructor)
    (encrypter : CipherFunc) (keySectionSize sectionSize blockSize : Z)
    (data : bytes) : result bytes :=
  let tail_offset :=
    if rem_eq0 (len data) blockSize then len data - blockSize
    else len data - Z.rem (len data) blockSize in
  let prev := zeros blockSize in
  keymats ← acpkmDerivationMaster cipherClass encrypter keySectionSize
              blockSize (omac_keymat_length sectionSize blockSize data);
  let st := omac_loop cipherClass sectionSize blockSize data
              (Z.to_nat (ceil_div tail_offset blockSize)) 0
              {| st_keymats := keymats; st_k1 := zeros sectionSize;
                 st_encrypter := encrypter; st_prev := prev |} in
  let tail := subarray_from data tail_offset in
  let st :=
    if len tail =? blockSize then
      {| st_keymats := st_keymats st;
         st_k1 := subarray_from (st_keymats st) KEYSIZE;
         st_encrypter := cipherClass (subarray (st_keymats st) 0 KEYSIZE);
         st_prev := st_prev st |}
    else st in
  k2 ← omac_k2 blockSize (st_k1 st);
  Ok (st_encrypter st
        (xor (xor (pad3 tail blockSize) (st_prev st))
             (if len tail =? blockSize then st_k1 st else k2))).

End Gost3413.

Import Gost3413.

(** ** The store of mutable buffers *)

Abbreviation loc := nat.
Abbreviation heap := (gmap nat (list Z)).

(** Computations that read and write the store and may throw.  The store
    reached when an exception is thrown is kept. *)
Definition M (A : Type) : Type := heap -> heap * result A.

#[global] Instance M_ret : MRet M := fun A a h => (h, Ok a).
#[global] Instance M_bind : MBind M := fun A B k m h =>
  match m h with
  | (h', Ok a) => k a h'
  | (h', Err e) => (h', Err e)
  end.

Definition lift {A : Type} (r : result A) : M A := fun h => (h, r).

(** [a.slice()] on a plain [Uint8Array]: a fresh buffer holding a copy of
    [a]. *)
Definition slice_copy (a : loc) : M loc := fun h =>
  match h !! a with
  | Some b => let l := fresh (dom h) in (<[l := b]> h, Ok l)
  | None => (h, Err DanglingBuffer)
  end.

(** The class of a typed array.  [Buffer] extends [Uint8Array] and overrides
    [slice]. *)
Inductive array_class : Type :=
| PlainUint8Array     (* Uint8Array.prototype.slice: a copy *)
| NodeBuffer.         (* Buffer.prototype.slice: a view of the same memory *)

(** [a.slice()] on a [Buffer]: a new object over the memory of [a], so that
    a read or a write through the result is a read or a write of [a]: the
    result is the address of [a] itself. *)
Definition slice_view (a : loc) : M loc := fun h =>
  match h !! a with
  | Some _ => (h, Ok a)
  | None => (h, Err DanglingBuffer)
  end.

(** [a.slice()], dispatched on the class of [a]. *)
Definition slice (cls : array_class) (a : loc) : M loc :=
  match cls with
  | PlainUint8Array => slice_copy a
  | NodeBuffer => slice_view a
  end.

(** [a[0] = f(a[0])], a write in place.  Reading a missing element gives
    [undefined], which the bit operations take as 0; writing past the end of
    a typed array does nothing. *)
Definition update0 (f : Z -> Z) (a : loc) : M unit := fun h =>
  match h !! a with
  | Some b => (<[a := <[0%nat := f (get0 b 0)]> b]> h, Ok tt)
  | None => (h, Err DanglingBuffer)
  end.

(** The octets of a buffer, as a pure block function reads them. *)
Definition read (a : loc) : M bytes := fun h =>
  match h !! a with
  | Some b => (h, Ok b)
  | None => (h, Err DanglingBuffer)
  end.

(** The first octet of a buffer with its top bit cleared ([b[0] &= 0x7F])
    and set ([b[0] |= 0x80]). *)
Definition clear_msb (b : bytes) : bytes :=
  <[0%nat := Z.land (get0 b 0) 0x7F]> b.
Definition set_msb (b : bytes) : bytes :=
  <[0%nat := Z.lor (get0 b 0) 0x80]> b.

Module Mgm.

Definition _incr (data : bytes) (blockSize : Z) : result bytes :=
  v ← bytesToNumberBE data;
  numberToBytesBE (v + 1) (idiv32 blockSize 2).

Definition incr_r (data : bytes) (blockSize : Z) : result bytes :=
  let left := subarray data 0 (idiv32 blockSize 2) in
  right ← _incr (subarray_from data (idiv32 blockSize 2)) blockSize;
  Ok (concatBytes [left; right]).

Definition incr_l (data : bytes) (blockSize : Z) : result bytes :=
  left ← _incr (subarray data 0 (idiv32 blockSize 2)) blockSize;
  Ok (concatBytes [left; subarray_from data (idiv32 blockSize 2)]).

Record MGM : Type := {
  tag_size : Z;
  encrypter : CipherFunc;
  blockSize : Z;
  max_size : Z;
  r : Z
}.

(** [MGM.nonce_prepare], for a nonce of class [cls] *)
Definition nonce_prepare_of (cls : array_class) (nonce : loc) : M loc :=
  n ← slice cls nonce;
  _ ← update0 (fun x => Z.land x 0x7F) n;
  mret n.

(** [MGM.nonce_prepare] on a plain [Uint8Array] *)
Definition nonce_prepare (nonce : loc) : M loc :=
  nonce_prepare_of PlainUint8Array nonce.

(** [new MGM(encrypter, blockSize, tagSize)] *)
Definition constructor (encrypter : CipherFunc) (blockSize : Z)
    (tagSize : option Z) : result MGM :=
  if negb (blockSize =? 8) && negb (blockSize =? 16) then Err OnlyBlockSize
  else
    let tag_size := default blockSize tagSize in
    if (tag_size <? 4) || (tag_size >? blockSize) then Err InvalidTagSize
    else Ok {| tag_size := tag_size;
               encrypter := encrypter;
               blockSize := blockSize;
               max_size := Z.shiftl 1 (blockSize * 4) - 1;
               r := if blockSize =? 8 then 0x1B else 0x87 |}.

Definition validateSizes (this : MGM) (plaintext additional : bytes)
    : result unit :=
  if (len plaintext =? 0) && (len additional =? 0) then Err SizesRequired
  else if len plaintext + len additional >? max_size this then Err SizesTooBig
  else Ok tt.

(** The loop of [mul]: [y & 1] is the last binary digit of [y] and [y >>= 1]
    drops it, so the loop is a recursion on the binary digits of [y]. *)
Fixpoint mul_loop (r max_bit : Z) (y : positive) (x z : Z) : Z :=
  let z' := Z.lxor z x in
  let x' := if Z.land x max_bit >? 0
            then Z.lxor (Z.shiftl (Z.lxor x max_bit) 1) r
            else Z.shiftl x 1 in
  match y with
  | xH => z'
  | xO y' => mul_loop r max_bit y' x' z
  | xI y' => mul_loop r max_bit y' x' z'
  end.

Definition mul (this : MGM) (a b : bytes) : result bytes :=
  x ← bytesToNumberBE a;
  y ← bytesToNumberBE b;
  let max_bit := Z.shiftl 1 (blockSize this * 8 - 1) in
  let z := match y with
           | Zpos p => mul_loop (r this) max_bit p x 0
           | _ => 0
           end in
  numberToBytesBE z (blockSize this).

(** The loop of [crypt].  [fuel] bounds the iterations; [length data] is
    enough for a positive block size. *)
Fixpoint crypt_loop (this : MGM) (fuel : nat) (enc data : bytes)
    : result (list bytes) :=
  match data with
  | [] => Ok []
  | _ =>
      match fuel with
      | O => Err Diverges
      | S fuel' =>
          let block := xor (encrypter this enc) data in
          enc ← incr_r enc (blockSize this);
          res ← crypt_loop this fuel' enc
                  (subarray_from data (blockSize this));
          Ok (block :: res)
      end
  end.

(** [crypt] after [icn[0] &= 0x7F], on the octets of [icn]. *)
Definition crypt_body (this : MGM) (icn data : bytes) : result bytes :=
  let enc := encrypter this icn in
  res ← crypt_loop this (length data) enc data;
  Ok (concatBytes res).

Definition crypt (this : MGM) (icn : loc) (data : bytes) : M bytes :=
  _ ← update0 (fun x => Z.land x 0x7F) icn;
  b ← read icn;
  lift (crypt_body this b data).

(** One of the two loops of [auth], over [ad] and then over [text]; the
    state is [(_sum, enc)]. *)
Fixpoint auth_loop (this : MGM) (fuel : nat) (data : bytes)
    (st : bytes * bytes) : result (bytes * bytes) :=
  match data with
  | [] => Ok st
  | _ =>
      match fuel with
      | O => Err Diverges
      | S fuel' =>
          m ← mul this (encrypter this st.2)
                (pad1 (subarray data 0 (blockSize this)) (blockSize this));
          let _sum := xor st.1 m in
          enc ← incr_l st.2 (blockSize this);
          auth_loop this fuel' (subarray_from data (blockSize this))
            (_sum, enc)
      end
  end.

(** [auth] after [icn[0] |= 0x80], on the octets of [icn]. *)
Definition auth_body (this : MGM) (icn text ad : bytes) : result bytes :=
  let enc := encrypter this icn in
  let _sum := zeros (blockSize this) in
  let ad_len := len ad in
  let text_len := len text in
  st ← auth_loop this (length ad) ad (_sum, enc);
  st ← auth_loop this (length text) text st;
  let halfbs := idiv32 (blockSize this) 2 in
  la ← numberToBytesBE (ad_len * 8) halfbs;
  lt ← numberToBytesBE (text_len * 8) halfbs;
  m ← mul this (encrypter this st.2) (concatBytes [la; lt]);
  let _sum := xor st.1 m in
  Ok (subarray (encrypter this _sum) 0 (tag_size this)).

Definition auth (this : MGM) (icn : loc) (text ad : bytes) : M bytes :=
  _ ← update0 (fun x => Z.lor x 0x80) icn;
  b ← read icn;
  lift (auth_body this b text ad).

(** [seal], for a nonce of class [cls] *)
Definition seal_of (cls : array_class) (this : MGM) (nonce : loc)
    (plaintext additional_data : bytes) : M bytes :=
  _ ← lift (validateSizes this plaintext additional_data);
  icn ← slice cls nonce;
  ciphertext ← crypt this icn plaintext;
  tag ← auth this icn ciphertext additional_data;
  mret (concatBytes [ciphertext; tag]).

(** [seal] on a plain [Uint8Array] nonce *)
Definition seal (this : MGM) (nonce : loc) (plaintext additional_data : bytes)
    : M bytes :=
  seal_of PlainUint8Array this nonce plaintext additional_data.

(** [Buffer.from(a).equals(b)] *)
Definition buffer_equals (a b : bytes) : bool := bool_decide (a = b).

(** [open], for a nonce of class [cls] *)
Definition open_of (cls : array_class) (this : MGM) (nonce : loc)
    (ciphertext additional_data : bytes) : M bytes :=
  _ ← lift (validateSizes this ciphertext additional_data);
  icn ← slice cls nonce;
  let ct := subarray ciphertext 0 (len ciphertext - tag_size this) in
  let tag_expected :=
    subarray_from ciphertext (len ciphertext - tag_size this) in
  tag ← auth this icn ct additional_data;
  if negb (buffer_equals tag_expected tag) then lift (Err InvalidAuthTag)
  else crypt this icn ct.

(** [open] on a plain [Uint8Array] nonce *)
Definition open (this : MGM) (nonce : loc) (ciphertext additional_data : bytes)
    : M bytes :=
  open_of PlainUint8Array this nonce ciphertext additional_data.

End Mgm.

Import Mgm.



(** ** Big-endian numbers

    The octets and the value that the conversions of [utils.ts] are proved to
    compute on well-formed inputs. *)

(** The [k] low octets of [n], most significant first. *)
Fixpoint be_bytes (k : nat) (n : Z) : bytes :=
  match k with
  | O => []
  | S k' => be_bytes k' (n / 256) ++ [n mod 256]
  end.

(** The unsigned big-endian value of an octet sequence. *)
Definition be_value (b : bytes) : Z :=
  fold_left (fun acc x => acc * 256 + x) b 0.

(** ** Well-formed inputs *)

(** A block: [bs] octets. *)
Definition wf_block (bs : Z) (b : bytes) : Prop := bytes_ok b /\ len b = bs.

(** A block function: block-sized octet sequences to block-sized octet
    sequences. *)
Definition block_fn (E : CipherFunc) (bs : Z) : Prop :=
  forall b, wf_block bs b -> wf_block bs (E b).

(** An [MGM] instance as the constructor builds it. *)
Definition valid_instance (this : MGM) : Prop :=
  (blockSize this = 8 \/ blockSize this = 16) /\
  4 <= tag_size this <= blockSize this /\
  max_size this = 2 ^ (blockSize this * 4) - 1 /\
  r this = (if blockSize this =? 8 then 0x1B else 0x87).

(** The outcomes of [seal] on admissible inputs: a result, or the odd-length
    error of [hexToBytes] on [blockSize + 1] hexadecimal digits. *)
Definition overflow_or_ok {A : Type} (this : MGM) (m : result A) : Prop :=
  (exists a, m = Ok a) \/ m = Err (HexUnpadded (blockSize this + 1)).

(** ** Toy ciphers for the concrete scenarios *)

(** The [MGM] instance over the identity block function, with the default
    tag size. *)
Definition identity_mgm (bs : Z) : MGM :=
  {| tag_size := bs; encrypter := fun b => b; blockSize := bs;
     max_size := 2 ^ (bs * 4) - 1; r := if bs =? 8 then 0x1B else 0x87 |}.

(** A cipher class whose block function complements every octet, whatever
    the key. *)
Definition complement_cipher : ACPKMConstructor :=
  fun _ b => map (Z.lxor 0xFF) b.

(** ** The classical modes of [index.ts]: ECB, CBC, CFB and OFB

    These functions throw errors that the functions above do not, so they
    have a result type of their own.  Like [ctr], their loops are modelled
    for a positive block size. *)

Module Modes.

Inductive mode_error : Type :=
| DataNotAligned        (* Data not aligned *)
| IVSizeInvalid         (* Invalid IV size *)
| SetRange              (* RangeError of result.set: offset is out of bounds *)
| RegisterEmpty.        (* TypeError: r[0] is undefined *)

Inductive mresult (A : Type) : Type :=
| MOk (a : A)
| MErr (e : mode_error).
Arguments MOk {A} a.
Arguments MErr {A} e.

#[global] Instance mresult_ret : MRet mresult := @MOk.
#[global] Instance mresult_bind : MBind mresult := fun A B k m =>
  match m with
  | MOk a => k a
  | MErr e => MErr e
  end.

(** [target.set(src, offset)] with the bounds check of typed arrays. *)
Definition typed_set (target src : bytes) (offset : Z) : mresult bytes :=
  if (offset <? 0) || (offset + len src >? len target) then MErr SetRange
  else MOk (array_set target src (Z.to_nat offset)).

(** The loop of [ecb_encrypt] and of [ecb_decrypt]: [n] iterations remain,
    [i] is the read offset and [offset] the write offset. *)
Fixpoint ecb_loop (cipher : CipherFunc) (blockSize : Z) (data : bytes)
    (n : nat) (i : Z) (result : bytes) (offset : Z) : mresult bytes :=
  match n with
  | O => MOk result
  | S n' =>
      let chunk := subarray data i (i + blockSize) in
      let encrypted := cipher chunk in
      result ← typed_set result encrypted offset;
      ecb_loop cipher blockSize data n' (i + blockSize) result
        (offset + len encrypted)
  end.

Definition ecb_encrypt (encrypter : CipherFunc) (blockSize : Z) (data : bytes)
    : mresult bytes :=
  if (len data =? 0) || negb (rem_eq0 (len data) blockSize)
  then MErr DataNotAligned
  else ecb_loop encrypter blockSize data
         (Z.to_nat (ceil_div (len data) blockSize)) 0 (zeros (len data)) 0.

Definition ecb_decrypt (decrypter : CipherFunc) (blockSize : Z) (data : bytes)
    : mresult bytes :=
  if (len data =? 0) || negb (rem_eq0 (len data) blockSize)
  then MErr DataNotAligned
  else ecb_loop decrypter blockSize data
         (Z.to_nat (ceil_div (len data) blockSize)) 0 (zeros (len data)) 0.

(** The register [r] of OFB, CBC and CFB: the blocks of [iv], in order. *)
Fixpoint iv_blocks (iv : bytes) (blockSize : Z) (n : nat) (i : Z)
    : list bytes :=
  match n with
  | O => []
  | S n' =>
      subarray iv i (i + blockSize)
      :: iv_blocks iv blockSize n' (i + blockSize)
  end.

Definition register (iv : bytes) (blockSize : Z) : list bytes :=
  iv_blocks iv blockSize (Z.to_nat (ceil_div (len iv) blockSize)) 0.

(** [r[0]] passed to [xor] or to the block function. *)
Definition r0 (r : list bytes) : mresult bytes :=
  match r with
  | b :: _ => MOk b
  | [] => MErr RegisterEmpty
  end.

Fixpoint ofb_loop (encrypter : CipherFunc) (blockSize : Z) (data : bytes)
    (n : nat) (i : Z) (r : list bytes) : mresult (list bytes) :=
  match n with
  | O => MOk []
  | S n' =>
      head ← r0 r;
      let r := drop 1 r ++ [encrypter head] in
      let keystreamBlock := default [] (last r) in
      let dataBlock := subarray data i (i + blockSize) in
      rest ← ofb_loop encrypter blockSize data n' (i + blockSize) r;
      MOk (xor keystreamBlock dataBlock :: rest)
  end.

Definition ofb (encrypter : CipherFunc) (blockSize : Z) (data iv : bytes)
    : mresult bytes :=
  if (len iv =? 0) || negb (rem_eq0 (len iv) blockSize)
  then MErr IVSizeInvalid
  else
    result ← ofb_loop encrypter blockSize data
               (Z.to_nat
                  (ceil_div (len data + getPadLength (len data) blockSize)
                     blockSize))
               0 (register iv blockSize);
    MOk (concatBytes result).

Fixpoint cbc_encrypt_loop (encrypter : CipherFunc) (blockSize : Z)
    (data : bytes) (n : nat) (i : Z) (r : list bytes)
    : mresult (list bytes) :=
  match n with
  | O => MOk []
  | S n' =>
      head ← r0 r;
      let block := encrypter (xor head (subarray data i (i + blockSize))) in
      let r := drop 1 r ++ [block] in
      rest ← cbc_encrypt_loop encrypter blockSize data n' (i + blockSize) r;
      MOk (block :: rest)
  end.

Definition cbc_encrypt (encrypter : CipherFunc) (blockSize : Z)
    (data iv : bytes) : mresult bytes :=
  if (len data =? 0) || negb (rem_eq0 (len data) blockSize)
  then MErr DataNotAligned
  else if (len iv =? 0) || negb (rem_eq0 (len iv) blockSize)
  then MErr IVSizeInvalid
  else
    result ← cbc_encrypt_loop encrypter blockSize data
               (Z.to_nat (ceil_div (len data) blockSize)) 0
               (register iv blockSize);
    MOk (concatBytes result).

Fixpoint cbc_decrypt_loop (decrypter : CipherFunc) (blockSize : Z)
    (data : bytes) (n : nat) (i : Z) (r : list bytes)
    : mresult (list bytes) :=
  match n with
  | O => MOk []
  | S n' =>
      let blk := subarray data i (i + blockSize) in
      head ← r0 r;
      let block := xor head (decrypter blk) in
      let r := drop 1 r ++ [blk] in
      rest ← cbc_decrypt_loop decrypter blockSize data n' (i + blockSize) r;
      MOk (block :: rest)
  end.

Definition cbc_decrypt (decrypter : CipherFunc) (blockSize : Z)
    (data iv : bytes) : mresult bytes :=
  if (len data =? 0) || negb (rem_eq0 (len data) blockSize)
  then MErr DataNotAligned
  else if (len iv =? 0) || negb (rem_eq0 (len iv) blockSize)
  then MErr IVSizeInvalid
  else
    result ← cbc_decrypt_loop decrypter blockSize data
               (Z.to_nat (ceil_div (len data) blockSize)) 0
               (register iv blockSize);
    MOk (concatBytes result).

Fixpoint cfb_encrypt_loop (encrypter : CipherFunc) (blockSize : Z)
    (data : bytes) (n : nat) (i : Z) (r : list bytes)
    : mresult (list bytes) :=
  match n with
  | O => MOk []
  | S n' =>
      head ← r0 r;
      let block := xor (encrypter head) (subarray data i (i + blockSize)) in
      let r := drop 1 r ++ [block] in
      rest ← cfb_encrypt_loop encrypter blockSize data n' (i + blockSize) r;
      MOk (block :: rest)
  end.

Definition cfb_encrypt (encrypter : CipherFunc) (blockSize : Z)
    (data iv : bytes) : mresult bytes :=
  if (len iv =? 0) || negb (rem_eq0 (len iv) blockSize)
  then MErr IVSizeInvalid
  else
    result ← cfb_encrypt_loop encrypter blockSize data
               (Z.to_nat
                  (ceil_div (len data + getPadLength (len data) blockSize)
                     blockSize))
               0 (register iv blockSize);
    MOk (concatBytes result).

Fixpoint cfb_decrypt_loop (decrypter : CipherFunc) (blockSize : Z)
    (data : bytes) (n : nat) (i : Z) (r : list bytes)
    : mresult (list bytes) :=
  match n with
  | O => MOk []
  | S n' =>
      let blk := subarray data i (i + blockSize) in
      head ← r0 r;
      let block := xor (decrypter head) blk in
      let r := drop 1 r ++ [blk] in
      rest ← cfb_decrypt_loop decrypter blockSize data n' (i + blockSize) r;
      MOk (block :: rest)
  end.

Definition cfb_decrypt (decrypter : CipherFunc) (blockSize : Z)
    (data iv : bytes) : mresult bytes :=
  if (len iv =? 0) || negb (rem_eq0 (len iv) blockSize)
  then MErr IVSizeInvalid
  else
    result ← cfb_decrypt_loop decrypter blockSize data
               (Z.to_nat
                  (ceil_div (len data + getPadLength (len data) blockSize)
                     blockSize))
               0 (register iv blockSize);
    MOk (concatBytes result).

End Modes.

Import Modes.

(** ** Blocks

    The consecutive [bs]-octet pieces of a buffer, as the loops of the modes
    read them with [subarray(i, i + blockSize)]; the last pieces may be
    short or empty. *)
Fixpoint blocks (bs n : nat) (d : bytes) : list bytes :=
  match n with
  | O => []
  | S n' => take bs d :: blocks bs n' (drop bs d)
  end.

(** A function that maps [bs] octets to [bs] octets. *)
Definition keeps_block_length (f : CipherFunc) (bs : Z) : Prop :=
  forall b, len b = bs -> len (f b) = bs.

(** A register mode, block by block: [step] maps the head of the register
    and the current block to the output block and to the block appended to
    the register. *)
Fixpoint reg_run (step : bytes -> bytes -> bytes * bytes) (r : list bytes)
    (ps : list bytes) : mresult (list bytes) :=
  match ps with
  | [] => MOk []
  | p :: ps' =>
      head ← r0 r;
      rest ← reg_run step (drop 1 r ++ [(step head p).2]) ps';
      MOk ((step head p).1 :: rest)
  end.

(** * Properties *)

(** ** Concrete scenarios *)

Example xor_min_length : xor [1; 2; 3] [255; 255] = [254; 253].
Proof. reflexivity. Qed.

Example numberToBytesBE_example : numberToBytesBE 258 4 = Ok [0; 0; 1; 2].
Proof. reflexivity. Qed.

Example bytesToNumberBE_example : bytesToNumberBE [0; 0; 1; 2] = Ok 258.
Proof. reflexivity. Qed.

Example pad2_example : pad2 [0x11; 0x22] 8 = [0x11; 0x22; 0x80; 0; 0; 0; 0; 0].
Proof. reflexivity. Qed.

Example unpad2_example :
  unpad2 [0x11; 0x22; 0x80; 0; 0; 0; 0; 0] 8 = Ok [0x11; 0x22].
Proof. reflexivity. Qed.

Example pad3_example : pad3 (replicate 8 0x11) 8 = replicate 8 0x11.
Proof. reflexivity. Qed.

Example ctr_example :
  ctr (fun b => b) 8 (zeros 12) [1; 2; 3; 4] None
  = Ok [1; 2; 3; 4; 0; 0; 0; 0; 1; 2; 3; 4].
Proof. reflexivity. Qed.

(** ** Lengths, slices and in-place writes *)

Lemma len_nonneg {A : Type} (l : list A) : 0 <= len l.
Proof. unfold len. lia. Qed.

Lemma len_app {A : Type} (l1 l2 : list A) : len (l1 ++ l2) = len l1 + len l2.
Proof. unfold len. rewrite length_app. lia. Qed.

Lemma len_zeros (n : Z) : 0 <= n -> len (zeros n) = n.
Proof. intros Hn. unfold len, zeros. rewrite length_replicate. lia. Qed.

Lemma len_nil_inv {A : Type} (l : list A) : len l = 0 -> l = [].
Proof. destruct l; [done|]. unfold len. simpl. lia. Qed.

Lemma subarray_prefix (a : bytes) (e : Z) :
  0 <= e <= len a -> subarray a 0 e = take (Z.to_nat e) a.
Proof.
  intros He. unfold subarray, rel_index.
  replace (0 <? 0) with false by done.
  destruct (e <? 0) eqn:E; [lia|].
  rewrite Z.min_l by lia. rewrite Z.min_l by apply len_nonneg.
  simpl. by rewrite Z.sub_0_r.
Qed.

Lemma subarray_from_suffix (a : bytes) (b : Z) :
  0 <= b <= len a -> subarray_from a b = drop (Z.to_nat b) a.
Proof.
  intros Hb. unfold subarray_from, subarray, rel_index.
  destruct (b <? 0) eqn:E; [lia|].
  destruct (len a <? 0) eqn:E'; [pose proof (len_nonneg a); lia|].
  rewrite Z.min_id, Z.min_l by lia.
  apply take_ge. rewrite length_drop. unfold len. lia.
Qed.

Lemma array_set_zeros (data : bytes) (k : Z) :
  0 <= k -> array_set (zeros (len data + k)) data 0 = data ++ zeros k.
Proof.
  intros Hk. unfold array_set, zeros, len. simpl. f_equal.
  rewrite drop_replicate. f_equal. lia.
Qed.

(** ** Hexadecimal strings and big-endian conversion *)

Lemma asciiToBase16_digit_char (d : Z) :
  0 <= d < 16 -> asciiToBase16 (digit_char d) = Some d.
Proof.
  intros Hd. unfold digit_char, asciiToBase16.
  destruct (d <? 10) eqn:E.
  - apply Z.ltb_lt in E.
    replace ((48 <=? 48 + d) && (48 + d <=? 57)) with true
      by (symmetry; apply andb_true_iff; split; apply Z.leb_le; lia).
    f_equal. lia.
  - apply Z.ltb_ge in E.
    replace ((48 <=? 87 + d) && (87 + d <=? 57)) with false
      by (symmetry; apply andb_false_iff; right; apply Z.leb_gt; lia).
    replace ((65 <=? 87 + d) && (87 + d <=? 70)) with false
      by (symmetry; apply andb_false_iff; right; apply Z.leb_gt; lia).
    replace ((97 <=? 87 + d) && (87 + d <=? 102)) with true
      by (symmetry; apply andb_true_iff; split; apply Z.leb_le; lia).
    f_equal. lia.
Qed.

Lemma length_be_digits (k : nat) (n : Z) : length (be_digits k n) = k.
Proof.
  revert n. induction k as [|k IH]; intros n; [done|].
  simpl. rewrite length_app, IH. simpl. lia.
Qed.

Lemma be_digits_zero (j : nat) : be_digits j 0 = replicate j 0.
Proof.
  induction j as [|j IH]; [done|].
  simpl be_digits. rewrite Z.div_0_l, Z.mod_0_l, IH by lia.
  symmetry. apply replicate_cons_app.
Qed.

Lemma be_digits_pad (c j : nat) (n : Z) :
  0 <= n < 2 ^ (4 * Z.of_nat c) ->
  be_digits (j + c) n = replicate j 0 ++ be_digits c n.
Proof.
  revert n. induction c as [|c IH]; intros n Hn.
  - simpl in Hn. replace n with 0 by lia.
    rewrite Nat.add_0_r, be_digits_zero. simpl. by rewrite app_nil_r.
  - replace (j + S c)%nat with (S (j + c)) by lia. simpl be_digits.
    rewrite IH, app_assoc; [done|].
    replace (4 * Z.of_nat (S c)) with (4 + 4 * Z.of_nat c) in Hn by lia.
    rewrite Z.pow_add_r in Hn by lia. change (2 ^ 4) with 16 in Hn.
    split; [apply Z.div_pos; lia|].
    apply Z.div_lt_upper_bound; lia.
Qed.

Lemma hex_digit_count_le (n : Z) (k : nat) :
  (1 <= k)%nat -> 0 <= n < 2 ^ (4 * Z.of_nat k) -> (hex_digit_count n <= k)%nat.
Proof.
  intros Hk Hn. unfold hex_digit_count.
  destruct (n =? 0) eqn:E; [done|]. apply Z.eqb_neq in E.
  assert (Z.log2 n < 4 * Z.of_nat k) by (apply Z.log2_lt_pow2; lia).
  pose proof (Z.log2_nonneg n).
  assert (Z.log2 n / 4 < Z.of_nat k) by (apply Z.div_lt_upper_bound; lia).
  pose proof (Z.div_pos (Z.log2 n) 4). lia.
Qed.

Lemma hex_digit_count_bound (n : Z) :
  0 <= n -> n < 2 ^ (4 * Z.of_nat (hex_digit_count n)).
Proof.
  intros Hn. unfold hex_digit_count.
  destruct (n =? 0) eqn:E.
  - apply Z.eqb_eq in E. subst n. done.
  - apply Z.eqb_neq in E. pose proof (Z.log2_nonneg n).
    pose proof (Z.div_pos (Z.log2 n) 4).
    apply Z.log2_lt_pow2; [lia|].
    pose proof (Z.div_mod (Z.log2 n) 4).
    pose proof (Z.mod_pos_bound (Z.log2 n) 4).
    lia.
Qed.

Lemma hex_digit_count_gt (n : Z) (k : nat) :
  2 ^ (4 * Z.of_nat k) <= n < 2 ^ (4 * Z.of_nat k + 4) ->
  hex_digit_count n = S k.
Proof.
  intros [Hlo Hhi]. unfold hex_digit_count.
  assert (0 < 2 ^ (4 * Z.of_nat k)) by (apply Z.pow_pos_nonneg; lia).
  destruct (n =? 0) eqn:E; [apply Z.eqb_eq in E; lia|].
  assert (4 * Z.of_nat k <= Z.log2 n) by (apply Z.log2_le_pow2; lia).
  assert (Z.log2 n < 4 * Z.of_nat k + 4) by (apply Z.log2_lt_pow2; lia).
  assert (Z.log2 n / 4 = Z.of_nat k).
  { symmetry. apply (Z.div_unique _ _ _ (Z.log2 n - 4 * Z.of_nat k)); lia. }
  lia.
Qed.

Lemma map_replicate {A B : Type} (f : A -> B) (n : nat) (x : A) :
  map f (replicate n x) = replicate n (f x).
Proof. induction n as [|n IH]; [done|]. simpl. by rewrite IH. Qed.

Lemma toString16_nonneg (n : Z) :
  0 <= n -> toString16 n = map digit_char (be_digits (hex_digit_count n) n).
Proof. intros Hn. unfold toString16. destruct (n <? 0) eqn:E; [lia|done]. Qed.

Lemma padStart_toString16 (n : Z) (k : nat) :
  (1 <= k)%nat -> 0 <= n < 2 ^ (4 * Z.of_nat k) ->
  padStart (toString16 n) (Z.of_nat k) = map digit_char (be_digits k n).
Proof.
  intros Hk Hn. rewrite toString16_nonneg by lia. unfold padStart, len.
  rewrite length_map, length_be_digits.
  pose proof (hex_digit_count_le n k Hk Hn) as Hc.
  pose proof (hex_digit_count_bound n ltac:(lia)) as Hb.
  replace k with ((k - hex_digit_count n) + hex_digit_count n)%nat at 2 by lia.
  rewrite be_digits_pad by lia. rewrite map_app, map_replicate.
  f_equal. f_equal. lia.
Qed.

Lemma toString16_overflow (n : Z) (k : nat) :
  2 ^ (4 * Z.of_nat k) <= n < 2 ^ (4 * Z.of_nat k + 4) ->
  padStart (toString16 n) (Z.of_nat k) = toString16 n /\
  len (toString16 n) = Z.of_nat k + 1.
Proof.
  intros Hn.
  assert (0 < 2 ^ (4 * Z.of_nat k)) by (apply Z.pow_pos_nonneg; lia).
  rewrite toString16_nonneg by lia.
  assert (Hl : len (map digit_char (be_digits (hex_digit_count n) n))
               = Z.of_nat k + 1).
  { unfold len. rewrite length_map, length_be_digits.
    rewrite (hex_digit_count_gt n k Hn). lia. }
  split; [|done]. unfold padStart. rewrite Hl.
  replace (Z.to_nat (Z.of_nat k - (Z.of_nat k + 1))) with 0%nat by lia. done.
Qed.

Lemma hexToBytes_loop_digits (L : nat) (n : Z) (rest : list Z) (r : bytes) :
  hexToBytes_loop rest = Ok r ->
  hexToBytes_loop (map digit_char (be_digits (2 * L) n) ++ rest)
  = Ok (be_bytes L n ++ r).
Proof.
  revert n rest r. induction L as [|L IH]; intros n rest r Hr; [done|].
  replace (2 * S L)%nat with (S (S (2 * L))) by lia.
  simpl be_digits. simpl be_bytes.
  rewrite !map_app, <- !app_assoc. simpl.
  rewrite Z.div_div by lia. change (16 * 16) with 256.
  apply IH. simpl.
  rewrite !asciiToBase16_digit_char by (apply Z.mod_pos_bound; lia).
  rewrite Hr. simpl. do 2 f_equal.
  change 256 with (16 * 16). rewrite Z.rem_mul_r by lia. lia.
Qed.

Lemma length_be_bytes (k : nat) (n : Z) : length (be_bytes k n) = k.
Proof.
  revert n. induction k as [|k IH]; intros n; [done|].
  simpl. rewrite length_app, IH. simpl. lia.
Qed.

Lemma be_bytes_ok (k : nat) (n : Z) : bytes_ok (be_bytes k n).
Proof.
  revert n. induction k as [|k IH]; intros n; [constructor|].
  simpl. apply Forall_app. split; [apply IH|].
  constructor; [|constructor]. unfold byte_ok. apply Z.mod_pos_bound. lia.
Qed.

(** [numberToBytesBE] of a number that fits in [L] octets. *)
Lemma numberToBytesBE_fits (n L : Z) :
  1 <= L -> 0 <= n < 2 ^ (8 * L) ->
  numberToBytesBE n L = Ok (be_bytes (Z.to_nat L) n).
Proof.
  intros HL Hn. unfold numberToBytesBE.
  replace (L * 2) with (Z.of_nat (2 * Z.to_nat L)) by lia.
  rewrite padStart_toString16;
    [|lia|replace (4 * Z.of_nat (2 * Z.to_nat L)) with (8 * L) by lia; done].
  unfold hexToBytes, len. rewrite length_map, length_be_digits.
  replace (Z.odd (Z.of_nat (2 * Z.to_nat L))) with false
    by (rewrite Nat2Z.inj_mul, Z.odd_mul; done).
  rewrite <- (app_nil_r (map _ _)).
  rewrite (hexToBytes_loop_digits _ _ [] []) by done.
  by rewrite app_nil_r.
Qed.

(** [numberToBytesBE] of a number that needs one more hexadecimal digit than
    [L] octets hold: the digit string has odd length and [hexToBytes] throws. *)
Lemma numberToBytesBE_overflow (n L : Z) :
  0 <= L -> 2 ^ (8 * L) <= n < 2 ^ (8 * L + 4) ->
  numberToBytesBE n L = Err (HexUnpadded (L * 2 + 1)).
Proof.
  intros HL Hn. unfold numberToBytesBE.
  replace (L * 2) with (Z.of_nat (2 * Z.to_nat L)) by lia.
  destruct (toString16_overflow n (2 * Z.to_nat L)) as [Hp Hlen].
  { replace (4 * Z.of_nat (2 * Z.to_nat L)) with (8 * L) by lia. done. }
  rewrite Hp. unfold hexToBytes. rewrite Hlen.
  replace (Z.odd (Z.of_nat (2 * Z.to_nat L) + 1)) with true; [done|].
  rewrite Nat2Z.inj_mul, Z.odd_add, Z.odd_mul. done.
Qed.

Lemma hexes_byte (x : Z) :
  byte_ok x -> hexes x = [digit_char (x / 16); digit_char (x mod 16)].
Proof.
  intros Hx. unfold byte_ok in Hx. unfold hexes.
  change 2 with (Z.of_nat 2).
  rewrite (padStart_toString16 x 2) by (simpl; lia).
  simpl.
  rewrite (Z.mod_small (x / 16) 16); [done|].
  split; [apply Z.div_pos; lia | apply Z.div_lt_upper_bound; lia].
Qed.

Lemma hexToNumber_loop_bytes (b : bytes) (acc : Z) :
  bytes_ok b ->
  hexToNumber_loop (bytesToHex b) acc
  = Ok (fold_left (fun a x => a * 256 + x) b acc).
Proof.
  intros Hb. revert acc. induction Hb as [|x b Hx Hb IH]; intros acc; [done|].
  unfold bytesToHex in *. simpl flat_map. rewrite hexes_byte by done.
  unfold byte_ok in Hx.
  simpl. rewrite !asciiToBase16_digit_char.
  - rewrite IH. do 2 f_equal. pose proof (Z.div_mod x 16). lia.
  - apply Z.mod_pos_bound. lia.
  - split; [apply Z.div_pos; lia | apply Z.div_lt_upper_bound; lia].
Qed.

Lemma bytesToNumberBE_ok (b : bytes) :
  bytes_ok b -> bytesToNumberBE b = Ok (be_value b).
Proof.
  intros Hb. unfold bytesToNumberBE, hexToNumber, be_value.
  rewrite <- (hexToNumber_loop_bytes b 0 Hb).
  destruct (bytesToHex b) eqn:E; [|done].
  destruct Hb as [|x b Hx Hb]; [done|].
  unfold bytesToHex in E. simpl in E. rewrite hexes_byte in E by done. done.
Qed.

Lemma fold_be_value (b : bytes) (acc : Z) :
  fold_left (fun a x => a * 256 + x) b acc
  = acc * 2 ^ (8 * len b) + be_value b.
Proof.
  unfold be_value. revert acc. induction b as [|x b IH]; intros acc.
  - change (acc = acc * 1 + 0). lia.
  - change (fold_left (fun a x => a * 256 + x) b (acc * 256 + x)
            = acc * 2 ^ (8 * len (x :: b))
              + fold_left (fun a x => a * 256 + x) b (0 * 256 + x)).
    rewrite (IH (acc * 256 + x)), (IH (0 * 256 + x)).
    replace (8 * len (x :: b)) with (8 + 8 * len b) by (unfold len; simpl; lia).
    rewrite Z.pow_add_r by (pose proof (len_nonneg b); lia).
    change (2 ^ 8) with 256. ring.
Qed.

Lemma be_value_cons (x : Z) (b : bytes) :
  be_value (x :: b) = x * 2 ^ (8 * len b) + be_value b.
Proof. unfold be_value at 1. simpl. apply fold_be_value. Qed.

Lemma be_value_app (a b : bytes) :
  be_value (a ++ b) = be_value a * 2 ^ (8 * len b) + be_value b.
Proof.
  unfold be_value at 1. rewrite fold_left_app.
  fold (be_value a). apply fold_be_value.
Qed.

Lemma be_value_bound (b : bytes) :
  bytes_ok b -> 0 <= be_value b < 2 ^ (8 * len b).
Proof.
  induction 1 as [|x b Hx Hb IH]; [done|].
  rewrite be_value_cons. unfold byte_ok in Hx.
  replace (8 * len (x :: b)) with (8 + 8 * len b) by (unfold len; simpl; lia).
  rewrite Z.pow_add_r by (pose proof (len_nonneg b); lia).
  change (2 ^ 8) with 256. nia.
Qed.

Lemma be_value_be_bytes (k : nat) (n : Z) :
  0 <= n < 2 ^ (8 * Z.of_nat k) -> be_value (be_bytes k n) = n.
Proof.
  revert n. induction k as [|k IH]; intros n Hn.
  - simpl in *. unfold be_value. simpl. lia.
  - simpl be_bytes. rewrite be_value_app.
    replace (8 * Z.of_nat (S k)) with (8 + 8 * Z.of_nat k) in Hn by lia.
    rewrite Z.pow_add_r in Hn by lia. change (2 ^ 8) with 256 in Hn.
    rewrite IH.
    + unfold be_value, len. simpl. pose proof (Z.div_mod n 256). lia.
    + split; [apply Z.div_pos; lia | apply Z.div_lt_upper_bound; lia].
Qed.

(** A property of octets that holds of each of the 256 values. *)
Lemma byte_forall (P : Z -> bool) :
  forallb P (map Z.of_nat (seq 0 256)) = true ->
  forall x, byte_ok x -> P x = true.
Proof.
  intros HP x Hx. unfold byte_ok in Hx.
  rewrite forallb_forall in HP. apply HP.
  apply in_map_iff. exists (Z.to_nat x). split; [lia|].
  apply in_seq. lia.
Qed.

(** The test [(b[0] & 0x80) != 0] reads the top bit of the big-endian value. *)
Lemma high_bit_value (b : bytes) :
  bytes_ok b -> b <> [] ->
  (Z.land (get0 b 0) 0x80 =? 0) = (be_value b <? 2 ^ (8 * len b - 1)).
Proof.
  intros Hb Hne. destruct Hb as [|x b Hx Hb]; [done|].
  unfold get0. simpl. rewrite be_value_cons.
  pose proof (be_value_bound b Hb) as Hv. pose proof (len_nonneg b) as Hl.
  replace (8 * len (x :: b) - 1) with (7 + 8 * len b)
    by (unfold len; simpl; lia).
  rewrite Z.pow_add_r by lia. change (2 ^ 7) with 128.
  assert (Hland : (Z.land x 128 =? 0) = (x <? 128)).
  { apply eqb_true_iff.
    apply (byte_forall (fun x => eqb (Z.land x 128 =? 0) (x <? 128)));
      [by vm_compute | done]. }
  rewrite Hland. unfold byte_ok in Hx.
  destruct (x <? 128) eqn:E; symmetry.
  - apply Z.ltb_lt in E. apply Z.ltb_lt. nia.
  - apply Z.ltb_ge in E. apply Z.ltb_ge. nia.
Qed.

(** ** Half-block increments *)

Lemma idiv32_small (a b : Z) :
  0 <= a -> 0 < b -> a / b < 2 ^ 31 -> idiv32 a b = a / b.
Proof.
  intros Ha Hb Hq. unfold idiv32, to_int32.
  rewrite Z.quot_div_nonneg by lia.
  pose proof (Z.div_pos a b Ha Hb).
  rewrite Z.mod_small by lia. lia.
Qed.

(** Case analysis on the two block sizes, with the half block computed. *)
Ltac block_cases H :=
  let E := fresh "E" in
  destruct H as [E | E]; rewrite ?E in *;
  change (8 / 2) with 4 in *; change (16 / 2) with 8 in *.

Lemma half_block (bs : Z) : bs = 8 \/ bs = 16 -> idiv32 bs 2 = bs / 2.
Proof. by intros [-> | ->]. Qed.

Lemma subarray_from_app (a b : bytes) :
  subarray_from (a ++ b) (len a) = b.
Proof.
  pose proof (len_nonneg a). pose proof (len_nonneg b).
  rewrite subarray_from_suffix by (rewrite len_app; lia).
  unfold len. rewrite Nat2Z.id. by rewrite drop_app_length.
Qed.

Lemma subarray_prefix_app (a b : bytes) :
  subarray (a ++ b) 0 (len a) = a.
Proof.
  pose proof (len_nonneg a). pose proof (len_nonneg b).
  rewrite subarray_prefix by (rewrite len_app; lia).
  unfold len. rewrite Nat2Z.id. by rewrite take_app_length.
Qed.

(** [_incr] on a half block: the successor when it fits, an exception when
    the half block holds only 0xFF octets. *)
Lemma _incr_spec (data : bytes) (bs : Z) :
  bs = 8 \/ bs = 16 -> bytes_ok data -> len data = bs / 2 ->
  _incr data bs =
    if be_value data + 1 <? 2 ^ (4 * bs)
    then Ok (be_bytes (Z.to_nat (bs / 2)) (be_value data + 1))
    else Err (HexUnpadded (bs + 1)).
Proof.
  intros Hbs Hok Hlen. unfold _incr.
  rewrite bytesToNumberBE_ok by done. simpl.
  rewrite half_block by done.
  pose proof (be_value_bound data Hok) as Hv. rewrite Hlen in Hv.
  assert (H8 : 8 * (bs / 2) = 4 * bs) by (destruct Hbs as [-> | ->]; done).
  rewrite H8 in Hv.
  destruct (be_value data + 1 <? 2 ^ (4 * bs)) eqn:E.
  - apply Z.ltb_lt in E. apply numberToBytesBE_fits.
    + destruct Hbs as [-> | ->]; done.
    + rewrite H8. lia.
  - apply Z.ltb_ge in E.
    replace (bs + 1) with (bs / 2 * 2 + 1) by (destruct Hbs as [-> | ->]; done).
    apply numberToBytesBE_overflow.
    + destruct Hbs as [-> | ->]; done.
    + rewrite H8. rewrite Z.pow_add_r by lia. lia.
Qed.

Lemma be_value_replicate_ff (n : nat) :
  be_value (replicate n 255) = 2 ^ (8 * Z.of_nat n) - 1.
Proof.
  induction n as [|n IH]; [done|].
  simpl replicate. rewrite be_value_cons, IH.
  unfold len. rewrite length_replicate.
  replace (8 * Z.of_nat (S n)) with (8 + 8 * Z.of_nat n) by lia.
  rewrite Z.pow_add_r by lia. change (2 ^ 8) with 256. lia.
Qed.

Lemma replicate_ok (n : nat) (x : Z) : byte_ok x -> bytes_ok (replicate n x).
Proof. intros Hx. induction n; constructor; done. Qed.

(** On a counter whose right half holds only 0xFF octets [incr_r] throws. *)
Lemma incr_r_wrap_throws (bs : Z) (left : bytes) :
  bs = 8 \/ bs = 16 -> len left = bs / 2 ->
  incr_r (left ++ replicate (Z.to_nat (bs / 2)) 0xFF) bs
  = Err (HexUnpadded (bs + 1)).
Proof.
  intros Hbs Hlen. unfold incr_r. rewrite half_block by done.
  rewrite <- Hlen at 2. rewrite subarray_from_app.
  rewrite _incr_spec; try done.
  - rewrite be_value_replicate_ff.
    replace (8 * Z.of_nat (Z.to_nat (bs / 2))) with (4 * bs)
      by (destruct Hbs as [-> | ->]; done).
    replace (2 ^ (4 * bs) - 1 + 1 <? 2 ^ (4 * bs)) with false; [done|].
    symmetry. apply Z.ltb_ge. lia.
  - by apply replicate_ok.
  - unfold len. rewrite length_replicate. destruct Hbs as [-> | ->]; done.
Qed.

(** C3, at the input the claim names.  On a counter whose right half holds
    only 0xFF octets [incr_r] does not wrap around to zero: the incremented
    value prints as [blockSize + 1] hexadecimal digits and [hexToBytes]
    throws on the odd length. *)
Theorem incr_r_all_ones_throws (bs : Z) (left : bytes) :
  bs = 8 \/ bs = 16 -> len left = bs / 2 ->
  incr_r (left ++ replicate (Z.to_nat (bs / 2)) 0xFF) bs
  = Err (HexUnpadded (bs + 1)).
Proof. apply incr_r_wrap_throws. Qed.

Lemma incr_r_all_ones_throws_witness :
  (8 = 8 \/ 8 = 16) /\ len [0; 0; 0; 0] = 8 / 2 /\
  incr_r [0; 0; 0; 0; 0xFF; 0xFF; 0xFF; 0xFF] 8 = Err (HexUnpadded 9).
Proof.
  split; [by left|]. split; [reflexivity|].
  apply (incr_r_all_ones_throws 8 [0; 0; 0; 0]); [by left | reflexivity].
Defined.

(** Below the all-ones value [incr_r] is the increment of the right half. *)
Lemma incr_r_spec (data : bytes) (bs : Z) :
  bs = 8 \/ bs = 16 -> bytes_ok data -> len data = bs ->
  be_value (drop (Z.to_nat (bs / 2)) data) + 1 < 2 ^ (4 * bs) ->
  incr_r data bs =
    Ok (take (Z.to_nat (bs / 2)) data
        ++ be_bytes (Z.to_nat (bs / 2))
             (be_value (drop (Z.to_nat (bs / 2)) data) + 1)).
Proof.
  intros Hbs Hok Hlen Hv. unfold incr_r. rewrite half_block by done.
  assert (Hh : 0 <= bs / 2 <= len data)
    by (rewrite Hlen; destruct Hbs as [-> | ->]; done).
  rewrite subarray_from_suffix, subarray_prefix by done.
  rewrite _incr_spec; try done.
  - apply Z.ltb_lt in Hv. rewrite Hv. simpl. by rewrite app_nil_r.
  - by apply Forall_drop.
  - unfold len in *. rewrite length_drop. block_cases Hbs; lia.
Qed.

(** The left-half increment of the authentication counter throws in the
    same way. *)
Lemma incr_l_wrap_throws (bs : Z) (right : bytes) :
  bs = 8 \/ bs = 16 ->
  incr_l (replicate (Z.to_nat (bs / 2)) 0xFF ++ right) bs
  = Err (HexUnpadded (bs + 1)).
Proof.
  intros Hbs. unfold incr_l. rewrite half_block by done.
  assert (Hl : len (replicate (Z.to_nat (bs / 2)) 255) = bs / 2).
  { unfold len. rewrite length_replicate. block_cases Hbs; lia. }
  rewrite <- Hl at 2. rewrite subarray_prefix_app.
  rewrite _incr_spec; [|done|by apply replicate_ok|done].
  rewrite be_value_replicate_ff.
  replace (8 * Z.of_nat (Z.to_nat (bs / 2))) with (4 * bs)
    by (block_cases Hbs; lia).
  replace (2 ^ (4 * bs) - 1 + 1 <? 2 ^ (4 * bs)) with false; [done|].
  symmetry. apply Z.ltb_ge. lia.
Qed.


(** ** Padding *)

Lemma getPadLength_spec (n bs : Z) :
  0 < bs -> 0 <= n ->
  0 <= getPadLength n bs <= bs /\
  (n + getPadLength n bs) mod bs = 0 /\
  (0 < n -> getPadLength n bs < bs) /\
  (n = 0 -> getPadLength n bs = bs).
Proof.
  intros Hbs Hn. unfold getPadLength, rem_eq0.
  destruct (n <? bs) eqn:E1.
  - apply Z.ltb_lt in E1.
    replace (n + (bs - n)) with bs by lia.
    rewrite Z.mod_same by lia. lia.
  - apply Z.ltb_ge in E1.
    destruct (bs =? 0) eqn:E0; [lia|].
    rewrite Z.rem_mod_nonneg by lia.
    pose proof (Z.mod_pos_bound n bs Hbs) as Hm.
    destruct (n mod bs =? 0) eqn:E2.
    + apply Z.eqb_eq in E2. rewrite Z.add_0_r. lia.
    + apply Z.eqb_neq in E2.
      replace (n + (bs - n mod bs)) with ((n / bs + 1) * bs)
        by (pose proof (Z.div_mod n bs); lia).
      rewrite Z.mod_mul by lia. lia.
Qed.

Lemma pad1_eq (data : bytes) (bs : Z) :
  0 < bs -> pad1 data bs = data ++ zeros (getPadLength (len data) bs).
Proof.
  intros Hbs. unfold pad1. apply array_set_zeros.
  apply getPadLength_spec; [done | apply len_nonneg].
Qed.

Lemma pad2_eq (data : bytes) (bs : Z) :
  0 < bs ->
  pad2 data bs = data ++ 0x80 :: zeros (getPadLength (len data + 1) bs).
Proof.
  intros Hbs. unfold pad2.
  pose proof (len_nonneg data) as Hl.
  destruct (getPadLength_spec (len data + 1) bs) as [Hp _]; [lia..|].
  rewrite <- Z.add_assoc, array_set_zeros by lia.
  rewrite insert_app_r_alt by lia. rewrite Nat.sub_diag.
  unfold zeros. rewrite Z2Nat.inj_add by lia. done.
Qed.

Lemma find_marker_found (pre : bytes) (p j : nat) :
  (j <= p)%nat ->
  find_marker (pre ++ 0x80 :: replicate p 0) (length pre + 1 + j)
  = Z.of_nat (length pre).
Proof.
  induction j as [|j IH]; intros Hj.
  - rewrite Nat.add_0_r, Nat.add_1_r. simpl. unfold get0.
    rewrite lookup_app_r by lia. rewrite Nat.sub_diag. done.
  - replace (length pre + 1 + S j)%nat with (S (length pre + 1 + j)) by lia.
    simpl. unfold get0.
    rewrite lookup_app_r by lia.
    replace (length pre + 1 + j - length pre)%nat with (S j) by lia.
    simpl. rewrite lookup_replicate_2 by lia. simpl.
    apply IH. lia.
Qed.

Lemma forallb_zero_replicate (p : nat) :
  forallb (fun b => b =? 0) (replicate p 0) = true.
Proof. induction p; [done|]. simpl. done. Qed.

Lemma unpad2_pad2_pos (x : bytes) (bs : Z) :
  0 < bs -> unpad2 (pad2 x bs) bs = Ok x.
Proof.
  intros Hbs. rewrite pad2_eq by done.
  pose proof (len_nonneg x) as Hl.
  destruct (getPadLength_spec (len x + 1) bs) as (Hp & Hm & Hlt & _); [lia..|].
  specialize (Hlt ltac:(lia)).
  set (p := getPadLength (len x + 1) bs) in *.
  unfold unpad2.
  assert (Htot : len (x ++ 128 :: zeros p) = len x + 1 + p).
  { rewrite len_app. unfold len at 2. simpl length.
    rewrite Nat2Z.inj_succ. fold (len (zeros p)).
    rewrite len_zeros by lia. lia. }
  rewrite Htot.
  set (k := len x + 1 + p - bs).
  assert (Hk : 0 <= k <= len x).
  { split; [|unfold k; lia].
    unfold k. 
    pose proof (Z.div_mod (len x + 1 + p) bs ltac:(lia)) as Hd.
    rewrite Hm in Hd.
    assert (0 < (len x + 1 + p) / bs) by nia. nia. }
  rewrite subarray_from_suffix by lia.
  rewrite drop_app_le by (unfold len in *; lia).
  unfold zeros.
  replace (length (drop (Z.to_nat k) x ++ 128 :: replicate (Z.to_nat p) 0))
    with (length (drop (Z.to_nat k) x) + 1 + Z.to_nat p)%nat
    by (rewrite length_app; simpl; rewrite length_replicate; lia).
  rewrite find_marker_found by lia.
  rewrite length_drop.
  destruct (Z.of_nat (length x - Z.to_nat k) =? -1) eqn:E;
    [apply Z.eqb_eq in E; lia|].
  replace (Z.to_nat (Z.of_nat (length x - Z.to_nat k) + 1))
    with (S (length (drop (Z.to_nat k) x))) by (rewrite length_drop; lia).
  rewrite drop_app_ge by lia.
  replace (S (length (drop (Z.to_nat k) x)) - length (drop (Z.to_nat k) x))%nat
    with 1%nat by lia.
  change (drop 1 (128 :: replicate (Z.to_nat p) 0))
    with (replicate (Z.to_nat p) 0).
  rewrite forallb_zero_replicate. simpl.
  rewrite subarray_prefix.
  2:{ fold (zeros p). rewrite Htot. unfold len in *. lia. }
  replace (Z.to_nat (len x + 1 + p - (bs - Z.of_nat (length x - Z.to_nat k))))
    with (length x) by (unfold len in *; lia).
  by rewrite take_app_length.
Qed.

(** C9.  Padding round trip: for every octet sequence [x] and block size 8 or
    16, [unpad2] applied to [pad2 x] returns [x]. *)
Theorem unpad2_pad2 (x : bytes) (bs : Z) :
  bs = 8 \/ bs = 16 -> unpad2 (pad2 x bs) bs = Ok x.
Proof. intros [-> | ->]; by apply unpad2_pad2_pos. Qed.

Lemma unpad2_pad2_witness :
  (16 = 8 \/ 16 = 16) /\
  unpad2 (pad2 [0x11; 0x80; 0; 0x80] 16) 16 = Ok [0x11; 0x80; 0; 0x80].
Proof.
  split; [by right|]. apply (unpad2_pad2 [0x11; 0x80; 0; 0x80] 16). by right.
Defined.

(** C7, as the source has it.  [pad1] appends zero octets up to the least
    positive multiple of the block size: fewer than a block of them for a
    non-empty input, and one whole block of zeros for a zero-length input. *)
Theorem pad1_zero_extends (data : bytes) (bs : Z) :
  0 < bs ->
  exists k : Z,
    pad1 data bs = data ++ zeros k /\
    0 <= k /\
    (len data + k) mod bs = 0 /\
    (data <> [] -> k < bs) /\
    (data = [] -> k = bs /\ pad1 data bs = zeros bs).
Proof.
  intros Hbs. exists (getPadLength (len data) bs).
  destruct (getPadLength_spec (len data) bs) as (Hp & Hm & Hlt & H0);
    [done | apply len_nonneg |].
  rewrite pad1_eq by done.
  split; [done|]. split; [lia|]. split; [done|]. split.
  - intros Hne. apply Hlt. destruct data; [done|]. unfold len. simpl. lia.
  - intros ->. specialize (H0 eq_refl). split; [done|].
    simpl. by rewrite H0.
Qed.

Lemma pad1_zero_extends_witness :
  0 < 8 /\
  exists k : Z,
    pad1 [] 8 = [] ++ zeros k /\
    0 <= k /\
    (len (@nil Z) + k) mod 8 = 0 /\
    (@nil Z <> [] -> k < 8) /\
    (@nil Z = [] -> k = 8 /\ pad1 [] 8 = zeros 8).
Proof. split; [lia|]. apply (pad1_zero_extends [] 8). lia. Defined.

(** C7, as the claim states it, fails: the padding of an empty buffer for an
    8-octet block has 8 octets, not none. *)
Lemma pad1_empty_counterexample :
  pad1 [] 8 = [0; 0; 0; 0; 0; 0; 0; 0] /\ len (pad1 [] 8) <> 0.
Proof. split; [reflexivity | discriminate]. Qed.

(** ** CMAC subkeys and OMAC-ACPKM *)

Lemma testbit_lower_bound (z n : Z) :
  0 <= n -> 0 <= z -> Z.testbit z n = true -> 2 ^ n <= z.
Proof.
  intros Hn Hz Hb. apply Z.testbit_true in Hb; [|done].
  assert (0 < 2 ^ n) by (apply Z.pow_pos_nonneg; lia).
  assert (z / 2 ^ n <> 0) by (intros E; rewrite E in Hb; done).
  pose proof (Z.div_pos z (2 ^ n) Hz ltac:(lia)).
  pose proof (Z.mul_div_le z (2 ^ n) ltac:(lia)). nia.
Qed.

Lemma testbit_top (z n : Z) :
  0 <= n -> 2 ^ n <= z < 2 ^ (n + 1) -> Z.testbit z n = true.
Proof.
  intros Hn Hz. apply Z.testbit_true; [done|].
  assert (0 < 2 ^ n) by (apply Z.pow_pos_nonneg; lia).
  rewrite Z.pow_add_r in Hz by lia. change (2 ^ 1) with 2 in Hz.
  replace (z / 2 ^ n) with 1; [done|].
  apply (Z.div_unique _ _ _ (z - 2 ^ n)); lia.
Qed.

Lemma lxor_upper_bound (a b n : Z) :
  0 <= n -> 0 <= a < 2 ^ n -> 0 <= b < 2 ^ n -> 0 <= Z.lxor a b < 2 ^ n.
Proof.
  intros Hn Ha Hb.
  assert (Hnn : 0 <= Z.lxor a b) by (apply Z.lxor_nonneg; lia).
  split; [done|].
  destruct (Z.eq_dec (Z.lxor a b) 0) as [E|E].
  { rewrite E. apply Z.pow_pos_nonneg; lia. }
  apply Z.log2_lt_pow2; [lia|].
  pose proof (Z.log2_lxor a b ltac:(lia) ltac:(lia)) as Hl.
  destruct (Z.eq_dec a 0) as [->|Hane];
    destruct (Z.eq_dec b 0) as [->|Hbne].
  - done.
  - rewrite Z.lxor_0_l. apply Z.log2_lt_pow2; lia.
  - rewrite Z.lxor_0_r. apply Z.log2_lt_pow2; lia.
  - assert (Z.log2 a < n) by (apply Z.log2_lt_pow2; lia).
    assert (Z.log2 b < n) by (apply Z.log2_lt_pow2; lia). lia.
Qed.

(** [macShift] and the K2 step of [omac_acpkm_master] on a block whose top
    bit is set: the doubled value needs [2 * blockSize + 1] hexadecimal
    digits, and [numberToBytesBE] throws before any truncation. *)
Lemma macShift_high_bit (bs : Z) (k1 : bytes) (Rb : Z) :
  bs = 8 \/ bs = 16 -> bytes_ok k1 -> len k1 = bs ->
  Z.land (get0 k1 0) 0x80 <> 0 -> 0 <= Rb < 256 ->
  macShift bs k1 Rb = Err (HexUnpadded (bs * 2 + 1)).
Proof.
  intros Hbs Hok Hlen Hhigh HRb. unfold macShift.
  rewrite bytesToNumberBE_ok by done. simpl.
  assert (Hne : k1 <> []) by (intros ->; block_cases Hbs; done).
  pose proof (high_bit_value k1 Hok Hne) as Hb. rewrite Hlen in Hb.
  apply Z.eqb_neq in Hhigh. rewrite Hhigh in Hb. symmetry in Hb.
  apply Z.ltb_ge in Hb.
  pose proof (be_value_bound k1 Hok) as Hv. rewrite Hlen in Hv.
  assert (Hp : 2 ^ (8 * bs) = 2 * 2 ^ (8 * bs - 1)).
  { replace (8 * bs) with (1 + (8 * bs - 1)) at 1 by lia.
    rewrite Z.pow_add_r by (block_cases Hbs; lia). done. }
  assert (Hp1 : 2 ^ (8 * bs + 1) = 2 * 2 ^ (8 * bs)).
  { rewrite Z.add_comm, Z.pow_add_r by (block_cases Hbs; lia). done. }
  assert (H256 : 256 <= 2 ^ (8 * bs)).
  { change 256 with (2 ^ 8). apply Z.pow_le_mono_r; block_cases Hbs; lia. }
  assert (Hx : 2 ^ (8 * bs) <= Z.lxor (be_value k1 * 2) Rb < 2 ^ (8 * bs + 1)).
  { split.
    - apply testbit_lower_bound;
        [block_cases Hbs; lia | apply Z.lxor_nonneg; lia |].
      rewrite Z.lxor_spec.
      rewrite (testbit_top (be_value k1 * 2)) by (block_cases Hbs; lia).
      rewrite (Z.bits_above_log2 Rb); [done | lia |].
      destruct (Z.eq_dec Rb 0) as [->|]; [simpl; block_cases Hbs; lia|].
      apply Z.log2_lt_pow2; lia.
    - apply lxor_upper_bound; [block_cases Hbs; lia | lia | lia]. }
  assert (2 ^ (8 * bs + 1) <= 2 ^ (8 * bs + 4))
    by (apply Z.pow_le_mono_r; block_cases Hbs; lia).
  rewrite numberToBytesBE_overflow; [done | block_cases Hbs; lia | lia].
Qed.

Lemma omac_k2_overflow (bs : Z) (k1 : bytes) :
  bs = 8 \/ bs = 16 -> bytes_ok k1 -> len k1 = bs ->
  Z.land (get0 k1 0) 0x80 <> 0 ->
  omac_k2 bs k1 = Err (HexUnpadded (bs * 2 + 1)).
Proof.
  intros Hbs Hok Hlen Hhigh.
  pose proof (macShift_high_bit bs k1 0 Hbs Hok Hlen Hhigh ltac:(lia)) as Hm.
  unfold macShift in Hm. unfold omac_k2.
  destruct (bytesToNumberBE k1) as [v|e]; [|done]. simpl in *.
  rewrite Z.lxor_0_r in Hm. rewrite Z.shiftl_mul_pow2 by lia.
  change (2 ^ 1) with 2.
  destruct (numberToBytesBE (v * 2) bs); by simplify_eq/=.
Qed.

(** C5, where the code departs from the claim.  For a block-sized K1 whose
    high bit is set, the K2 step of [omac_acpkm_master] does not produce
    [(K1 << 1) xor Rb] truncated to the block size: [numberToBytesBE] is
    handed a value of [8 * blockSize + 1] bits and throws. *)
Theorem omac_k2_high_bit_throws (bs : Z) (k1 : bytes) :
  bs = 8 \/ bs = 16 -> bytes_ok k1 -> len k1 = bs ->
  Z.land (get0 k1 0) 0x80 <> 0 ->
  omac_k2 bs k1 = Err (HexUnpadded (bs * 2 + 1)).
Proof. apply omac_k2_overflow. Qed.

Lemma omac_k2_high_bit_throws_witness :
  (8 = 8 \/ 8 = 16) /\ bytes_ok [0x80; 0; 0; 0; 0; 0; 0; 0] /\
  len [0x80; 0; 0; 0; 0; 0; 0; 0] = 8 /\
  Z.land (get0 [0x80; 0; 0; 0; 0; 0; 0; 0] 0) 0x80 <> 0 /\
  omac_k2 8 [0x80; 0; 0; 0; 0; 0; 0; 0] = Err (HexUnpadded 17).
Proof.
  assert (Hok : bytes_ok [0x80; 0; 0; 0; 0; 0; 0; 0])
    by (repeat constructor; done).
  split; [by left|]. split; [exact Hok|]. split; [reflexivity|].
  split; [discriminate|].
  apply (omac_k2_high_bit_throws 8 [0x80; 0; 0; 0; 0; 0; 0; 0]);
    [by left | exact Hok | reflexivity | discriminate].
Defined.

(** The whole of [omac_acpkm_master] throws on such a K1: with the identity
    as block function the first derived K1 is FF FF FF FF 00 00 00 04. *)
Example omac_acpkm_master_throws :
  omac_acpkm_master (fun _ b => b) (fun b => b) 64 16 8 (zeros 9)
  = Err (HexUnpadded 17).
Proof. vm_compute. reflexivity. Qed.

Lemma slice_from_whole (b : bytes) : slice_from b (- len b) = b.
Proof.
  unfold slice_from, subarray, rel_index. pose proof (len_nonneg b).
  destruct (len b =? 0) eqn:E.
  - apply Z.eqb_eq in E. apply len_nil_inv in E. by subst.
  - apply Z.eqb_neq in E.
    destruct (- len b <? 0) eqn:E1; [|apply Z.ltb_ge in E1; lia].
    destruct (len b <? 0) eqn:E2; [apply Z.ltb_lt in E2; lia|].
    rewrite Z.add_opp_diag_r, Z.max_id, Z.min_id, Z.sub_0_r. simpl.
    apply take_ge. unfold len. lia.
Qed.

(** When the high bit of K1 is clear, the K2 step is the doubling of K1, and
    on every block it agrees with the subkey step of [macKs], exception
    included. *)
Lemma omac_k2_low_bit (bs : Z) (k1 : bytes) :
  bs = 8 \/ bs = 16 -> bytes_ok k1 -> len k1 = bs ->
  Z.land (get0 k1 0) 0x80 = 0 ->
  omac_k2 bs k1 = Ok (be_bytes (Z.to_nat bs) (2 * be_value k1)).
Proof.
  intros Hbs Hok Hlen Hlow. unfold omac_k2.
  rewrite bytesToNumberBE_ok by done. simpl.
  assert (Hne : k1 <> []) by (intros ->; block_cases Hbs; done).
  pose proof (high_bit_value k1 Hok Hne) as Hb. rewrite Hlen in Hb.
  rewrite Hlow in Hb. simpl in Hb. symmetry in Hb. apply Z.ltb_lt in Hb.
  pose proof (be_value_bound k1 Hok) as Hv.
  rewrite Z.shiftl_mul_pow2 by lia. change (2 ^ 1) with 2.
  rewrite (numberToBytesBE_fits (be_value k1 * 2) bs).
  - simpl. rewrite Hlow. simpl.
    by replace (be_value k1 * 2) with (2 * be_value k1) by lia.
  - block_cases Hbs; lia.
  - replace (8 * bs) with (1 + (8 * bs - 1)) by lia.
    rewrite Z.pow_add_r by (block_cases Hbs; lia). change (2 ^ 1) with 2. lia.
Qed.

Lemma omac_k2_macKs_step (bs : Z) (k1 : bytes) :
  bs = 8 \/ bs = 16 -> bytes_ok k1 -> len k1 = bs ->
  omac_k2 bs k1 = macKs_step bs (if bs =? 16 then Rb128 else Rb64) k1.
Proof.
  intros Hbs Hok Hlen. unfold macKs_step.
  destruct (Z.land (get0 k1 0) 128 =? 0) eqn:E; simpl.
  - apply Z.eqb_eq in E. rewrite omac_k2_low_bit by done.
    pose proof (omac_k2_low_bit bs k1 Hbs Hok Hlen E) as Hk.
    unfold omac_k2 in Hk. unfold macShift.
    destruct (bytesToNumberBE k1) as [v|e] eqn:Ev; [|done]. simpl in *.
    rewrite Z.lxor_0_r. rewrite Z.shiftl_mul_pow2 in Hk by lia.
    change (2 ^ 1) with 2 in Hk.
    destruct (numberToBytesBE (v * 2) bs) as [b|e] eqn:Eb; [|done]. simpl in *.
    rewrite E in Hk. simpl in Hk. injection Hk as ->.
    replace (- bs) with (- len (be_bytes (Z.to_nat bs) (2 * be_value k1))).
    + by rewrite slice_from_whole.
    + unfold len. rewrite length_be_bytes. block_cases Hbs; lia.
  - apply Z.eqb_neq in E. rewrite omac_k2_overflow by done.
    symmetry. apply macShift_high_bit; try done.
    unfold Rb128, Rb64. destruct (bs =? 16); lia.
Qed.


(** C6, where the code departs from the claim.  For 16 octets of data and a
    section size of 16 the message has one section and the claim asks for
    [(KEYSIZE + 8) * 1 = 40] octets of key material; the source starts the
    section count at [data.length] instead of the quotient and derives
    [(KEYSIZE + 8) * 16 = 640] octets. *)
Theorem omac_keymat_length_not_ceil :
  omac_sections 16 16 = 16 /\
  omac_keymat_length 16 8 (zeros 16) = 640 /\
  (KEYSIZE + 8) * ceil_div (len (zeros 16)) 16 = 40 /\
  exists keymats,
    acpkmDerivationMaster (fun _ b => b) (fun b => b) 64 8
      (omac_keymat_length 16 8 (zeros 16)) = Ok keymats /\
    len keymats = 640.
Proof.
  split; [reflexivity|]. split; [reflexivity|]. split; [reflexivity|].
  eexists. split; [vm_compute; reflexivity | reflexivity].
Qed.

(** The section count of the source in general: the length of the data,
    plus one when it is no multiple of the section size. *)
Lemma omac_sections_spec (n N : Z) :
  0 < N -> 0 <= n ->
  omac_sections n N = n + (if n mod N =? 0 then 0 else 1).
Proof.
  intros HN Hn. unfold omac_sections, rem_eq0.
  destruct (N =? 0) eqn:E; [lia|].
  rewrite Z.rem_mod_nonneg by lia.
  destruct (n mod N =? 0); simpl; lia.
Qed.

(** ** CTR and CTR-ACPKM *)

(** C8, where the code departs from the claim.  The section size
    [8 * (2^32 + 1)] is a multiple of the block size 8 and is not less than
    the 16 octets of data, but [(sectionSize / blockSize) | 0] is 1 after the
    32-bit coercion: the second block is encrypted under a derived key and
    the output differs from plain CTR. *)
Theorem ctr_acpkm_int32_rekeys :
  let N := 8 * (2 ^ 32 + 1) in
  let data := zeros 16 in
  let iv := [0; 0; 0; 0] in
  N mod 8 = 0 /\ ceil_div (len data) 8 * 8 <= N /\
  idiv32 N 8 = 1 /\
  ctr (fun b => b) 8 data iv None
    = Ok [0; 0; 0; 0; 0; 0; 0; 0; 0; 0; 0; 0; 0; 0; 0; 1] /\
  ctr_acpkm complement_cipher (fun b => b) N 8 data iv
    = Ok [0; 0; 0; 0; 0; 0; 0; 0; 255; 255; 255; 255; 255; 255; 255; 254] /\
  ctr_acpkm complement_cipher (fun b => b) N 8 data iv
    <> ctr (fun b => b) 8 data iv None.
Proof.
  cbv zeta.
  assert (H1 : ctr (fun b => b) 8 (zeros 16) [0; 0; 0; 0] None
    = Ok [0; 0; 0; 0; 0; 0; 0; 0; 0; 0; 0; 0; 0; 0; 0; 1])
    by (vm_compute; reflexivity).
  assert (H2 : ctr_acpkm complement_cipher (fun b => b) (8 * (2 ^ 32 + 1)) 8
                 (zeros 16) [0; 0; 0; 0]
    = Ok [0; 0; 0; 0; 0; 0; 0; 0; 255; 255; 255; 255; 255; 255; 255; 254])
    by (vm_compute; reflexivity).
  split; [reflexivity|]. split; [by vm_compute|]. split; [reflexivity|].
  split; [exact H1|]. split; [exact H2|].
  rewrite H1, H2. discriminate.
Qed.

Lemma ctr_loop_no_rekey (p : ACPKMParameters) (S bs half : Z) (iv : bytes)
    (E : CipherFunc) (n : nat) (c : Z) :
  (forall j, c <= j < c + Z.of_nat n ->
             ctr_rekey (Some p) S bs j E = E) ->
  ctr_loop (Some p) S bs half iv E n c = ctr_loop None 0 bs half iv E n c.
Proof.
  revert c. induction n as [|n IH]; intros c Hj; [done|].
  cbn [ctr_loop]. rewrite Hj by lia.
  change (ctr_rekey None 0 bs c E) with E.
  destruct (numberToBytesBE c half) as [b|e]; [|done]. cbn [mbind result_bind].
  rewrite IH; [done|]. intros j Hjr. apply Hj. lia.
Qed.

(** Below 2^31 blocks per section the claim holds: a section size that is a
    multiple of the block size and covers the data rounded up to a whole
    block gives [ctr_acpkm] the output of [ctr], exceptions included. *)
Lemma ctr_acpkm_no_rekey (cipherClass : ACPKMConstructor) (E : CipherFunc)
    (N bs : Z) (data iv : bytes) :
  bs = 8 \/ bs = 16 ->
  N mod bs = 0 ->
  ceil_div (len data) bs * bs <= N ->
  N / bs < 2 ^ 31 ->
  ctr_acpkm cipherClass E N bs data iv = ctr E bs data iv None.
Proof.
  intros Hbs Hmod Hcover Hsmall. unfold ctr_acpkm, ctr.
  destruct (negb (len iv =? idiv32 bs 2)); [done|].
  destruct (len data >? _); [done|].
  cbn [sectionSize].
  pose proof (len_nonneg data) as Hl.
  assert (Hc : 0 <= ceil_div (len data) bs)
    by (unfold ceil_div; apply Z.div_pos; block_cases Hbs; lia).
  assert (HN : 0 <= N) by (block_cases Hbs; lia).
  assert (Hq : N = bs * (N / bs))
    by (pose proof (Z.div_mod N bs); block_cases Hbs; lia).
  rewrite idiv32_small by (block_cases Hbs; lia).
  rewrite ctr_loop_no_rekey; [done|].
  intros j Hj. unfold ctr_rekey, rem_eq0.
  destruct (j =? 0) eqn:E0; [done|]. apply Z.eqb_neq in E0. simpl.
  destruct (N / bs =? 0) eqn:E1; [done|]. apply Z.eqb_neq in E1.
  assert (Hjlt : j < N / bs) by (block_cases Hbs; nia).
  rewrite Z.rem_small by lia.
  destruct (j =? 0) eqn:E2; [apply Z.eqb_eq in E2; lia | done].
Qed.

(** ** The store: what [seal], [open] and [nonce_prepare] write *)

Lemma fresh_unallocated (h : heap) : h !! fresh (dom h) = None.
Proof. apply not_elem_of_dom. apply is_fresh. Qed.

Lemma slice_copy_eval (a : loc) (h : heap) (b : bytes) :
  h !! a = Some b ->
  slice_copy a h = (<[fresh (dom h) := b]> h, Ok (fresh (dom h))).
Proof. intros Hb. unfold slice_copy. by rewrite Hb. Qed.

Lemma crypt_eval (this : MGM) (icn : loc) (data : bytes) (h : heap)
    (b : bytes) :
  h !! icn = Some b ->
  crypt this icn data h
  = (<[icn := clear_msb b]> h, crypt_body this (clear_msb b) data).
Proof.
  intros Hb. unfold crypt, update0, read, lift, mbind, M_bind.
  rewrite Hb. by rewrite lookup_insert_eq.
Qed.

Lemma auth_eval (this : MGM) (icn : loc) (text ad : bytes) (h : heap)
    (b : bytes) :
  h !! icn = Some b ->
  auth this icn text ad h
  = (<[icn := set_msb b]> h, auth_body this (set_msb b) text ad).
Proof.
  intros Hb. unfold auth, update0, read, lift, mbind, M_bind.
  rewrite Hb. by rewrite lookup_insert_eq.
Qed.

(** [seal] step by step, on a store that holds the nonce. *)
Lemma seal_eval (this : MGM) (nonce : loc) (p ad : bytes) (h : heap)
    (nb : bytes) :
  h !! nonce = Some nb ->
  validateSizes this p ad = Ok tt ->
  seal this nonce p ad h =
    let icn := fresh (dom h) in
    match crypt_body this (clear_msb nb) p with
    | Err e => (<[icn := clear_msb nb]> h, Err e)
    | Ok ct =>
        let h' := <[icn := set_msb (clear_msb nb)]> h in
        match auth_body this (set_msb (clear_msb nb)) ct ad with
        | Err e => (h', Err e)
        | Ok tag => (h', Ok (ct ++ tag))
        end
    end.
Proof.
  intros Hn Hv. unfold seal, seal_of, slice.
  unfold mbind at 1. unfold M_bind at 1.
  unfold lift at 1. rewrite Hv.
  unfold mbind at 1. unfold M_bind at 1. rewrite (slice_copy_eval _ _ _ Hn).
  unfold mbind at 1. unfold M_bind at 1.
  rewrite (crypt_eval _ _ _ _ nb) by apply lookup_insert_eq.
  rewrite insert_insert_eq.
  destruct (crypt_body this (clear_msb nb) p) as [ct|e]; [|done].
  unfold mbind at 1. unfold M_bind at 1.
  rewrite (auth_eval _ _ _ _ _ (clear_msb nb)) by apply lookup_insert_eq.
  rewrite insert_insert_eq. cbv zeta.
  destruct (auth_body this (set_msb (clear_msb nb)) ct ad) as [tag|e]; [|done].
  unfold mret, M_ret, concatBytes. simpl. by rewrite app_nil_r.
Qed.

(** [open] step by step, on a store that holds the nonce. *)
Lemma open_eval (this : MGM) (nonce : loc) (c ad : bytes) (h : heap)
    (nb : bytes) :
  h !! nonce = Some nb ->
  validateSizes this c ad = Ok tt ->
  open this nonce c ad h =
    let icn := fresh (dom h) in
    let ct := subarray c 0 (len c - tag_size this) in
    let tag_expected := subarray_from c (len c - tag_size this) in
    match auth_body this (set_msb nb) ct ad with
    | Err e => (<[icn := set_msb nb]> h, Err e)
    | Ok tag =>
        if buffer_equals tag_expected tag
        then (<[icn := clear_msb (set_msb nb)]> h,
              crypt_body this (clear_msb (set_msb nb)) ct)
        else (<[icn := set_msb nb]> h, Err InvalidAuthTag)
    end.
Proof.
  intros Hn Hv. unfold open, open_of, slice.
  unfold mbind at 1. unfold M_bind at 1.
  unfold lift at 1. rewrite Hv.
  unfold mbind at 1. unfold M_bind at 1. rewrite (slice_copy_eval _ _ _ Hn).
  unfold mbind at 1. unfold M_bind at 1.
  rewrite (auth_eval _ _ _ _ _ nb) by apply lookup_insert_eq.
  rewrite insert_insert_eq. cbv zeta.
  destruct (auth_body this (set_msb nb) _ ad) as [tag|e]; [|done].
  destruct (buffer_equals _ tag); simpl; [|done].
  rewrite (crypt_eval _ _ _ _ (set_msb nb)) by apply lookup_insert_eq.
  by rewrite insert_insert_eq.
Qed.

Lemma seal_dangling (this : MGM) (nonce : loc) (p ad : bytes) (h : heap) :
  h !! nonce = None -> (seal this nonce p ad h).1 = h.
Proof.
  intros Hn. unfold seal, seal_of, slice, mbind, M_bind, lift, slice_copy.
  destruct (validateSizes this p ad) as [[]|e]; by rewrite ?Hn.
Qed.

Lemma open_dangling (this : MGM) (nonce : loc) (c ad : bytes) (h : heap) :
  h !! nonce = None -> (open this nonce c ad h).1 = h.
Proof.
  intros Hn. unfold open, open_of, slice, mbind, M_bind, lift, slice_copy.
  destruct (validateSizes this c ad) as [[]|e]; by rewrite ?Hn.
Qed.

(** The store after [seal] or [open] is the store before, with at most one
    more buffer, at a fresh address. *)
Lemma seal_store (this : MGM) (nonce : loc) (p ad : bytes) (h : heap) :
  (seal this nonce p ad h).1 = h \/
  exists b, (seal this nonce p ad h).1 = <[fresh (dom h) := b]> h.
Proof.
  destruct (validateSizes this p ad) as [[]|e] eqn:Hv.
  - destruct (h !! nonce) as [nb|] eqn:Hn.
    + right. rewrite (seal_eval _ _ _ _ _ nb Hn Hv). cbv zeta.
      destruct (crypt_body _ _ _); [|by eexists].
      destruct (auth_body _ _ _ _); by eexists.
    + left. by apply seal_dangling.
  - left. unfold seal, seal_of, slice, mbind, M_bind, lift. by rewrite Hv.
Qed.

Lemma open_store (this : MGM) (nonce : loc) (c ad : bytes) (h : heap) :
  (open this nonce c ad h).1 = h \/
  exists b, (open this nonce c ad h).1 = <[fresh (dom h) := b]> h.
Proof.
  destruct (validateSizes this c ad) as [[]|e] eqn:Hv.
  - destruct (h !! nonce) as [nb|] eqn:Hn.
    + right. rewrite (open_eval _ _ _ _ _ nb Hn Hv). cbv zeta.
      destruct (auth_body _ _ _ _); [|by eexists].
      destruct (buffer_equals _ _); by eexists.
    + left. by apply open_dangling.
  - left. unfold open, open_of, slice, mbind, M_bind, lift. by rewrite Hv.
Qed.

Lemma nonce_prepare_eval (nonce : loc) (h : heap) (nb : bytes) :
  h !! nonce = Some nb ->
  nonce_prepare nonce h
  = (<[fresh (dom h) := clear_msb nb]> h, Ok (fresh (dom h))).
Proof.
  intros Hn. unfold nonce_prepare, nonce_prepare_of, slice, mbind, M_bind.
  rewrite (slice_copy_eval _ _ _ Hn). unfold update0.
  rewrite lookup_insert_eq. by rewrite insert_insert_eq.
Qed.

Lemma store_frame (h h' : heap) (l : loc) :
  h' = h \/ (exists b, h' = <[fresh (dom h) := b]> h) ->
  is_Some (h !! l) -> h' !! l = h !! l.
Proof.
  intros [-> | [b ->]] Hl; [done|].
  apply lookup_insert_ne. intros <-.
  rewrite fresh_unallocated in Hl. by destruct Hl.
Qed.

(** Every buffer of the caller is left as it was. *)
Lemma seal_frame (this : MGM) (nonce l : loc) (p ad : bytes) (h : heap) :
  is_Some (h !! l) -> (seal this nonce p ad h).1 !! l = h !! l.
Proof. apply store_frame, seal_store. Qed.

Lemma open_frame (this : MGM) (nonce l : loc) (c ad : bytes) (h : heap) :
  is_Some (h !! l) -> (open this nonce c ad h).1 !! l = h !! l.
Proof. apply store_frame, open_store. Qed.

(** On a plain [Uint8Array] nonce, [seal] and [open] leave the octets of the
    caller's nonce buffer unchanged, whether they return or throw: the top
    bit is cleared and set on a copy at a fresh address.  [nonce_prepare]
    returns such a copy, with the top bit of its first octet cleared, and
    leaves its argument unchanged. *)
Lemma plain_nonce_unchanged (this : MGM) (nonce : loc) (p c ad : bytes)
    (h : heap) :
  (seal this nonce p ad h).1 !! nonce = h !! nonce /\
  (open this nonce c ad h).1 !! nonce = h !! nonce /\
  (nonce_prepare nonce h).1 !! nonce = h !! nonce /\
  (forall nb, h !! nonce = Some nb ->
     exists n, (nonce_prepare nonce h).2 = Ok n /\ n <> nonce /\
               h !! n = None /\
               (nonce_prepare nonce h).1 !! n = Some (clear_msb nb)).
Proof.
  destruct (h !! nonce) as [nb|] eqn:Hn.
  - assert (Hne : fresh (dom h) <> nonce).
    { intros E. pose proof (fresh_unallocated h) as Hf. congruence. }
    rewrite <- Hn. split; [by apply seal_frame; rewrite Hn|].
    split; [by apply open_frame; rewrite Hn|].
    rewrite (nonce_prepare_eval _ _ _ Hn). simpl.
    split; [by apply lookup_insert_ne|].
    intros nb' Hnb'. exists (fresh (dom h)).
    rewrite lookup_insert_eq. rewrite Hn in Hnb'. injection Hnb' as ->.
    by pose proof (fresh_unallocated h).
  - rewrite seal_dangling, open_dangling by done.
    unfold nonce_prepare, nonce_prepare_of, slice, mbind, M_bind, slice_copy.
    rewrite Hn. simpl. by rewrite Hn.
Qed.

(** The writes of [seal] do happen, on the copy: after the size check the
    store holds, at a fresh address, the nonce with its top bit cleared (when
    [crypt] threw) or set (after [auth]). *)
Lemma seal_writes_copy (this : MGM) (nonce : loc) (p ad : bytes) (h : heap)
    (nb : bytes) :
  h !! nonce = Some nb ->
  validateSizes this p ad = Ok tt ->
  exists b,
    (seal this nonce p ad h).1 = <[fresh (dom h) := b]> h /\
    (b = clear_msb nb \/ b = set_msb (clear_msb nb)).
Proof.
  intros Hn Hv. rewrite (seal_eval _ _ _ _ _ nb Hn Hv). cbv zeta.
  destruct (crypt_body _ _ _); [|eauto].
  destruct (auth_body _ _ _ _); eauto.
Qed.

Example nonce_prepare_example :
  let h : heap := {[ 5%nat := [0x91; 2; 3; 4; 5; 6; 7; 8] ]} in
  (nonce_prepare 5%nat h).2 = Ok 6%nat /\
  (nonce_prepare 5%nat h).1 !! 6%nat = Some [0x11; 2; 3; 4; 5; 6; 7; 8] /\
  (nonce_prepare 5%nat h).1 !! 5%nat = Some [0x91; 2; 3; 4; 5; 6; 7; 8].
Proof. by vm_compute. Qed.

(** ** A [Buffer] nonce is written in place

    [Buffer.prototype.slice] returns a view, so on a [Buffer] nonce the
    writes [icn[0] &= 0x7F] of [crypt] and [icn[0] |= 0x80] of [auth] are
    writes to the caller's nonce. *)

(** [seal] step by step for either class of nonce: the buffer written is
    the fresh copy, or the nonce itself. *)
Lemma seal_of_eval (cls : array_class) (this : MGM) (nonce : loc)
    (p ad : bytes) (h : heap) (nb : bytes) :
  h !! nonce = Some nb ->
  validateSizes this p ad = Ok tt ->
  seal_of cls this nonce p ad h =
    let icn := match cls with
               | PlainUint8Array => fresh (dom h)
               | NodeBuffer => nonce
               end in
    match crypt_body this (clear_msb nb) p with
    | Err e => (<[icn := clear_msb nb]> h, Err e)
    | Ok ct =>
        let h' := <[icn := set_msb (clear_msb nb)]> h in
        match auth_body this (set_msb (clear_msb nb)) ct ad with
        | Err e => (h', Err e)
        | Ok tag => (h', Ok (ct ++ tag))
        end
    end.
Proof.
  intros Hn Hv. destruct cls; [by apply seal_eval|].
  unfold seal_of, slice. unfold mbind at 1. unfold M_bind at 1.
  unfold lift at 1. rewrite Hv.
  unfold mbind at 1. unfold M_bind at 1. unfold slice_view. rewrite Hn.
  unfold mbind at 1. unfold M_bind at 1.
  rewrite (crypt_eval _ _ _ _ nb) by done.
  destruct (crypt_body this (clear_msb nb) p) as [ct|e]; [|done].
  unfold mbind at 1. unfold M_bind at 1.
  rewrite (auth_eval _ _ _ _ _ (clear_msb nb)) by apply lookup_insert_eq.
  rewrite insert_insert_eq. cbv zeta.
  destruct (auth_body this (set_msb (clear_msb nb)) ct ad) as [tag|e]; [|done].
  unfold mret, M_ret, concatBytes. simpl. by rewrite app_nil_r.
Qed.

Lemma open_of_eval (cls : array_class) (this : MGM) (nonce : loc)
    (c ad : bytes) (h : heap) (nb : bytes) :
  h !! nonce = Some nb ->
  validateSizes this c ad = Ok tt ->
  open_of cls this nonce c ad h =
    let icn := match cls with
               | PlainUint8Array => fresh (dom h)
               | NodeBuffer => nonce
               end in
    let ct := subarray c 0 (len c - tag_size this) in
    let tag_expected := subarray_from c (len c - tag_size this) in
    match auth_body this (set_msb nb) ct ad with
    | Err e => (<[icn := set_msb nb]> h, Err e)
    | Ok tag =>
        if buffer_equals tag_expected tag
        then (<[icn := clear_msb (set_msb nb)]> h,
              crypt_body this (clear_msb (set_msb nb)) ct)
        else (<[icn := set_msb nb]> h, Err InvalidAuthTag)
    end.
Proof.
  intros Hn Hv. destruct cls; [by apply open_eval|].
  unfold open_of, slice. unfold mbind at 1. unfold M_bind at 1.
  unfold lift at 1. rewrite Hv.
  unfold mbind at 1. unfold M_bind at 1. unfold slice_view. rewrite Hn.
  unfold mbind at 1. unfold M_bind at 1.
  rewrite (auth_eval _ _ _ _ _ nb) by done. cbv zeta.
  destruct (auth_body this (set_msb nb) _ ad) as [tag|e]; [|done].
  destruct (buffer_equals _ tag); simpl; [|done].
  rewrite (crypt_eval _ _ _ _ (set_msb nb)) by apply lookup_insert_eq.
  by rewrite insert_insert_eq.
Qed.

Lemma nonce_prepare_of_buffer (nonce : loc) (h : heap) (nb : bytes) :
  h !! nonce = Some nb ->
  nonce_prepare_of NodeBuffer nonce h = (<[nonce := clear_msb nb]> h, Ok nonce).
Proof.
  intros Hn. unfold nonce_prepare_of, slice, mbind, M_bind, slice_view.
  rewrite Hn. unfold update0. by rewrite Hn.
Qed.

(** What [seal] and [open] return does not depend on the class of the
    nonce: only the store does. *)
Lemma seal_of_result (cls : array_class) (this : MGM) (nonce : loc)
    (p ad : bytes) (h : heap) :
  (seal_of cls this nonce p ad h).2 = (seal this nonce p ad h).2.
Proof.
  destruct (validateSizes this p ad) as [[]|e] eqn:Hv.
  2:{ unfold seal, seal_of, mbind, M_bind, lift. by rewrite Hv. }
  destruct (h !! nonce) as [nb|] eqn:Hn.
  - unfold seal. rewrite !(seal_of_eval _ _ _ _ _ _ nb Hn Hv). cbv zeta.
    destruct (crypt_body _ _ _); [|done]. by destruct (auth_body _ _ _ _).
  - unfold seal, seal_of, slice, mbind, M_bind, lift, slice_copy, slice_view.
    rewrite Hv, Hn. by destruct cls; rewrite Hn.
Qed.

Lemma open_of_result (cls : array_class) (this : MGM) (nonce : loc)
    (c ad : bytes) (h : heap) :
  (open_of cls this nonce c ad h).2 = (open this nonce c ad h).2.
Proof.
  destruct (validateSizes this c ad) as [[]|e] eqn:Hv.
  2:{ unfold open, open_of, mbind, M_bind, lift. by rewrite Hv. }
  destruct (h !! nonce) as [nb|] eqn:Hn.
  - unfold open. rewrite !(open_of_eval _ _ _ _ _ _ nb Hn Hv). cbv zeta.
    destruct (auth_body _ _ _ _); [|done]. by destruct (buffer_equals _ _).
  - unfold open, open_of, slice, mbind, M_bind, lift, slice_copy, slice_view.
    rewrite Hv, Hn. by destruct cls; rewrite Hn.
Qed.

(** The top bit of the first octet after clearing and after setting it. *)
Lemma clear_msb_top (b : bytes) : Z.land (get0 (clear_msb b) 0) 0x80 = 0.
Proof.
  destruct b as [|x b]; [done|]. unfold clear_msb, get0. simpl.
  rewrite <- Z.land_assoc. change (Z.land 127 128) with 0. apply Z.land_0_r.
Qed.

Lemma set_msb_top (b : bytes) :
  b <> [] -> Z.land (get0 (set_msb b) 0) 0x80 <> 0.
Proof.
  destruct b as [|x b]; [done|]. intros _. unfold set_msb, get0. simpl.
  intros E.
  assert (Hb : Z.testbit (Z.land (Z.lor x 128) 128) 7 = false)
    by (by rewrite E).
  rewrite Z.land_spec, Z.lor_spec in Hb. by rewrite orb_true_r in Hb.
Qed.

Lemma clear_msb_nonempty (b : bytes) : b <> [] -> clear_msb b <> [].
Proof. by destruct b. Qed.

(** C10, where the code departs from the claim.  The copy that the claim
    relies on is [nonce.slice()].  On a plain [Uint8Array] nonce it is a
    copy, and the nonce is left as it was.  On a [Buffer] nonce it is a view
    of the nonce itself: after [seal] returns, the caller's nonce holds its
    first octet with the top bit set; after [open] returns, with the top bit
    cleared; [nonce_prepare] clears the top bit of its argument in place and
    returns that same buffer, not a copy.  So a non-empty [Buffer] nonce
    whose top bit is clear is changed by every [seal] that returns, and one
    whose top bit is set by every [open] that returns and by
    [nonce_prepare]. *)
Theorem buffer_nonce_written (this : MGM) (nonce : loc) (p c ad : bytes)
    (h : heap) (nb : bytes) :
  h !! nonce = Some nb -> nb <> [] ->
  ((seal_of PlainUint8Array this nonce p ad h).1 !! nonce = Some nb /\
   (open_of PlainUint8Array this nonce c ad h).1 !! nonce = Some nb /\
   (nonce_prepare_of PlainUint8Array nonce h).1 !! nonce = Some nb) /\
  (forall r, (seal_of NodeBuffer this nonce p ad h).2 = Ok r ->
     (seal_of NodeBuffer this nonce p ad h).1 !! nonce
       = Some (set_msb (clear_msb nb)) /\
     (Z.land (get0 nb 0) 0x80 = 0 ->
      (seal_of NodeBuffer this nonce p ad h).1 !! nonce <> Some nb)) /\
  (forall r, (open_of NodeBuffer this nonce c ad h).2 = Ok r ->
     (open_of NodeBuffer this nonce c ad h).1 !! nonce
       = Some (clear_msb (set_msb nb)) /\
     (Z.land (get0 nb 0) 0x80 <> 0 ->
      (open_of NodeBuffer this nonce c ad h).1 !! nonce <> Some nb)) /\
  (nonce_prepare_of NodeBuffer nonce h
     = (<[nonce := clear_msb nb]> h, Ok nonce) /\
   (Z.land (get0 nb 0) 0x80 <> 0 ->
    (nonce_prepare_of NodeBuffer nonce h).1 !! nonce <> Some nb)).
Proof.
  intros Hn Hne.
  destruct (plain_nonce_unchanged this nonce p c ad h)
    as (Hseal & Hopen & Hprep & _).
  rewrite Hn in Hseal, Hopen, Hprep.
  split; [done|]. split; [|split].
  - intros r. destruct (validateSizes this p ad) as [[]|e] eqn:Hv.
    2:{ unfold seal_of, mbind, M_bind, lift. by rewrite Hv. }
    rewrite (seal_of_eval _ _ _ _ _ _ nb Hn Hv). cbv zeta.
    destruct (crypt_body _ _ _); [|done].
    destruct (auth_body _ _ _ _); [|done]. intros _. cbn [fst].
    rewrite lookup_insert_eq. split; [done|]. intros Hlow [= E].
    apply (set_msb_top (clear_msb nb)); [by apply clear_msb_nonempty|].
    by rewrite E.
  - intros r. destruct (validateSizes this c ad) as [[]|e] eqn:Hv.
    2:{ unfold open_of, mbind, M_bind, lift. by rewrite Hv. }
    rewrite (open_of_eval _ _ _ _ _ _ nb Hn Hv). cbv zeta.
    destruct (auth_body _ _ _ _); [|done].
    destruct (buffer_equals _ _); [|done]. intros _. cbn [fst].
    rewrite lookup_insert_eq. split; [done|]. intros Hhigh [= E].
    apply Hhigh. rewrite <- E. apply clear_msb_top.
  - rewrite (nonce_prepare_of_buffer _ _ _ Hn). split; [done|].
    cbn [fst]. rewrite lookup_insert_eq. intros Hhigh [= E].
    apply Hhigh. rewrite <- E. apply clear_msb_top.
Qed.

Lemma buffer_nonce_written_witness :
  let this := identity_mgm 8 in
  let low := [0x01; 2; 3; 4; 5; 6; 7; 8] in
  let high := [0x81; 2; 3; 4; 5; 6; 7; 8] in
  let c := [0; 0; 0; 25; 66; 151; 58; 174; 44; 170; 237] in
  let h_low : heap := {[ 5%nat := low ]} in
  let h_high : heap := {[ 5%nat := high ]} in
  ((seal_of NodeBuffer this 5%nat [1; 2; 3] [9] h_low).2 = Ok c /\
   (seal_of NodeBuffer this 5%nat [1; 2; 3] [9] h_low).1 !! 5%nat
   = Some high /\
   (seal_of NodeBuffer this 5%nat [1; 2; 3] [9] h_low).1 !! 5%nat
   <> Some low) /\
  ((open_of NodeBuffer this 5%nat c [9] h_high).2 = Ok [1; 2; 3] /\
   (open_of NodeBuffer this 5%nat c [9] h_high).1 !! 5%nat = Some low /\
   (open_of NodeBuffer this 5%nat c [9] h_high).1 !! 5%nat <> Some high) /\
  ((nonce_prepare_of NodeBuffer 5%nat h_high).2 = Ok 5%nat /\
   (nonce_prepare_of NodeBuffer 5%nat h_high).1 !! 5%nat = Some low) /\
  (seal_of PlainUint8Array this 5%nat [1; 2; 3] [9] h_low).1 !! 5%nat
  = Some low.
Proof.
  intros this low high c h_low h_high.
  assert (Hseal : (seal_of NodeBuffer this 5%nat [1; 2; 3] [9] h_low).2 = Ok c)
    by (vm_compute; reflexivity).
  assert (Hopen : (open_of NodeBuffer this 5%nat c [9] h_high).2
                  = Ok [1; 2; 3])
    by (vm_compute; reflexivity).
  destruct (buffer_nonce_written this 5%nat [1; 2; 3] c [9] h_low low)
    as ((Hplain & _) & Hs & _); [reflexivity | discriminate |].
  destruct (buffer_nonce_written this 5%nat [1; 2; 3] c [9] h_high high)
    as (_ & _ & Ho & Hp & _); [reflexivity | discriminate |].
  destruct (Hs c Hseal) as [Hs1 Hs2].
  destruct (Ho [1; 2; 3] Hopen) as [Ho1 Ho2].
  split; [split; [exact Hseal | split; [exact Hs1 | apply Hs2; reflexivity]]|].
  split; [split; [exact Hopen | split; [exact Ho1 | apply Ho2; discriminate]]|].
  split; [|exact Hplain].
  rewrite Hp. split; [reflexivity|]. cbn [fst]. apply lookup_insert_eq.
Defined.

(** C4.  When the tag recomputed by [open] differs from the received one,
    [open] throws the authentication-failure error and returns no plaintext:
    the store it leaves is the one [auth] left, so [crypt] has not run.
    Plaintext is returned only when the received tag equals the recomputed
    one, and is then the result of [crypt] on the ciphertext body. *)
Theorem open_rejects_tag_mismatch (this : MGM) (nonce : loc) (c ad : bytes)
    (h : heap) :
  let ct := subarray c 0 (len c - tag_size this) in
  let tag_expected := subarray_from c (len c - tag_size this) in
  (forall h1 icn h2 tag,
     validateSizes this c ad = Ok tt ->
     slice_copy nonce h = (h1, Ok icn) ->
     auth this icn ct ad h1 = (h2, Ok tag) ->
     tag <> tag_expected ->
     open this nonce c ad h = (h2, Err InvalidAuthTag)) /\
  (forall h' pt,
     open this nonce c ad h = (h', Ok pt) ->
     exists h1 icn h2,
       slice_copy nonce h = (h1, Ok icn) /\
       auth this icn ct ad h1 = (h2, Ok tag_expected) /\
       crypt this icn ct h2 = (h', Ok pt)).
Proof.
  intros ct tag_expected. split.
  - intros h1 icn h2 tag Hv Hs Ha Hne.
    unfold open, open_of, slice, mbind, M_bind, lift. rewrite Hv, Hs.
    fold ct. rewrite Ha. fold tag_expected. unfold buffer_equals.
    rewrite bool_decide_eq_false_2 by congruence. done.
  - intros h' pt. unfold open, open_of, slice, mbind, M_bind, lift.
    destruct (validateSizes this c ad) as [[]|e]; [|done].
    destruct (slice_copy nonce h) as [h1 [icn|e]] eqn:Hs; [|done].
    fold ct tag_expected.
    destruct (auth this icn ct ad h1) as [h2 [tag|e]] eqn:Ha; [|done].
    unfold buffer_equals. case_bool_decide as Heq; simpl; [|done].
    intros Hc. exists h1, icn, h2. by subst tag.
Qed.

Lemma open_rejects_tag_mismatch_witness :
  let this := identity_mgm 8 in
  let nb := [1; 2; 3; 4; 5; 6; 7; 8] in
  let h : heap := {[ 5%nat := nb ]} in
  let tag := [25; 66; 151; 58; 174; 44; 170; 237] in
  let forged := [0; 0; 0; 25; 66; 151; 58; 174; 44; 170; 238] in
  let sealed := [0; 0; 0] ++ tag in
  open this 5%nat forged [9] h
  = (<[6%nat := set_msb nb]> h, Err InvalidAuthTag) /\
  (exists h1 icn h2,
     slice_copy 5%nat h = (h1, Ok icn) /\
     auth this icn [0; 0; 0] [9] h1 = (h2, Ok tag) /\
     crypt this icn [0; 0; 0] h2
     = (<[6%nat := clear_msb nb]> h, Ok [1; 2; 3])).
Proof.
  intros this nb h tag forged sealed. split.
  - apply (proj1 (open_rejects_tag_mismatch this 5%nat forged [9] h)
             (<[6%nat := nb]> h) 6%nat (<[6%nat := set_msb nb]> h) tag).
    + reflexivity.
    + vm_compute. reflexivity.
    + vm_compute. reflexivity.
    + discriminate.
  - apply (proj2 (open_rejects_tag_mismatch this 5%nat sealed [9] h)
             (<[6%nat := clear_msb nb]> h) [1; 2; 3]).
    vm_compute. reflexivity.
Defined.

(** ** Octet-wise exclusive or *)

Lemma length_xor (a b : bytes) :
  length (xor a b) = Nat.min (length a) (length b).
Proof.
  revert b. induction a as [|x a IH]; intros [|y b]; simpl; [done..|].
  by rewrite IH.
Qed.

Lemma xor_ok (a b : bytes) : bytes_ok a -> bytes_ok b -> bytes_ok (xor a b).
Proof.
  intros Ha. revert b. induction Ha as [|x a Hx Ha IH]; intros b Hb.
  - constructor.
  - destruct Hb as [|y b Hy Hb]; [constructor|]. simpl.
    constructor; [|by apply IH].
    unfold byte_ok in *. change 256 with (2 ^ 8).
    apply lxor_upper_bound; done.
Qed.

(** Decrypting a keystream block: the key block [k] applied twice to the
    head of a buffer gives back the first [length k] octets. *)
Lemma xor_cancel (k p cr : bytes) :
  ((length p < length k)%nat -> cr = []) ->
  xor k (xor k p ++ cr) = take (length k) p.
Proof.
  revert p. induction k as [|a k IH]; intros p Hcr; [done|].
  destruct p as [|x p].
  - rewrite Hcr by (simpl; lia). done.
  - simpl. f_equal.
    + by rewrite <- Z.lxor_assoc, Z.lxor_nilpotent, Z.lxor_0_l.
    + apply IH. intros Hlt. apply Hcr. simpl. lia.
Qed.

Lemma subarray_from_drop (a : bytes) (b : Z) :
  0 <= b -> subarray_from a b = drop (Z.to_nat b) a.
Proof.
  intros Hb. destruct (Z.le_gt_cases b (len a)) as [Hle|Hgt].
  - by apply subarray_from_suffix.
  - unfold subarray_from, subarray, rel_index. pose proof (len_nonneg a).
    destruct (b <? 0) eqn:E; [lia|].
    destruct (len a <? 0) eqn:E'; [lia|].
    rewrite Z.min_id, Z.min_r by lia. rewrite Z.sub_diag.
    change (Z.to_nat 0) with 0%nat. rewrite take_0.
    by rewrite drop_ge by (unfold len in *; lia).
Qed.

Lemma subarray_take (a : bytes) (e : Z) :
  0 <= e -> subarray a 0 e = take (Z.to_nat e) a.
Proof.
  intros He. destruct (Z.le_gt_cases e (len a)) as [Hle|Hgt].
  - by apply subarray_prefix.
  - unfold subarray, rel_index. pose proof (len_nonneg a).
    replace (0 <? 0) with false by done.
    destruct (e <? 0) eqn:E; [lia|].
    rewrite Z.min_r, Z.min_l by lia. rewrite Z.sub_0_r.
    change (Z.to_nat 0) with 0%nat. rewrite drop_0.
    by rewrite !take_ge by (unfold len in *; lia).
Qed.

(** ** Well-formed blocks *)

Lemma _incr_wf (data r : bytes) (bs : Z) :
  bs = 8 \/ bs = 16 -> bytes_ok data -> len data = bs / 2 ->
  _incr data bs = Ok r -> wf_block (bs / 2) r.
Proof.
  intros Hbs Hok Hlen. rewrite _incr_spec by done.
  destruct (_ <? _); [|done]. intros [= <-]. split; [apply be_bytes_ok|].
  unfold len. rewrite length_be_bytes. block_cases Hbs; lia.
Qed.

Lemma incr_r_wf (data r : bytes) (bs : Z) :
  bs = 8 \/ bs = 16 -> wf_block bs data ->
  incr_r data bs = Ok r -> wf_block bs r.
Proof.
  intros Hbs [Hok Hlen]. unfold incr_r. rewrite half_block by done.
  assert (Hh : 0 <= bs / 2 <= len data) by (rewrite Hlen; block_cases Hbs; lia).
  rewrite subarray_from_suffix, subarray_prefix by done.
  destruct (_incr _ bs) as [x|e] eqn:Hi; [|done]. simpl. intros [= <-].
  apply _incr_wf in Hi as [Hxok Hxlen]; [|done|by apply Forall_drop|].
  - rewrite app_nil_r.
    split; [apply Forall_app; split; [by apply Forall_take|done]|].
    rewrite len_app, Hxlen. unfold len in *. rewrite length_take.
    block_cases Hbs; lia.
  - unfold len in *. rewrite length_drop. block_cases Hbs; lia.
Qed.

Lemma incr_l_wf (data r : bytes) (bs : Z) :
  bs = 8 \/ bs = 16 -> wf_block bs data ->
  incr_l data bs = Ok r -> wf_block bs r.
Proof.
  intros Hbs [Hok Hlen]. unfold incr_l. rewrite half_block by done.
  assert (Hh : 0 <= bs / 2 <= len data) by (rewrite Hlen; block_cases Hbs; lia).
  rewrite subarray_from_suffix, subarray_prefix by done.
  destruct (_incr _ bs) as [x|e] eqn:Hi; [|done]. simpl. intros [= <-].
  apply _incr_wf in Hi as [Hxok Hxlen]; [|done|by apply Forall_take|].
  - rewrite app_nil_r.
    split; [apply Forall_app; split; [done|by apply Forall_drop]|].
    rewrite len_app, Hxlen. unfold len in *. rewrite length_drop.
    block_cases Hbs; lia.
  - unfold len in *. rewrite length_take. block_cases Hbs; lia.
Qed.

(** ** The keystream of [crypt] *)

Section Crypt.

Variable this : MGM.
Hypothesis Hbs : blockSize this = 8 \/ blockSize this = 16.
Hypothesis HE : block_fn (encrypter this) (blockSize this).

Lemma crypt_loop_step (f : nat) (enc : bytes) (x : Z) (p : bytes) :
  crypt_loop this (S f) enc (x :: p) =
    (enc' ← incr_r enc (blockSize this);
     res ← crypt_loop this f enc' (subarray_from (x :: p) (blockSize this));
     Ok (xor (encrypter this enc) (x :: p) :: res)).
Proof. reflexivity. Qed.

(** Running the loop of [crypt] on its own output gives back the input, and
    the output is as long as the input. *)
Lemma crypt_loop_roundtrip (f : nat) (enc p : bytes) (blocks : list bytes) :
  wf_block (blockSize this) enc ->
  crypt_loop this f enc p = Ok blocks ->
  length (concat blocks) = length p /\
  exists blocks',
    crypt_loop this f enc (concat blocks) = Ok blocks' /\
    concat blocks' = p.
Proof.
  revert enc p blocks. induction f as [|f IH]; intros enc p blocks Henc.
  - destruct p as [|x p]; [|done]. intros [= <-]. split; [done|]. by exists [].
  - destruct p as [|x p].
    { intros [= <-]. split; [done|]. by exists []. }
    rewrite crypt_loop_step.
    destruct (incr_r enc (blockSize this)) as [enc'|e] eqn:Hi; [|done].
    cbn [mbind result_bind].
    destruct (crypt_loop this f enc' _) as [rest|e] eqn:Hrest; [|done].
    cbn [mbind result_bind]. intros [= <-].
    pose proof (incr_r_wf _ _ _ Hbs Henc Hi) as Henc'.
    destruct (IH _ _ _ Henc' Hrest) as (Hlen & blocks' & Hrun & Hcat).
    set (n := Z.to_nat (blockSize this)).
    assert (Hn : (0 < n)%nat) by (unfold n; block_cases Hbs; lia).
    assert (Hk : length (encrypter this enc) = n).
    { destruct (HE enc Henc) as [_ Hl]. unfold len in Hl. unfold n. lia. }
    rewrite subarray_from_drop in Hlen, Hcat by (block_cases Hbs; lia).
    fold n in Hlen, Hcat. rewrite length_drop in Hlen.
    set (k := encrypter this enc) in *.
    assert (Hxl : length (xor k (x :: p)) = Nat.min n (length (x :: p)))
      by (by rewrite length_xor, Hk).
    assert (Hdrop : drop n (xor k (x :: p) ++ concat rest) = concat rest).
    { rewrite drop_app. rewrite drop_ge by lia. simpl.
      destruct (decide (n <= length (x :: p))%nat) as [Hle|Hgt].
      - replace (n - length (xor k (x :: p)))%nat with 0%nat by lia. done.
      - rewrite (nil_length_inv (concat rest)) by lia. by rewrite drop_nil. }
    cbn [concat]. split.
    { rewrite length_app. lia. }
    assert (Hne : exists y ys, xor k (x :: p) ++ concat rest = y :: ys).
    { destruct k as [|k0 k]; [simpl in Hk; lia|]. simpl. eauto. }
    destruct Hne as (y & ys & Hy). rewrite Hy.
    rewrite crypt_loop_step, Hi. cbn [mbind result_bind].
    rewrite subarray_from_drop by (block_cases Hbs; lia). fold n.
    rewrite <- Hy, Hdrop, Hrun. cbn [mbind result_bind].
    eexists. split; [done|]. cbn [concat].
    rewrite xor_cancel, Hk, Hcat.
    + apply take_drop.
    + intros Hlt. apply nil_length_inv. lia.
Qed.

Lemma crypt_body_roundtrip (icn p ct : bytes) :
  wf_block (blockSize this) icn ->
  crypt_body this icn p = Ok ct ->
  length ct = length p /\ crypt_body this icn ct = Ok p.
Proof.
  intros Hicn. unfold crypt_body.
  destruct (crypt_loop this (length p) _ p) as [blocks|e] eqn:Hrun; [|done].
  cbn [mbind result_bind]. intros [= <-].
  destruct (crypt_loop_roundtrip _ _ _ _ (HE icn Hicn) Hrun)
    as (Hlen & blocks' & Hrun' & Hcat).
  unfold concatBytes. split; [done|].
  rewrite Hlen, Hrun'. cbn [mbind result_bind]. by rewrite Hcat.
Qed.

Lemma crypt_loop_ok (f : nat) (enc p : bytes) (blocks : list bytes) :
  wf_block (blockSize this) enc -> bytes_ok p ->
  crypt_loop this f enc p = Ok blocks -> bytes_ok (concat blocks).
Proof.
  revert enc p blocks. induction f as [|f IH]; intros enc p blocks Henc Hp.
  - destruct p as [|x p]; [|done]. intros [= <-]. constructor.
  - destruct p as [|x p].
    { intros [= <-]. constructor. }
    rewrite crypt_loop_step.
    destruct (incr_r enc (blockSize this)) as [enc'|e] eqn:Hi; [|done].
    cbn [mbind result_bind].
    destruct (crypt_loop this f enc' _) as [rest|e] eqn:Hrest; [|done].
    cbn [mbind result_bind]. intros [= <-]. cbn [concat].
    apply Forall_app. split.
    + apply xor_ok; [apply HE, Henc | done].
    + apply (IH _ _ _ (incr_r_wf _ _ _ Hbs Henc Hi)) in Hrest; [done|].
      rewrite subarray_from_drop by (block_cases Hbs; lia).
      by apply Forall_drop.
Qed.

Lemma crypt_body_ok (icn p ct : bytes) :
  wf_block (blockSize this) icn -> bytes_ok p ->
  crypt_body this icn p = Ok ct -> bytes_ok ct.
Proof.
  intros Hicn Hp. unfold crypt_body.
  destruct (crypt_loop this (length p) _ p) as [blocks|e] eqn:Hrun; [|done].
  cbn [mbind result_bind]. intros [= <-].
  by apply (crypt_loop_ok _ _ _ _ (HE icn Hicn) Hp Hrun).
Qed.

End Crypt.

(** ** The field multiplier stays within the block *)

Lemma bits_bound (z n : Z) :
  0 <= z -> 0 <= n -> (forall i, n <= i -> Z.testbit z i = false) -> z < 2 ^ n.
Proof.
  intros Hz Hn Hbits.
  destruct (Z.eq_dec z 0) as [->|Hne]; [apply Z.pow_pos_nonneg; lia|].
  apply Z.log2_lt_pow2; [lia|].
  destruct (Z.lt_ge_cases (Z.log2 z) n) as [|Hge]; [done|].
  specialize (Hbits (Z.log2 z) Hge).
  rewrite (Z.bit_log2 z) in Hbits by lia. done.
Qed.

Lemma bound_bits (z n i : Z) :
  0 <= z < 2 ^ n -> n <= i -> Z.testbit z i = false.
Proof.
  intros Hz Hi.
  destruct (Z.eq_dec z 0) as [->|Hne]; [apply Z.bits_0|].
  apply Z.bits_above_log2; [lia|].
  destruct (Z.lt_ge_cases n 0) as [Hneg|Hnn].
  - rewrite Z.pow_neg_r in Hz by done. lia.
  - assert (Z.log2 z < n) by (apply Z.log2_lt_pow2; lia). lia.
Qed.

(** One shift of the multiplicand [x] in [mul], reduced by [r]. *)
Lemma mul_shift_bound (r n x : Z) :
  0 < n -> 0 <= r < 2 ^ n -> 0 <= x < 2 ^ n ->
  0 <= (if Z.land x (2 ^ (n - 1)) >? 0
        then Z.lxor (Z.shiftl (Z.lxor x (2 ^ (n - 1))) 1) r
        else Z.shiftl x 1) < 2 ^ n.
Proof.
  intros Hn Hr Hx.
  assert (Hpow : 2 ^ n = 2 * 2 ^ (n - 1)).
  { replace n with (1 + (n - 1)) at 1 by lia. by rewrite Z.pow_add_r by lia. }
  assert (Hm : 0 < 2 ^ (n - 1)) by (apply Z.pow_pos_nonneg; lia).
  assert (Hland : Z.land x (2 ^ (n - 1)) = 0 ->
                  Z.testbit x (n - 1) = false).
  { intros E. 
    assert (Hb : Z.testbit (Z.land x (2 ^ (n - 1))) (n - 1) = false)
      by (rewrite E; apply Z.bits_0).
    rewrite Z.land_spec, Z.pow2_bits_true in Hb by lia.
    by rewrite andb_true_r in Hb. }
  destruct (Z.land x (2 ^ (n - 1)) >? 0) eqn:E.
  - assert (Htop : Z.testbit x (n - 1) = true).
    { destruct (Z.testbit x (n - 1)) eqn:Hb; [done|].
      assert (Z.land x (2 ^ (n - 1)) = 0); [|lia].
      apply Z.bits_inj'. intros i Hi. rewrite Z.land_spec, Z.bits_0.
      destruct (Z.eq_dec i (n - 1)) as [->|Hne].
      - by rewrite Hb.
      - rewrite Z.pow2_bits_false by lia. apply andb_false_r. }
    assert (Hy : 0 <= Z.lxor x (2 ^ (n - 1)) < 2 ^ (n - 1)).
    { assert (Hnn : 0 <= Z.lxor x (2 ^ (n - 1))) by (apply Z.lxor_nonneg; lia).
      split; [done|]. apply bits_bound; [done | lia |].
      intros i Hi. rewrite Z.lxor_spec.
      destruct (Z.eq_dec i (n - 1)) as [->|Hne].
      - by rewrite Htop, Z.pow2_bits_true by lia.
      - rewrite (bound_bits x n) by lia.
        by rewrite Z.pow2_bits_false by lia. }
    apply lxor_upper_bound; [lia | | done].
    rewrite Z.shiftl_mul_pow2 by lia. change (2 ^ 1) with 2. lia.
  - assert (Hz : Z.land x (2 ^ (n - 1)) = 0).
    { assert (0 <= Z.land x (2 ^ (n - 1))) by (apply Z.land_nonneg; lia).
      rewrite Z.gtb_ltb in E. apply Z.ltb_ge in E. lia. }
    assert (Hlow : x < 2 ^ (n - 1)).
    { apply bits_bound; [lia | lia |]. intros i Hi.
      destruct (Z.eq_dec i (n - 1)) as [->|Hne]; [by apply Hland|].
      apply (bound_bits x n); lia. }
    rewrite Z.shiftl_mul_pow2 by lia. change (2 ^ 1) with 2. lia.
Qed.

Lemma mul_loop_bound (r n : Z) (y : positive) (x z : Z) :
  0 < n -> 0 <= r < 2 ^ n -> 0 <= x < 2 ^ n -> 0 <= z < 2 ^ n ->
  0 <= mul_loop r (2 ^ (n - 1)) y x z < 2 ^ n.
Proof.
  intros Hn Hr. revert x z.
  induction y as [y IH|y IH|]; intros x z Hx Hz; cbn [mul_loop].
  - apply IH; [by apply mul_shift_bound | by apply lxor_upper_bound; [lia|..]].
  - apply IH; [by apply mul_shift_bound | done].
  - by apply lxor_upper_bound; [lia|..].
Qed.

Lemma asciiToBase16_range (c d : Z) :
  asciiToBase16 c = Some d -> 0 <= d < 16.
Proof.
  unfold asciiToBase16.
  destruct ((48 <=? c) && (c <=? 57)) eqn:E1.
  { apply andb_true_iff in E1 as [H1 H2].
    apply Z.leb_le in H1, H2. intros [= <-]. lia. }
  destruct ((65 <=? c) && (c <=? 70)) eqn:E2.
  { apply andb_true_iff in E2 as [H1 H2].
    apply Z.leb_le in H1, H2. intros [= <-]. lia. }
  destruct ((97 <=? c) && (c <=? 102)) eqn:E3; [|done].
  apply andb_true_iff in E3 as [H1 H2].
  apply Z.leb_le in H1, H2. intros [= <-]. lia.
Qed.

(** Whatever [hexToBytes] returns is a sequence of octets. *)
Lemma hexToBytes_loop_ok (n : nat) (hex : list Z) (b : bytes) :
  (length hex <= n)%nat -> hexToBytes_loop hex = Ok b -> bytes_ok b.
Proof.
  revert hex b. induction n as [|n IH]; intros hex b Hn.
  - destruct hex; [|simpl in Hn; lia]. intros [= <-]. constructor.
  - destruct hex as [|c1 [|c2 rest]]; try (intros [= <-]; constructor).
    cbn [hexToBytes_loop].
    destruct (asciiToBase16 c1) as [n1|] eqn:E1; [|done].
    destruct (asciiToBase16 c2) as [n2|] eqn:E2; [|done].
    destruct (hexToBytes_loop rest) as [r|e] eqn:Hr; [|done].
    cbn [mbind result_bind]. intros [= <-].
    apply asciiToBase16_range in E1, E2.
    constructor; [unfold byte_ok; lia|].
    apply (IH rest); [simpl in Hn; lia | done].
Qed.

Lemma numberToBytesBE_ok (n L : Z) (b : bytes) :
  numberToBytesBE n L = Ok b -> bytes_ok b.
Proof.
  unfold numberToBytesBE, hexToBytes. destruct (Z.odd _); [done|].
  by apply hexToBytes_loop_ok
    with (n := length (padStart (toString16 n) (L * 2))).
Qed.

Lemma constructor_valid (E : CipherFunc) (bs : Z) (ts : option Z) (this : MGM) :
  constructor E bs ts = Ok this ->
  valid_instance this /\ encrypter this = E /\ blockSize this = bs /\
  tag_size this = default bs ts.
Proof.
  unfold constructor.
  destruct (negb (bs =? 8) && negb (bs =? 16)) eqn:E1; [done|].
  destruct ((default bs ts <? 4) || (default bs ts >? bs)) eqn:E2; [done|].
  intros [= <-]. cbn.
  apply orb_false_iff in E2 as [E2 E3].
  apply Z.ltb_ge in E2. rewrite Z.gtb_ltb in E3. apply Z.ltb_ge in E3.
  assert (Hbs : bs = 8 \/ bs = 16).
  { destruct (bs =? 8) eqn:E8; [apply Z.eqb_eq in E8; by left|].
    destruct (bs =? 16) eqn:E16; [apply Z.eqb_eq in E16; by right|done]. }
  repeat split; try done.
  rewrite Z.shiftl_1_l. done.
Qed.

Section Auth.

Variable this : MGM.
Hypothesis Hvalid : valid_instance this.
Hypothesis HE : block_fn (encrypter this) (blockSize this).

Lemma mul_wf (a b : bytes) :
  wf_block (blockSize this) a -> bytes_ok b ->
  exists m, mul this a b = Ok m /\ wf_block (blockSize this) m.
Proof.
  intros [Ha Hla] Hb. unfold mul.
  rewrite !bytesToNumberBE_ok by done. cbn [mbind result_bind].
  pose proof Hvalid as (Hbs & _ & _ & Hr).
  set (n := blockSize this * 8).
  assert (Hn : 0 < n) by (unfold n; block_cases Hbs; lia).
  assert (Hrb : 0 <= r this < 2 ^ n).
  { assert (2 ^ 8 <= 2 ^ n)
      by (apply Z.pow_le_mono_r; unfold n; block_cases Hbs; lia).
    rewrite Hr. change (2 ^ 8) with 256 in *. destruct (_ =? 8); lia. }
  assert (Hx : 0 <= be_value a < 2 ^ n).
  { pose proof (be_value_bound a Ha) as Hv. rewrite Hla in Hv.
    by replace (8 * blockSize this) with n in Hv by (unfold n; lia). }
  rewrite Z.shiftl_1_l. fold n.
  set (z := match be_value b with
            | Z.pos p => mul_loop (r this) (2 ^ (n - 1)) p (be_value a) 0
            | _ => 0
            end).
  assert (Hz : 0 <= z < 2 ^ n).
  { unfold z. destruct (be_value b); [lia | | lia].
    apply mul_loop_bound; try done. lia. }
  rewrite numberToBytesBE_fits.
  - eexists. split; [done|]. split; [apply be_bytes_ok|].
    unfold len. rewrite length_be_bytes. block_cases Hbs; lia.
  - block_cases Hbs; lia.
  - by replace (8 * blockSize this) with n by (unfold n; lia).
Qed.

Lemma pad1_ok (data : bytes) (bs : Z) :
  0 < bs -> bytes_ok data -> bytes_ok (pad1 data bs).
Proof.
  intros Hpos Hd. rewrite pad1_eq by done.
  apply Forall_app. split; [done|]. by apply replicate_ok.
Qed.

Lemma auth_loop_step (f : nat) (x : Z) (data : bytes) (st : bytes * bytes) :
  auth_loop this (S f) (x :: data) st =
    (m ← mul this (encrypter this st.2)
           (pad1 (subarray (x :: data) 0 (blockSize this)) (blockSize this));
     enc ← incr_l st.2 (blockSize this);
     auth_loop this f (subarray_from (x :: data) (blockSize this))
       (xor st.1 m, enc)).
Proof. reflexivity. Qed.

(** The accumulator and the counter of [auth] stay well-formed blocks. *)
Lemma auth_loop_wf (f : nat) (data : bytes) (st st' : bytes * bytes) :
  wf_block (blockSize this) st.1 -> wf_block (blockSize this) st.2 ->
  bytes_ok data ->
  auth_loop this f data st = Ok st' ->
  wf_block (blockSize this) st'.1 /\ wf_block (blockSize this) st'.2.
Proof.
  pose proof Hvalid as (Hbs & _).
  revert data st. induction f as [|f IH]; intros data st Hsum Henc Hd.
  - destruct data as [|x data]; [|done]. by intros [= <-].
  - destruct data as [|x data]; [by intros [= <-]|].
    rewrite auth_loop_step.
    destruct (mul_wf (encrypter this st.2)
                (pad1 (subarray (x :: data) 0 (blockSize this))
                   (blockSize this)))
      as (m & Hm & Hmwf).
    { by apply HE. }
    { apply pad1_ok; [block_cases Hbs; lia|].
      rewrite subarray_take by (block_cases Hbs; lia). by apply Forall_take. }
    rewrite Hm. cbn [mbind result_bind].
    destruct (incr_l st.2 (blockSize this)) as [enc'|e] eqn:Hi; [|done].
    cbn [mbind result_bind]. apply IH.
    + cbn [fst]. destruct Hsum as [Hs Hsl], Hmwf as [Hmo Hml].
      split; [by apply xor_ok|]. unfold len in *. rewrite length_xor. lia.
    + cbn [snd]. by apply (incr_l_wf _ _ _ Hbs Henc).
    + rewrite subarray_from_drop by (block_cases Hbs; lia).
      by apply Forall_drop.
Qed.

(** What a tag returned by [auth] tells: it has [tag_size] octets, and both
    bit lengths fitted their half-block field. *)
Lemma auth_body_inv (icn text ad tag : bytes) :
  wf_block (blockSize this) icn -> bytes_ok text -> bytes_ok ad ->
  auth_body this icn text ad = Ok tag ->
  len tag = tag_size this /\
  is_ok (numberToBytesBE (len ad * 8) (blockSize this / 2)) = true /\
  is_ok (numberToBytesBE (len text * 8) (blockSize this / 2)) = true.
Proof.
  pose proof Hvalid as (Hbs & Hts & _).
  intros Hicn Htext Had. unfold auth_body.
  destruct (auth_loop this (length ad) ad _) as [st1|e] eqn:H1; [|done].
  cbn [mbind result_bind].
  apply auth_loop_wf in H1 as [Hs1 He1]; [| |by apply HE|done].
  2:{ split; [by apply replicate_ok|]. apply len_zeros. block_cases Hbs; lia. }
  destruct (auth_loop this (length text) text st1) as [st2|e] eqn:H2; [|done].
  cbn [mbind result_bind].
  apply auth_loop_wf in H2 as [Hs2 He2]; [|done..].
  rewrite half_block by done.
  destruct (numberToBytesBE (len ad * 8) _) as [la|e] eqn:Hla; [|done].
  cbn [mbind result_bind].
  destruct (numberToBytesBE (len text * 8) _) as [lt|e] eqn:Hlt; [|done].
  cbn [mbind result_bind].
  destruct (mul this _ _) as [m|e] eqn:Hm; [|done].
  cbn [mbind result_bind]. intros [= <-]. split; [|done].
  assert (Hmwf : wf_block (blockSize this) m).
  { destruct (mul_wf (encrypter this st2.2) (concatBytes [la; lt]))
      as (m' & Hm' & Hw); [by apply HE | | congruence].
    unfold concatBytes. simpl. rewrite app_nil_r.
    apply Forall_app.
    split; [by apply numberToBytesBE_ok in Hla|].
    by apply numberToBytesBE_ok in Hlt. }
  assert (Hsum : wf_block (blockSize this) (xor st2.1 m)).
  { destruct Hs2 as [Hs Hsl], Hmwf as [Hmo Hml].
    split; [by apply xor_ok|]. unfold len in *. rewrite length_xor. lia. }
  destruct (HE _ Hsum) as [_ Hl].
  rewrite subarray_take by lia. unfold len in *. rewrite length_take. lia.
Qed.

End Auth.

(** ** The two writes to the copy of the nonce *)

Lemma set_clear_msb (b : bytes) :
  bytes_ok b -> set_msb (clear_msb b) = set_msb b.
Proof.
  intros Hb. destruct Hb as [|x b Hx Hb]; [done|].
  unfold set_msb, clear_msb, get0. simpl. f_equal.
  apply Z.eqb_eq.
  by apply (byte_forall
    (fun x => Z.lor (Z.land x 0x7F) 0x80 =? Z.lor x 0x80)); [vm_compute|].
Qed.

Lemma clear_set_msb (b : bytes) :
  bytes_ok b -> clear_msb (set_msb b) = clear_msb b.
Proof.
  intros Hb. destruct Hb as [|x b Hx Hb]; [done|].
  unfold set_msb, clear_msb, get0. simpl. f_equal.
  apply Z.eqb_eq.
  by apply (byte_forall
    (fun x => Z.land (Z.lor x 0x80) 0x7F =? Z.land x 0x7F)); [vm_compute|].
Qed.

Lemma clear_msb_wf (bs : Z) (b : bytes) :
  wf_block bs b -> wf_block bs (clear_msb b).
Proof.
  intros [Hb Hl]. split.
  - destruct Hb as [|x b Hx Hb]; [constructor|].
    unfold clear_msb, get0. simpl. constructor; [|done].
    unfold byte_ok.
    assert (H : (0 <=? Z.land x 127) && (Z.land x 127 <? 256) = true)
      by (by apply (byte_forall
            (fun x => (0 <=? Z.land x 127) && (Z.land x 127 <? 256)));
          [vm_compute|]).
    apply andb_true_iff in H as [H1 H2].
    apply Z.leb_le in H1. apply Z.ltb_lt in H2. lia.
  - unfold clear_msb, len in *. by rewrite length_insert.
Qed.

Lemma set_msb_wf (bs : Z) (b : bytes) :
  wf_block bs b -> wf_block bs (set_msb b).
Proof.
  intros [Hb Hl]. split.
  - destruct Hb as [|x b Hx Hb]; [constructor|].
    unfold set_msb, get0. simpl. constructor; [|done].
    unfold byte_ok.
    assert (H : (0 <=? Z.lor x 128) && (Z.lor x 128 <? 256) = true)
      by (by apply (byte_forall
            (fun x => (0 <=? Z.lor x 128) && (Z.lor x 128 <? 256)));
          [vm_compute|]).
    apply andb_true_iff in H as [H1 H2].
    apply Z.leb_le in H1. apply Z.ltb_lt in H2. lia.
  - unfold set_msb, len in *. by rewrite length_insert.
Qed.

(** ** MGM round trip *)

(** A bit length that [numberToBytesBE] accepted for a half-block field,
    the length being within [max_size], fits the field. *)
Lemma bit_length_fits (n bs : Z) :
  bs = 8 \/ bs = 16 -> 0 <= n <= 2 ^ (bs * 4) - 1 ->
  is_ok (numberToBytesBE (n * 8) (bs / 2)) = true ->
  n * 8 < 2 ^ (bs * 4).
Proof.
  intros Hbs Hn Hok.
  destruct (Z.lt_ge_cases (n * 8) (2 ^ (bs * 4))) as [|Hge]; [done|].
  rewrite numberToBytesBE_overflow in Hok; [done | block_cases Hbs; lia |].
  replace (8 * (bs / 2)) with (bs * 4) by (block_cases Hbs; lia).
  split; [done|].
  rewrite Z.pow_add_r by (block_cases Hbs; lia). change (2 ^ 4) with 16. lia.
Qed.

(** X19.  Whenever [seal] returns a sealed message, [open] of that message
    under the same nonce and associated data returns the plaintext. *)
Theorem seal_open_roundtrip (E : CipherFunc) (bs : Z) (ts : option Z)
    (this : MGM) (nonce : loc) (h h1 : heap) (nb p ad c : bytes) :
  constructor E bs ts = Ok this ->
  block_fn E bs ->
  h !! nonce = Some nb -> wf_block bs nb ->
  bytes_ok p -> bytes_ok ad ->
  seal this nonce p ad h = (h1, Ok c) ->
  exists h2, open this nonce c ad h1 = (h2, Ok p).
Proof.
  intros Hnew HE Hn Hnb Hp Had.
  apply constructor_valid in Hnew as (Hvalid & <- & <- & _).
  pose proof Hvalid as (Hbs & Hts & Hmax & _).
  destruct (validateSizes this p ad) as [[]|e] eqn:Hv.
  2:{ unfold seal, seal_of, slice, mbind, M_bind, lift. by rewrite Hv. }
  rewrite (seal_eval _ _ _ _ _ nb Hn Hv). cbv zeta.
  destruct (crypt_body this (clear_msb nb) p) as [ct|e] eqn:Hc; [|done].
  destruct (auth_body this _ ct ad) as [tag|e] eqn:Ha; [|done].
  intros [= <- <-].
  rewrite set_clear_msb in * by apply Hnb.
  pose proof (clear_msb_wf _ _ Hnb) as Hcwf.
  pose proof (set_msb_wf _ _ Hnb) as Hswf.
  destruct (crypt_body_roundtrip this Hbs HE _ _ _ Hcwf Hc) as [Hlen Hback].
  pose proof (crypt_body_ok this Hbs HE _ _ _ Hcwf Hp Hc) as Hct.
  destruct (auth_body_inv this Hvalid HE _ _ _ _ Hswf Hct Had Ha)
    as (Htag & Hla & Hlt).
  assert (Hn1 : <[fresh (dom h) := set_msb nb]> h !! nonce = Some nb).
  { rewrite lookup_insert_ne; [done|]. intros Heq.
    pose proof (fresh_unallocated h). congruence. }
  (* the sizes that [open] checks *)
  unfold validateSizes in Hv.
  destruct ((len p =? 0) && (len ad =? 0)) eqn:E0; [done|].
  destruct (len p + len ad >? max_size this) eqn:E1; [done|].
  rewrite Z.gtb_ltb in E1. apply Z.ltb_ge in E1. rewrite Hmax in E1.
  pose proof (len_nonneg p) as Hp0. pose proof (len_nonneg ad) as Had0.
  assert (Hlct : len ct = len p) by (unfold len; lia).
  apply bit_length_fits in Hla; [|done|lia].
  apply bit_length_fits in Hlt; [|done|lia].
  assert (Hv' : validateSizes this (ct ++ tag) ad = Ok tt).
  { unfold validateSizes. rewrite len_app, Htag, Hlct, Hmax.
    replace (len p + tag_size this =? 0) with false
      by (symmetry; apply Z.eqb_neq; lia).
    cbn [andb].
    replace (len p + tag_size this + len ad >? 2 ^ (blockSize this * 4) - 1)
      with false; [done|].
    symmetry. rewrite Z.gtb_ltb. apply Z.ltb_ge.
    block_cases Hbs; simpl in *; lia. }
  rewrite (open_eval _ _ _ _ _ nb Hn1 Hv'). cbv zeta.
  replace (len (ct ++ tag) - tag_size this) with (len ct)
    by (rewrite len_app; lia).
  rewrite subarray_prefix_app, subarray_from_app, Ha.
  unfold buffer_equals. rewrite bool_decide_eq_true_2 by done.
  rewrite clear_set_msb by apply Hnb. rewrite Hback. eauto.
Qed.

Example seal_open_example :
  let this := identity_mgm 8 in
  let h : heap := {[ 5%nat := [1; 2; 3; 4; 5; 6; 7; 8] ]} in
  (seal this 5%nat [1; 2; 3] [9] h).2
    = Ok [0; 0; 0; 25; 66; 151; 58; 174; 44; 170; 237] /\
  (open this 5%nat [0; 0; 0; 25; 66; 151; 58; 174; 44; 170; 237] [9]
     (seal this 5%nat [1; 2; 3] [9] h).1).2 = Ok [1; 2; 3].
Proof. split; by vm_compute. Qed.

(** ** Termination of the loops of [MGM]

    [Diverges] marks a [while] loop that outlives its fuel.  No conversion
    returns it, and for a positive block size neither do the loops of
    [crypt] and [auth], whose fuel is the length of their input. *)

Lemma hexToBytes_loop_no_diverge (n : nat) (hex : list Z) :
  (length hex <= n)%nat -> hexToBytes_loop hex <> Err Diverges.
Proof.
  revert hex. induction n as [|n IH]; intros hex Hn.
  - destruct hex; [done|simpl in Hn; lia].
  - destruct hex as [|c1 [|c2 rest]]; [done..|]. cbn [hexToBytes_loop].
    destruct (asciiToBase16 c1); [|done].
    destruct (asciiToBase16 c2); [|done].
    specialize (IH rest ltac:(simpl in Hn; lia)).
    by destruct (hexToBytes_loop rest).
Qed.

Lemma numberToBytesBE_no_diverge (n L : Z) :
  numberToBytesBE n L <> Err Diverges.
Proof.
  unfold numberToBytesBE, hexToBytes. destruct (Z.odd _); [done|].
  by apply hexToBytes_loop_no_diverge
    with (n := length (padStart (toString16 n) (L * 2))).
Qed.

Lemma hexToNumber_loop_no_diverge (hex : list Z) (acc : Z) :
  hexToNumber_loop hex acc <> Err Diverges.
Proof.
  revert acc. induction hex as [|c hex IH]; intros acc; [done|].
  simpl. destruct (asciiToBase16 c); [apply IH|done].
Qed.

Lemma bytesToNumberBE_no_diverge (b : bytes) :
  bytesToNumberBE b <> Err Diverges.
Proof.
  unfold bytesToNumberBE, hexToNumber.
  destruct (bytesToHex b); [done|apply hexToNumber_loop_no_diverge].
Qed.

Lemma _incr_no_diverge (data : bytes) (bs : Z) : _incr data bs <> Err Diverges.
Proof.
  unfold _incr. pose proof (bytesToNumberBE_no_diverge data).
  destruct (bytesToNumberBE data) as [v|e]; cbn [mbind result_bind];
    [|congruence].
  apply numberToBytesBE_no_diverge.
Qed.

Lemma incr_r_no_diverge (data : bytes) (bs : Z) :
  incr_r data bs <> Err Diverges.
Proof.
  unfold incr_r.
  pose proof (_incr_no_diverge (subarray_from data (idiv32 bs 2)) bs).
  by destruct (_incr _ bs).
Qed.

Lemma incr_l_no_diverge (data : bytes) (bs : Z) :
  incr_l data bs <> Err Diverges.
Proof.
  unfold incr_l.
  pose proof (_incr_no_diverge (subarray data 0 (idiv32 bs 2)) bs).
  by destruct (_incr _ bs).
Qed.

Lemma mul_no_diverge (this : MGM) (a b : bytes) : mul this a b <> Err Diverges.
Proof.
  unfold mul. pose proof (bytesToNumberBE_no_diverge a).
  destruct (bytesToNumberBE a) as [x|e]; cbn [mbind result_bind]; [|congruence].
  pose proof (bytesToNumberBE_no_diverge b).
  destruct (bytesToNumberBE b) as [y|e]; cbn [mbind result_bind]; [|congruence].
  apply numberToBytesBE_no_diverge.
Qed.

Lemma crypt_loop_terminates (this : MGM) (f : nat) (enc data : bytes) :
  0 < blockSize this -> (length data <= f)%nat ->
  crypt_loop this f enc data <> Err Diverges.
Proof.
  intros Hbs. revert enc data. induction f as [|f IH]; intros enc data Hf.
  - destruct data; [done|simpl in Hf; lia].
  - destruct data as [|x data]; [done|]. cbn [crypt_loop].
    pose proof (incr_r_no_diverge enc (blockSize this)).
    destruct (incr_r enc (blockSize this)) as [enc'|e];
      cbn [mbind result_bind]; [|congruence].
    specialize (IH enc' (subarray_from (x :: data) (blockSize this))).
    destruct (crypt_loop this f enc' _) as [res|e]; [done|].
    cbn [mbind result_bind]. intros [= ->]. apply IH; [|done].
    rewrite subarray_from_drop by lia. rewrite length_drop.
    simpl in *. lia.
Qed.

Lemma auth_loop_terminates (this : MGM) (f : nat) (data : bytes)
    (st : bytes * bytes) :
  0 < blockSize this -> (length data <= f)%nat ->
  auth_loop this f data st <> Err Diverges.
Proof.
  intros Hbs. revert data st. induction f as [|f IH]; intros data st Hf.
  - destruct data; [done|simpl in Hf; lia].
  - destruct data as [|x data]; [done|]. cbn [auth_loop].
    pose proof (mul_no_diverge this (encrypter this st.2)
      (pad1 (subarray (x :: data) 0 (blockSize this)) (blockSize this))).
    destruct (mul this _ _) as [m|e]; cbn [mbind result_bind]; [|congruence].
    pose proof (incr_l_no_diverge st.2 (blockSize this)).
    destruct (incr_l st.2 (blockSize this)) as [enc'|e];
      cbn [mbind result_bind]; [|congruence]. apply IH.
    rewrite subarray_from_drop by lia. rewrite length_drop.
    simpl in *. lia.
Qed.

(** [seal] never reports a loop out of fuel. *)
Lemma seal_terminates (this : MGM) (nonce : loc) (p ad : bytes) (h : heap) :
  0 < blockSize this -> (seal this nonce p ad h).2 <> Err Diverges.
Proof.
  intros Hbs.
  destruct (validateSizes this p ad) as [[]|e] eqn:Hv.
  2:{ unfold seal, seal_of, slice, mbind, M_bind, lift. rewrite Hv.
      unfold validateSizes in Hv.
      destruct (_ && _); [by injection Hv as <-|].
      destruct (_ >? _); [by injection Hv as <-|done]. }
  destruct (h !! nonce) as [nb|] eqn:Hn.
  2:{ unfold seal, seal_of, slice, mbind, M_bind, lift, slice_copy.
      by rewrite Hv, Hn. }
  rewrite (seal_eval _ _ _ _ _ nb Hn Hv). cbv zeta.
  destruct (crypt_body this (clear_msb nb) p) as [ct|e] eqn:Hc.
  - destruct (auth_body this _ ct ad) as [tag|e] eqn:Ha; [done|].
    cbn [snd]. intros [= ->]. revert Ha. unfold auth_body.
    pose proof (auth_loop_terminates this (length ad) ad
      (zeros (blockSize this), encrypter this (set_msb (clear_msb nb)))
      Hbs ltac:(lia)).
    destruct (auth_loop this (length ad) ad _) as [st1|e];
      cbn [mbind result_bind]; [|congruence].
    cbn [mbind result_bind].
    pose proof (auth_loop_terminates this (length ct) ct st1 Hbs ltac:(lia)).
    destruct (auth_loop this (length ct) ct st1) as [st2|e];
      cbn [mbind result_bind]; [|congruence].
    cbn [mbind result_bind].
    pose proof (numberToBytesBE_no_diverge (len ad * 8)
                  (idiv32 (blockSize this) 2)).
    destruct (numberToBytesBE (len ad * 8) _) as [la|e];
      cbn [mbind result_bind]; [|congruence].
    cbn [mbind result_bind].
    pose proof (numberToBytesBE_no_diverge (len ct * 8)
                  (idiv32 (blockSize this) 2)).
    destruct (numberToBytesBE (len ct * 8) _) as [lt|e];
      cbn [mbind result_bind]; [|congruence].
    cbn [mbind result_bind].
    pose proof (mul_no_diverge this (encrypter this st2.2)
                  (concatBytes [la; lt])).
    destruct (mul this _ _); cbn [mbind result_bind]; congruence.
  - cbn [snd]. intros [= ->]. revert Hc. unfold crypt_body.
    pose proof (crypt_loop_terminates this (length p)
      (encrypter this (clear_msb nb)) p Hbs ltac:(lia)).
    destruct (crypt_loop this (length p) _ p); cbn [mbind result_bind];
      congruence.
Qed.

(** ** The only exception of [seal] on admissible inputs

    On inputs that pass the size check, [seal] either returns or throws the
    odd-length error of [hexToBytes]: a counter half that held only 0xFF
    octets was incremented, or a bit length did not fit its half-block
    field. *)

Section Outcome.

Variable this : MGM.
Hypothesis Hvalid : valid_instance this.
Hypothesis HE : block_fn (encrypter this) (blockSize this).

Lemma incr_r_outcome (enc : bytes) :
  wf_block (blockSize this) enc ->
  overflow_or_ok this (incr_r enc (blockSize this)).
Proof.
  pose proof Hvalid as (Hbs & _). intros [Hok Hlen].
  unfold overflow_or_ok, incr_r. rewrite half_block by done.
  assert (Hh : 0 <= blockSize this / 2 <= len enc)
    by (rewrite Hlen; block_cases Hbs; lia).
  rewrite subarray_from_suffix by done.
  rewrite _incr_spec; [|done|by apply Forall_drop|].
  - destruct (_ <? _); cbn [mbind result_bind]; eauto.
  - unfold len in *. rewrite length_drop. block_cases Hbs; lia.
Qed.

Lemma incr_l_outcome (enc : bytes) :
  wf_block (blockSize this) enc ->
  overflow_or_ok this (incr_l enc (blockSize this)).
Proof.
  pose proof Hvalid as (Hbs & _). intros [Hok Hlen].
  unfold overflow_or_ok, incr_l. rewrite half_block by done.
  assert (Hh : 0 <= blockSize this / 2 <= len enc)
    by (rewrite Hlen; block_cases Hbs; lia).
  rewrite subarray_prefix by done.
  rewrite _incr_spec; [|done|by apply Forall_take|].
  - destruct (_ <? _); cbn [mbind result_bind]; eauto.
  - unfold len in *. rewrite length_take. block_cases Hbs; lia.
Qed.

Lemma crypt_loop_outcome (f : nat) (enc data : bytes) :
  wf_block (blockSize this) enc -> (length data <= f)%nat ->
  overflow_or_ok this (crypt_loop this f enc data).
Proof.
  pose proof Hvalid as (Hbs & _).
  revert enc data. induction f as [|f IH]; intros enc data Henc Hf.
  - destruct data; [left; by eexists|simpl in Hf; lia].
  - destruct data as [|x data]; [left; by eexists|]. cbn [crypt_loop].
    destruct (incr_r_outcome enc Henc) as [[enc' Hi] | Hi]; rewrite Hi;
      cbn [mbind result_bind]; [|by right].
    destruct (IH enc' (subarray_from (x :: data) (blockSize this)))
      as [[res Hr] | Hr]; try rewrite Hr; cbn [mbind result_bind].
    + by apply (incr_r_wf _ _ _ Hbs Henc).
    + rewrite subarray_from_drop by (block_cases Hbs; lia).
      rewrite length_drop. simpl in *. block_cases Hbs; lia.
    + left. by eexists.
    + by right.
Qed.

Lemma auth_loop_outcome (f : nat) (data : bytes) (st : bytes * bytes) :
  wf_block (blockSize this) st.1 -> wf_block (blockSize this) st.2 ->
  bytes_ok data -> (length data <= f)%nat ->
  overflow_or_ok this (auth_loop this f data st).
Proof.
  pose proof Hvalid as (Hbs & _).
  revert data st. induction f as [|f IH]; intros data st Hsum Henc Hd Hf.
  - destruct data; [left; by eexists|simpl in Hf; lia].
  - destruct data as [|x data]; [left; by eexists|].
    rewrite auth_loop_step.
    destruct (mul_wf this Hvalid HE (encrypter this st.2)
                (pad1 (subarray (x :: data) 0 (blockSize this))
                   (blockSize this)))
      as (m & Hm & Hmwf).
    { by apply HE. }
    { apply pad1_ok; [block_cases Hbs; lia|].
      rewrite subarray_take by (block_cases Hbs; lia). by apply Forall_take. }
    rewrite Hm. cbn [mbind result_bind].
    destruct (incr_l_outcome st.2 Henc) as [[enc' Hi] | Hi]; rewrite Hi;
      cbn [mbind result_bind]; [|by right].
    apply IH.
    + cbn [fst]. destruct Hsum as [Hs Hsl], Hmwf as [Hmo Hml].
      split; [by apply xor_ok|]. unfold len in *. rewrite length_xor. lia.
    + cbn [snd]. by apply (incr_l_wf _ _ _ Hbs Henc).
    + rewrite subarray_from_drop by (block_cases Hbs; lia).
      by apply Forall_drop.
    + rewrite subarray_from_drop by (block_cases Hbs; lia).
      rewrite length_drop. simpl in *. block_cases Hbs; lia.
Qed.

Lemma bit_length_outcome (n : Z) :
  0 <= n <= max_size this ->
  overflow_or_ok this (numberToBytesBE (n * 8) (idiv32 (blockSize this) 2)).
Proof.
  pose proof Hvalid as (Hbs & _ & Hmax & _). rewrite Hmax. intros Hn.
  rewrite half_block by done. unfold overflow_or_ok.
  destruct (Z.lt_ge_cases (n * 8) (2 ^ (blockSize this * 4))) as [Hlt|Hge].
  - left. eexists. apply numberToBytesBE_fits; [block_cases Hbs; lia|].
    replace (8 * (blockSize this / 2)) with (blockSize this * 4)
      by (block_cases Hbs; lia). lia.
  - right.
    replace (blockSize this + 1) with (blockSize this / 2 * 2 + 1)
      by (block_cases Hbs; lia).
    apply numberToBytesBE_overflow; [block_cases Hbs; lia|].
    replace (8 * (blockSize this / 2)) with (blockSize this * 4)
      by (block_cases Hbs; lia).
    split; [done|].
    rewrite Z.pow_add_r by (block_cases Hbs; lia). change (2 ^ 4) with 16. lia.
Qed.

(** X20.  On a block-sized nonce and octet sequences that pass the size
    check, [seal] returns a sealed message or throws the odd-length error of
    [hexToBytes] on [blockSize + 1] hexadecimal digits; it throws nothing
    else and its loops end. *)
Lemma seal_outcome (nonce : loc) (h : heap) (nb p ad : bytes) :
  h !! nonce = Some nb -> wf_block (blockSize this) nb ->
  bytes_ok p -> bytes_ok ad ->
  validateSizes this p ad = Ok tt ->
  overflow_or_ok this (seal this nonce p ad h).2.
Proof.
  pose proof Hvalid as (Hbs & _ & Hmax & _).
  intros Hn Hnb Hp Had Hv.
  rewrite (seal_eval _ _ _ _ _ nb Hn Hv). cbv zeta.
  pose proof (clear_msb_wf _ _ Hnb) as Hcwf.
  pose proof (set_msb_wf _ _ Hcwf) as Hswf.
  assert (Hsz : 0 <= len p <= max_size this /\ 0 <= len ad <= max_size this).
  { unfold validateSizes in Hv. destruct (_ && _); [done|].
    destruct (_ >? _) eqn:E; [done|]. rewrite Z.gtb_ltb in E.
    apply Z.ltb_ge in E. pose proof (len_nonneg p). pose proof (len_nonneg ad).
    lia. }
  destruct (crypt_body this (clear_msb nb) p) as [ct|e] eqn:Hc.
  2:{ cbn [snd]. revert Hc. unfold crypt_body.
      destruct (crypt_loop_outcome (length p) _ p (HE _ Hcwf) ltac:(lia))
        as [[res Hr] | Hr]; rewrite Hr; cbn [mbind result_bind]; [done|].
      intros [= <-]. by right. }
  destruct (crypt_body_roundtrip this Hbs HE _ _ _ Hcwf Hc) as [Hlen _].
  pose proof (crypt_body_ok this Hbs HE _ _ _ Hcwf Hp Hc) as Hct.
  destruct (auth_body this _ ct ad) as [tag|e] eqn:Ha; [left; by eexists|].
  cbn [snd]. revert Ha. unfold auth_body.
  destruct (auth_loop_outcome (length ad) ad
              (zeros (blockSize this), encrypter this (set_msb (clear_msb nb))))
    as [[st1 H1] | H1]; try rewrite H1; cbn [mbind result_bind].
  { split; [by apply replicate_ok|]. apply len_zeros. block_cases Hbs; lia. }
  { by apply HE. }
  { done. }
  { lia. }
  2:{ intros [= <-]. by right. }
  apply auth_loop_wf in H1 as [Hs1 He1]; [|done|done| |by apply HE|done].
  2:{ split; [by apply replicate_ok|]. apply len_zeros. block_cases Hbs; lia. }
  destruct (auth_loop_outcome (length ct) ct st1) as [[st2 H2] | H2];
    try rewrite H2; cbn [mbind result_bind]; try done; try lia.
  2:{ intros [= <-]. by right. }
  apply auth_loop_wf in H2 as [Hs2 He2]; [|done..].
  destruct (bit_length_outcome (len ad)) as [[la Hla] | Hla]; [lia| |];
    rewrite Hla; cbn [mbind result_bind].
  2:{ intros [= <-]. by right. }
  destruct (bit_length_outcome (len ct)) as [[lt Hlt] | Hlt];
    [unfold len in *; lia| |]; rewrite Hlt; cbn [mbind result_bind].
  2:{ intros [= <-]. by right. }
  destruct (mul_wf this Hvalid HE (encrypter this st2.2) (concatBytes [la; lt]))
    as (m & Hm & _); [by apply HE| |by rewrite Hm].
  unfold concatBytes. simpl. rewrite app_nil_r. apply Forall_app.
  split; [by apply numberToBytesBE_ok in Hla|].
  by apply numberToBytesBE_ok in Hlt.
Qed.

End Outcome.

(** C1, where the code departs from the claim.  Whenever the block function
    maps the nonce (top bit cleared) to a block whose right half holds only
    0xFF octets, [seal] of a non-empty plaintext throws on the first
    increment of the encryption counter, so no sealed message exists for
    [open] to return the plaintext from. *)
Theorem seal_throws_on_counter_wrap (this : MGM) (nonce : loc) (h : heap)
    (nb p ad left : bytes) :
  blockSize this = 8 \/ blockSize this = 16 ->
  h !! nonce = Some nb ->
  validateSizes this p ad = Ok tt ->
  p <> [] ->
  len left = blockSize this / 2 ->
  encrypter this (clear_msb nb)
    = left ++ replicate (Z.to_nat (blockSize this / 2)) 0xFF ->
  (seal this nonce p ad h).2 = Err (HexUnpadded (blockSize this + 1)).
Proof.
  intros Hbs Hn Hv Hp Hl HE.
  rewrite (seal_eval _ _ _ _ _ nb Hn Hv). cbv zeta.
  assert (Hc : crypt_body this (clear_msb nb) p
               = Err (HexUnpadded (blockSize this + 1))).
  { unfold crypt_body. rewrite HE.
    destruct p as [|x p]; [done|]. simpl length. cbn [crypt_loop].
    by rewrite incr_r_wrap_throws. }
  by rewrite Hc.
Qed.

Lemma seal_throws_on_counter_wrap_witness :
  let this := identity_mgm 8 in
  let nb := [0; 0; 0; 0; 0xFF; 0xFF; 0xFF; 0xFF] in
  let h : heap := {[ 5%nat := nb ]} in
  constructor (fun b => b) 8 None = Ok this /\
  (seal this 5%nat [0x41] [] h).2 = Err (HexUnpadded 9).
Proof.
  intros this nb h. split; [reflexivity|].
  apply (seal_throws_on_counter_wrap this 5%nat h nb [0x41] [] [0; 0; 0; 0]).
  - by left.
  - reflexivity.
  - reflexivity.
  - discriminate.
  - reflexivity.
  - reflexivity.
Defined.


(** * Further properties *)

(** ** Blocks of a buffer *)

Lemma subarray_chunk (d : bytes) (i bs : Z) :
  0 <= i -> 0 <= bs ->
  subarray d i (i + bs) = take (Z.to_nat bs) (drop (Z.to_nat i) d).
Proof.
  intros Hi Hbs. unfold subarray, rel_index. pose proof (len_nonneg d) as Hl.
  destruct (i <? 0) eqn:E1; [lia|]. destruct (i + bs <? 0) eqn:E2; [lia|].
  destruct (Z.le_gt_cases i (len d)) as [Hle|Hgt].
  - rewrite (Z.min_l i) by lia.
    destruct (Z.le_gt_cases (i + bs) (len d)) as [Hle2|Hgt2].
    + rewrite Z.min_l by lia. f_equal. lia.
    + rewrite Z.min_r by lia.
      rewrite !take_ge; [done|rewrite length_drop|rewrite length_drop];
        unfold len in *; lia.
  - rewrite !Z.min_r by lia. rewrite Z.sub_diag.
    rewrite (drop_ge d (Z.to_nat i)) by (unfold len in *; lia).
    by rewrite take_nil.
Qed.

Lemma length_blocks (bs n : nat) (d : bytes) : length (blocks bs n d) = n.
Proof.
  revert d. induction n as [|n IH]; intros d; [done|]. simpl. by rewrite IH.
Qed.

Lemma concat_blocks (bs n : nat) (d : bytes) :
  (length d <= n * bs)%nat -> concat (blocks bs n d) = d.
Proof.
  revert d. induction n as [|n IH]; intros d Hd.
  - simpl in *. by rewrite (nil_length_inv d) by lia.
  - simpl. rewrite IH; [apply take_drop|]. rewrite length_drop. lia.
Qed.

Lemma blocks_nil (bs n : nat) : concat (blocks bs n []) = [].
Proof. apply concat_blocks. simpl. lia. Qed.

Lemma concat_of_empties (cs : list bytes) :
  Forall (fun c => length c = 0%nat) cs -> concat cs = [].
Proof.
  induction 1 as [|c cs Hc _ IH]; [done|].
  simpl. by rewrite IH, (nil_length_inv c).
Qed.

Lemma blocks_nil_lengths (bs n : nat) :
  Forall (fun c => length c = 0%nat) (blocks bs n []).
Proof.
  induction n as [|n IH]; [constructor|]. simpl.
  rewrite take_nil, drop_nil. by constructor.
Qed.

(** Cutting the concatenation of blocks that have the lengths of the blocks
    of [d] gives back those blocks. *)
Lemma blocks_concat (bs n : nat) (d : bytes) (cs : list bytes) :
  map length cs = map length (blocks bs n d) ->
  blocks bs n (concat cs) = cs.
Proof.
  revert d cs. induction n as [|n IH]; intros d cs Hlen.
  - by destruct cs.
  - destruct cs as [|c cs]; [done|]. simpl in Hlen.
    injection Hlen as Hc Hcs. rewrite length_take in Hc.
    assert (Hdrop : drop bs (c ++ concat cs) = concat cs).
    { rewrite drop_app. rewrite drop_ge by lia.
      destruct (decide (bs <= length d)%nat) as [Hle|Hgt].
      - replace (bs - length c)%nat with 0%nat by lia. done.
      - rewrite (drop_ge d) in Hcs by lia.
        rewrite (concat_of_empties cs); [by rewrite drop_nil|].
        pose proof (blocks_nil_lengths bs n) as Hn.
        apply Forall_forall. intros x Hx.
        apply list_elem_of_In, (in_map length) in Hx. rewrite Hcs in Hx.
        apply in_map_iff in Hx as (y & <- & Hy).
        rewrite Forall_forall in Hn. apply Hn. by apply list_elem_of_In. }
    simpl. rewrite Hdrop. f_equal; [|by apply (IH (drop bs d))].
    rewrite take_app. rewrite take_ge by lia.
    destruct (decide (bs <= length d)%nat) as [Hle|Hgt].
    + replace (bs - length c)%nat with 0%nat by lia.
      by rewrite take_0, app_nil_r.
    + rewrite (drop_ge d) in Hcs by lia.
      rewrite (concat_of_empties cs); [by rewrite take_nil, app_nil_r|].
      pose proof (blocks_nil_lengths bs n) as Hn.
      apply Forall_forall. intros x Hx.
      apply list_elem_of_In, (in_map length) in Hx. rewrite Hcs in Hx.
      apply in_map_iff in Hx as (y & <- & Hy).
      rewrite Forall_forall in Hn. apply Hn. by apply list_elem_of_In.
Qed.

Lemma blocks_app_full (bs m : nat) (head rest : bytes) :
  length head = (m * bs)%nat ->
  forall n,
    blocks bs (m + n) (head ++ rest) = blocks bs m head ++ blocks bs n rest.
Proof.
  revert head. induction m as [|m IH]; intros head Hl n.
  - simpl in Hl. apply nil_length_inv in Hl. by subst.
  - cbn [Nat.add blocks app].
    rewrite take_app_le, drop_app_le by lia.
    rewrite IH by (rewrite length_drop; lia). done.
Qed.

Lemma blocks_full (bs n : nat) (d : bytes) :
  length d = (n * bs)%nat ->
  Forall (fun b => length b = bs) (blocks bs n d).
Proof.
  revert d. induction n as [|n IH]; intros d Hd; [constructor|].
  simpl. constructor.
  - rewrite length_take. lia.
  - apply IH. rewrite length_drop. lia.
Qed.

Lemma blocks_short (bs n : nat) (d : bytes) :
  Forall (fun b => (length b <= bs)%nat) (blocks bs n d).
Proof.
  revert d. induction n as [|n IH]; intros d; [constructor|].
  simpl. constructor; [rewrite length_take; lia | apply IH].
Qed.

(** The register built from an IV of [m] whole blocks. *)
Lemma iv_blocks_eq (iv : bytes) (bs : Z) (n k : nat) :
  0 < bs ->
  iv_blocks iv bs n (Z.of_nat k * bs)
  = blocks (Z.to_nat bs) n (drop (k * Z.to_nat bs) iv).
Proof.
  intros Hbs. revert k. induction n as [|n IH]; intros k; [done|].
  simpl. rewrite subarray_chunk by lia.
  replace (Z.of_nat k * bs + bs) with (Z.of_nat (S k) * bs) by lia.
  rewrite IH. rewrite drop_drop.
  replace (Z.to_nat (Z.of_nat k * bs)) with (k * Z.to_nat bs)%nat by lia.
  do 3 f_equal. lia.
Qed.

Lemma ceil_div_exact (m bs : Z) : 0 < bs -> ceil_div (m * bs) bs = m.
Proof.
  intros Hbs. unfold ceil_div. symmetry.
  apply (Z.div_unique _ _ _ (bs - 1)); lia.
Qed.

(** A length that passes the alignment test is a positive multiple of the
    block size. *)
Lemma aligned_inv (n bs : Z) :
  0 < bs -> 0 <= n ->
  (n =? 0) || negb (rem_eq0 n bs) = false ->
  exists m : nat, (0 < m)%nat /\ n = Z.of_nat m * bs.
Proof.
  intros Hbs Hn Hc. apply orb_false_iff in Hc as [H0 Hr].
  apply Z.eqb_neq in H0. apply negb_false_iff in Hr.
  unfold rem_eq0 in Hr. destruct (bs =? 0) eqn:E; [done|].
  apply Z.eqb_eq in Hr. rewrite Z.rem_mod_nonneg in Hr by lia.
  pose proof (Z.div_mod n bs ltac:(lia)) as Hd. rewrite Hr in Hd.
  pose proof (Z.div_pos n bs Hn Hbs).
  exists (Z.to_nat (n / bs)). split; nia.
Qed.

Lemma aligned_ok (m : nat) (bs : Z) :
  0 < bs -> (0 < m)%nat ->
  (Z.of_nat m * bs =? 0) || negb (rem_eq0 (Z.of_nat m * bs) bs) = false.
Proof.
  intros Hbs Hm. apply orb_false_iff. split; [apply Z.eqb_neq; nia|].
  apply negb_false_iff. unfold rem_eq0.
  destruct (bs =? 0) eqn:E; [lia|]. apply Z.eqb_eq.
  rewrite Z.rem_mod_nonneg by nia. apply Z.mod_mul. lia.
Qed.

Lemma register_eq (iv : bytes) (bs : Z) (m : nat) :
  0 < bs -> len iv = Z.of_nat m * bs ->
  register iv bs = blocks (Z.to_nat bs) m iv.
Proof.
  intros Hbs Hl. unfold register. rewrite Hl, ceil_div_exact by done.
  rewrite Nat2Z.id. change 0 with (Z.of_nat 0 * bs).
  by rewrite (iv_blocks_eq iv bs m 0).
Qed.

Lemma aligned_mod (d : bytes) (bs : Z) :
  0 < bs -> d <> [] -> len d mod bs = 0 ->
  (len d =? 0) || negb (rem_eq0 (len d) bs) = false.
Proof.
  intros Hbs Hne Hmod. pose proof (len_nonneg d). unfold rem_eq0.
  destruct (len d =? 0) eqn:E0.
  - apply Z.eqb_eq, len_nil_inv in E0. done.
  - destruct (bs =? 0) eqn:E1; [lia|]. rewrite Z.rem_mod_nonneg by lia.
    by rewrite Hmod.
Qed.

(** ** Register modes *)

(** The loops of OFB, CBC and CFB read the data block by block. *)
Lemma ofb_loop_run (E : CipherFunc) (bs : Z) (data : bytes) (n k : nat)
    (r : list bytes) :
  0 < bs ->
  ofb_loop E bs data n (Z.of_nat k * bs) r
  = reg_run (fun h p => (xor (E h) p, E h)) r
      (blocks (Z.to_nat bs) n (drop (k * Z.to_nat bs) data)).
Proof.
  intros Hbs. revert k r. induction n as [|n IH]; intros k r; [done|].
  cbn [ofb_loop blocks reg_run]. destruct r as [|h r]; [done|].
  cbn [r0 mbind mresult_bind fst snd].
  rewrite subarray_chunk by lia.
  replace (Z.of_nat k * bs + bs) with (Z.of_nat (S k) * bs) by lia.
  rewrite IH, drop_drop. rewrite last_snoc. simpl default.
  replace (Z.to_nat (Z.of_nat k * bs)) with (k * Z.to_nat bs)%nat by lia.
  by replace (S k * Z.to_nat bs)%nat with (k * Z.to_nat bs + Z.to_nat bs)%nat
    by lia.
Qed.

Lemma cbc_encrypt_loop_run (E : CipherFunc) (bs : Z) (data : bytes)
    (n k : nat) (r : list bytes) :
  0 < bs ->
  cbc_encrypt_loop E bs data n (Z.of_nat k * bs) r
  = reg_run (fun h p => (E (xor h p), E (xor h p))) r
      (blocks (Z.to_nat bs) n (drop (k * Z.to_nat bs) data)).
Proof.
  intros Hbs. revert k r. induction n as [|n IH]; intros k r; [done|].
  cbn [cbc_encrypt_loop blocks reg_run]. destruct r as [|h r]; [done|].
  cbn [r0 mbind mresult_bind fst snd].
  rewrite subarray_chunk by lia.
  replace (Z.of_nat k * bs + bs) with (Z.of_nat (S k) * bs) by lia.
  rewrite IH, drop_drop.
  replace (Z.to_nat (Z.of_nat k * bs)) with (k * Z.to_nat bs)%nat by lia.
  by replace (S k * Z.to_nat bs)%nat with (k * Z.to_nat bs + Z.to_nat bs)%nat
    by lia.
Qed.

Lemma cbc_decrypt_loop_run (D : CipherFunc) (bs : Z) (data : bytes)
    (n k : nat) (r : list bytes) :
  0 < bs ->
  cbc_decrypt_loop D bs data n (Z.of_nat k * bs) r
  = reg_run (fun h c => (xor h (D c), c)) r
      (blocks (Z.to_nat bs) n (drop (k * Z.to_nat bs) data)).
Proof.
  intros Hbs. revert k r. induction n as [|n IH]; intros k r; [done|].
  cbn [cbc_decrypt_loop blocks reg_run]. destruct r as [|h r]; [done|].
  cbn [r0 mbind mresult_bind fst snd].
  rewrite subarray_chunk by lia.
  replace (Z.of_nat k * bs + bs) with (Z.of_nat (S k) * bs) by lia.
  rewrite IH, drop_drop.
  replace (Z.to_nat (Z.of_nat k * bs)) with (k * Z.to_nat bs)%nat by lia.
  by replace (S k * Z.to_nat bs)%nat with (k * Z.to_nat bs + Z.to_nat bs)%nat
    by lia.
Qed.

Lemma cfb_encrypt_loop_run (E : CipherFunc) (bs : Z) (data : bytes)
    (n k : nat) (r : list bytes) :
  0 < bs ->
  cfb_encrypt_loop E bs data n (Z.of_nat k * bs) r
  = reg_run (fun h p => (xor (E h) p, xor (E h) p)) r
      (blocks (Z.to_nat bs) n (drop (k * Z.to_nat bs) data)).
Proof.
  intros Hbs. revert k r. induction n as [|n IH]; intros k r; [done|].
  cbn [cfb_encrypt_loop blocks reg_run]. destruct r as [|h r]; [done|].
  cbn [r0 mbind mresult_bind fst snd].
  rewrite subarray_chunk by lia.
  replace (Z.of_nat k * bs + bs) with (Z.of_nat (S k) * bs) by lia.
  rewrite IH, drop_drop.
  replace (Z.to_nat (Z.of_nat k * bs)) with (k * Z.to_nat bs)%nat by lia.
  by replace (S k * Z.to_nat bs)%nat with (k * Z.to_nat bs + Z.to_nat bs)%nat
    by lia.
Qed.

Lemma cfb_decrypt_loop_run (D : CipherFunc) (bs : Z) (data : bytes)
    (n k : nat) (r : list bytes) :
  0 < bs ->
  cfb_decrypt_loop D bs data n (Z.of_nat k * bs) r
  = reg_run (fun h c => (xor (D h) c, c)) r
      (blocks (Z.to_nat bs) n (drop (k * Z.to_nat bs) data)).
Proof.
  intros Hbs. revert k r. induction n as [|n IH]; intros k r; [done|].
  cbn [cfb_decrypt_loop blocks reg_run]. destruct r as [|h r]; [done|].
  cbn [r0 mbind mresult_bind fst snd].
  rewrite subarray_chunk by lia.
  replace (Z.of_nat k * bs + bs) with (Z.of_nat (S k) * bs) by lia.
  rewrite IH, drop_drop.
  replace (Z.to_nat (Z.of_nat k * bs)) with (k * Z.to_nat bs)%nat by lia.
  by replace (S k * Z.to_nat bs)%nat with (k * Z.to_nat bs + Z.to_nat bs)%nat
    by lia.
Qed.

(** If [dec] undoes [enc] at every step that an invariant of the register
    and the remaining blocks allows, then running [dec] over the output of
    [enc] gives back the blocks, and the output blocks are as long as the
    input blocks. *)
Lemma reg_run_roundtrip (enc dec : bytes -> bytes -> bytes * bytes)
    (Inv : list bytes -> list bytes -> Prop) :
  (forall r p ps, Inv r (p :: ps) ->
     exists h r', r = h :: r' /\
       dec h (enc h p).1 = (p, (enc h p).2) /\
       length (enc h p).1 = length p /\
       Inv (r' ++ [(enc h p).2]) ps) ->
  forall ps r, Inv r ps ->
    exists cs, reg_run enc r ps = MOk cs /\
               reg_run dec r cs = MOk ps /\
               map length cs = map length ps.
Proof.
  intros Hstep ps. induction ps as [|p ps IH]; intros r HI.
  - by exists [].
  - destruct (Hstep _ _ _ HI) as (h & r' & -> & Hdec & Hlen & HI').
    destruct (IH _ HI') as (cs & Hrun & Hback & Hls).
    exists ((enc h p).1 :: cs). cbn [reg_run r0 mbind mresult_bind].
    change (drop 1 (h :: r')) with r'.
    rewrite Hrun. cbn [mbind mresult_bind]. split; [done|].
    rewrite Hdec. cbn [fst snd]. rewrite Hback. cbn [mbind mresult_bind].
    split; [done|]. simpl. by rewrite Hlen, Hls.
Qed.

Lemma xor_twice (k p : bytes) :
  (length p <= length k)%nat -> xor k (xor k p) = p.
Proof.
  intros Hl. rewrite <- (app_nil_r (xor k p)), xor_cancel by done.
  by apply take_ge.
Qed.

Section RegisterModes.

Variable bs : Z.
Hypothesis Hbs : 0 < bs.
Variable E : CipherFunc.
Hypothesis HE : keeps_block_length E bs.

Let full (b : bytes) : Prop := length b = Z.to_nat bs.

Lemma E_full (b : bytes) : full b -> full (E b).
Proof.
  unfold full. intros Hb. pose proof (HE b) as H. unfold len in H. lia.
Qed.

Lemma ofb_run_roundtrip (r ps : list bytes) :
  r <> [] -> Forall full r ->
  Forall (fun p => (length p <= Z.to_nat bs)%nat) ps ->
  exists cs, reg_run (fun h p => (xor (E h) p, E h)) r ps = MOk cs /\
             reg_run (fun h p => (xor (E h) p, E h)) r cs = MOk ps /\
             map length cs = map length ps.
Proof.
  intros Hne Hr Hps.
  apply (reg_run_roundtrip _ _
    (fun r ps => r <> [] /\ Forall full r /\
                 Forall (fun p => (length p <= Z.to_nat bs)%nat) ps));
    [|done].
  clear Hne Hr Hps r ps. intros r p ps (Hne & Hr & Hps).
  destruct r as [|h r]; [done|]. exists h, r. split; [done|].
  apply Forall_cons in Hr as [Hh Hr]. apply Forall_cons in Hps as [Hp Hps].
  pose proof (E_full h Hh) as HEh. unfold full in HEh. cbn [fst snd].
  split; [by rewrite xor_twice by lia|].
  split; [rewrite length_xor; lia|].
  split; [by destruct r|]. split; [|done].
  apply Forall_app. split; [done|]. by repeat constructor.
Qed.

Lemma cfb_run_roundtrip (r : list bytes) (n : nat) (d : bytes) :
  r <> [] -> (d <> [] -> Forall full r) ->
  exists cs,
    reg_run (fun h p => (xor (E h) p, xor (E h) p)) r
      (blocks (Z.to_nat bs) n d) = MOk cs /\
    reg_run (fun h c => (xor (E h) c, c)) r cs
      = MOk (blocks (Z.to_nat bs) n d) /\
    map length cs = map length (blocks (Z.to_nat bs) n d).
Proof.
  intros Hne Hr.
  apply (reg_run_roundtrip _ _
    (fun r ps => r <> [] /\
       exists n d, ps = blocks (Z.to_nat bs) n d /\
                   (d <> [] -> Forall full r))); [|by eauto].
  clear Hne Hr r n d. intros r p ps (Hne & n & d & Hps & Hr).
  destruct r as [|h r]; [done|]. exists h, r. split; [done|].
  destruct n as [|n]; [done|]. simpl in Hps. injection Hps as -> ->.
  cbn [fst snd]. destruct d as [|x d].
  - rewrite take_nil, drop_nil.
    assert (Hx : forall k : bytes, xor k [] = []) by (by intros [|? ?]).
    rewrite !Hx. split; [done|]. split; [done|].
    split; [by destruct r|]. exists n, []. done.
  - specialize (Hr ltac:(done)). apply Forall_cons in Hr as [Hh Hr].
    pose proof (E_full h Hh) as HEh. unfold full in HEh.
    assert (Hp : (length (take (Z.to_nat bs) (x :: d)) <= Z.to_nat bs)%nat)
      by (rewrite length_take; lia).
    split; [by rewrite xor_twice by lia|].
    split; [rewrite length_xor; lia|].
    split; [by destruct r|].
    exists n, (drop (Z.to_nat bs) (x :: d)). split; [done|]. intros Hd.
    apply Forall_app. split; [done|]. repeat constructor. unfold full.
    rewrite length_xor, length_take.
    assert (Z.to_nat bs < length (x :: d))%nat; [|lia].
    destruct (decide (Z.to_nat bs < length (x :: d))%nat); [done|].
    rewrite drop_ge in Hd by lia. done.
Qed.

Variable D : CipherFunc.
Hypothesis HD : forall b, len b = bs -> D (E b) = b.

Lemma cbc_run_roundtrip (r ps : list bytes) :
  r <> [] -> Forall full r -> Forall full ps ->
  exists cs, reg_run (fun h p => (E (xor h p), E (xor h p))) r ps = MOk cs /\
             reg_run (fun h c => (xor h (D c), c)) r cs = MOk ps /\
             map length cs = map length ps.
Proof.
  intros Hne Hr Hps.
  apply (reg_run_roundtrip _ _
    (fun r ps => r <> [] /\ Forall full r /\ Forall full ps)); [|done].
  clear Hne Hr Hps r ps. intros r p ps (Hne & Hr & Hps).
  destruct r as [|h r]; [done|]. exists h, r. split; [done|].
  apply Forall_cons in Hr as [Hh Hr]. apply Forall_cons in Hps as [Hp Hps].
  unfold full in Hh, Hp. cbn [fst snd].
  assert (Hx : full (xor h p)) by (unfold full; rewrite length_xor; lia).
  pose proof (E_full _ Hx) as HEx. unfold full in Hx, HEx.
  rewrite HD by (unfold len; lia).
  split; [by rewrite xor_twice by lia|]. split; [lia|].
  split; [by destruct r|]. split; [|done].
  apply Forall_app. split; [done|]. by repeat constructor.
Qed.

End RegisterModes.

(** ** Electronic codebook *)

Lemma ecb_loop_run (f : CipherFunc) (bs : Z) (data : bytes) (n k : nat)
    (res : bytes) :
  0 < bs -> keeps_block_length f bs ->
  ((k + n) * Z.to_nat bs <= length data)%nat ->
  ((k + n) * Z.to_nat bs <= length res)%nat ->
  ecb_loop f bs data n (Z.of_nat k * bs) res (Z.of_nat k * bs)
  = MOk (take (k * Z.to_nat bs) res
         ++ concat (map f (blocks (Z.to_nat bs) n
                             (drop (k * Z.to_nat bs) data)))
         ++ drop ((k + n) * Z.to_nat bs) res).
Proof.
  intros Hbs Hf. revert k res. induction n as [|n IH]; intros k res Hd Hr.
  - cbn [ecb_loop blocks map concat]. rewrite Nat.add_0_r.
    by rewrite app_nil_l, take_drop.
  - cbn [ecb_loop blocks map concat]. rewrite subarray_chunk by lia.
    replace (Z.to_nat (Z.of_nat k * bs)) with (k * Z.to_nat bs)%nat by lia.
    set (c := f (take (Z.to_nat bs) (drop (k * Z.to_nat bs) data))).
    assert (Hc : length c = Z.to_nat bs).
    { pose proof (Hf (take (Z.to_nat bs) (drop (k * Z.to_nat bs) data))) as H.
      unfold len in H. rewrite length_take, length_drop in H.
      subst c. lia. }
    unfold typed_set, len. rewrite Hc.
    destruct (_ || _) eqn:Hb.
    { assert (0 <= Z.of_nat k * bs) by nia.
      assert (Z.of_nat (length res)
              >= Z.of_nat k * bs + bs + Z.of_nat n * bs) by nia.
      assert (0 <= Z.of_nat n * bs) by nia.
      apply orb_true_iff in Hb as [Hb|Hb].
      - apply Z.ltb_lt in Hb. lia.
      - rewrite Z.gtb_ltb in Hb. apply Z.ltb_lt in Hb. lia. }
    cbn [mbind mresult_bind].
    replace (Z.of_nat k * bs + Z.of_nat (Z.to_nat bs))
      with (Z.of_nat (S k) * bs) by lia.
    replace (Z.of_nat k * bs + bs) with (Z.of_nat (S k) * bs) by lia.
    replace (Z.to_nat (Z.of_nat k * bs)) with (k * Z.to_nat bs)%nat by lia.
    unfold array_set. rewrite Hc.
    rewrite IH by (rewrite ?length_app, ?length_take, ?length_drop; lia).
    f_equal. rewrite drop_drop.
    replace (k * Z.to_nat bs + Z.to_nat bs)%nat with (S k * Z.to_nat bs)%nat
      by lia.
    assert (Hp : length (take (k * Z.to_nat bs) res ++ c)
                 = (S k * Z.to_nat bs)%nat).
    { rewrite length_app, length_take. lia. }
    rewrite (app_assoc _ c).
    rewrite take_app_length' by done.
    rewrite drop_app_ge by (rewrite Hp; apply Nat.mul_le_mono_r; lia).
    rewrite Hp, drop_drop.
    rewrite <- !app_assoc. do 3 f_equal.
    replace ((S k + n) * Z.to_nat bs)%nat
      with (S k * Z.to_nat bs + n * Z.to_nat bs)%nat by lia.
    f_equal. lia.
Qed.

Lemma ecb_encrypt_blocks (f : CipherFunc) (bs : Z) (data : bytes) (m : nat) :
  0 < bs -> keeps_block_length f bs -> (0 < m)%nat ->
  len data = Z.of_nat m * bs ->
  ecb_encrypt f bs data
  = MOk (concat (map f (blocks (Z.to_nat bs) m data))).
Proof.
  intros Hbs Hf Hm Hl. unfold ecb_encrypt.
  rewrite Hl, aligned_ok, ceil_div_exact, Nat2Z.id by done.
  pose proof (ecb_loop_run f bs data m 0 (zeros (Z.of_nat m * bs)) Hbs Hf)
    as H.
  change (Z.of_nat 0 * bs) with 0 in H. rewrite H.
  - rewrite Nat.mul_0_l, take_0, drop_0, app_nil_l.
    rewrite drop_ge, app_nil_r; [done|].
    unfold zeros. rewrite length_replicate. lia.
  - unfold len in Hl. lia.
  - unfold zeros. rewrite length_replicate. lia.
Qed.

Lemma map_blocks_lengths (f : CipherFunc) (bs : Z) (ps : list bytes) :
  0 < bs -> keeps_block_length f bs ->
  Forall (fun b => length b = Z.to_nat bs) ps ->
  map length (map f ps) = map length ps.
Proof.
  intros Hbs Hf Hps. induction Hps as [|p ps Hp _ IH]; [done|]. simpl.
  rewrite IH. f_equal. pose proof (Hf p) as H. unfold len in H.
  lia.
Qed.

Lemma length_concat_lengths {A : Type} (xs ys : list (list A)) :
  map length xs = map length ys -> length (concat xs) = length (concat ys).
Proof.
  revert ys. induction xs as [|x xs IH]; intros [|y ys] [=]; [done|].
  simpl. rewrite !length_app. by rewrite (IH ys) by done; lia.
Qed.

(** X1.  ECB round trip.  For a positive block size, a block function [E]
    that maps blocks to blocks and a [D] that inverts it on blocks,
    [ecb_encrypt] of a non-empty input whose length is a multiple of the
    block size returns a ciphertext as long as the input, and [ecb_decrypt]
    turns it back into the input. *)
Theorem ecb_roundtrip (E D : CipherFunc) (bs : Z) (data : bytes) :
  0 < bs -> keeps_block_length E bs -> keeps_block_length D bs ->
  (forall b, len b = bs -> D (E b) = b) ->
  data <> [] -> len data mod bs = 0 ->
  exists c, ecb_encrypt E bs data = MOk c /\ len c = len data /\
            ecb_decrypt D bs c = MOk data.
Proof.
  intros Hbs HE HD HDE Hne Hmod.
  pose proof (aligned_mod _ _ Hbs Hne Hmod) as Hal.
  destruct (aligned_inv _ _ Hbs (len_nonneg data) Hal) as (m & Hm & Hl).
  set (ps := blocks (Z.to_nat bs) m data).
  assert (Hfull : Forall (fun b => length b = Z.to_nat bs) ps).
  { apply blocks_full. unfold len in Hl. lia. }
  assert (Hls : map length (map E ps) = map length ps)
    by (by apply (map_blocks_lengths E bs)).
  assert (Hc : len (concat (map E ps)) = len data).
  { unfold len. rewrite (length_concat_lengths _ ps) by done.
    subst ps. rewrite concat_blocks; [done|]. unfold len in Hl. lia. }
  exists (concat (map E ps)). split; [|split; [done|]].
  - by apply ecb_encrypt_blocks.
  - unfold ecb_decrypt. fold (ecb_encrypt D bs (concat (map E ps))).
    rewrite (ecb_encrypt_blocks D bs _ m) by (done || lia).
    rewrite (blocks_concat _ _ data) by done. f_equal.
    rewrite map_map. transitivity (concat ps).
    + f_equal. clear Hls Hc. induction Hfull as [|p ps' Hp _ IH]; [done|].
      simpl. rewrite HDE, IH; [done|]. unfold len. lia.
    + apply concat_blocks. unfold len in Hl. lia.
Qed.

Lemma complement_keeps_length (key : bytes) (bs : Z) :
  keeps_block_length (complement_cipher key) bs.
Proof. intros b Hb. unfold complement_cipher, len. by rewrite length_map. Qed.

Lemma complement_involutive (key b : bytes) :
  complement_cipher key (complement_cipher key b) = b.
Proof.
  unfold complement_cipher. rewrite map_map. induction b as [|x b IH]; [done|].
  simpl. rewrite IH. f_equal.
  by rewrite <- Z.lxor_assoc, Z.lxor_nilpotent, Z.lxor_0_l.
Qed.

Lemma ecb_roundtrip_witness :
  exists c, ecb_encrypt (complement_cipher []) 2 [1; 2; 3; 4] = MOk c /\
            len c = len [1; 2; 3; 4] /\
            ecb_decrypt (complement_cipher []) 2 c = MOk [1; 2; 3; 4].
Proof.
  apply (ecb_roundtrip (complement_cipher []) (complement_cipher []) 2
           [1; 2; 3; 4]).
  - lia.
  - apply complement_keeps_length.
  - apply complement_keeps_length.
  - intros b _. apply complement_involutive.
  - discriminate.
  - reflexivity.
Defined.

(** ** ECB works block by block *)

(** X29.  ECB encrypts block by block: for a positive block size, a block
    function that maps blocks to blocks and two non-empty aligned inputs,
    the ciphertext of their concatenation is the concatenation of their
    ciphertexts, so equal plaintext blocks give equal ciphertext blocks. *)
Theorem ecb_blockwise (E : CipherFunc) (bs : Z) (a b : bytes) :
  0 < bs -> keeps_block_length E bs ->
  a <> [] -> len a mod bs = 0 -> b <> [] -> len b mod bs = 0 ->
  exists ca cb,
    ecb_encrypt E bs a = MOk ca /\ ecb_encrypt E bs b = MOk cb /\
    ecb_encrypt E bs (a ++ b) = MOk (ca ++ cb).
Proof.
  intros Hbs HE Ha Hma Hb Hmb.
  destruct (aligned_inv _ _ Hbs (len_nonneg a) (aligned_mod _ _ Hbs Ha Hma))
    as (ma & Hpa & Hla).
  destruct (aligned_inv _ _ Hbs (len_nonneg b) (aligned_mod _ _ Hbs Hb Hmb))
    as (mb & Hpb & Hlb).
  rewrite (ecb_encrypt_blocks E bs a ma), (ecb_encrypt_blocks E bs b mb)
    by done.
  rewrite (ecb_encrypt_blocks E bs (a ++ b) (ma + mb))
    by (done || lia || (rewrite len_app; lia)).
  eexists _, _. split; [done|]. split; [done|].
  rewrite blocks_app_full by (unfold len in Hla; lia).
  by rewrite map_app, concat_app.
Qed.

Lemma ecb_blockwise_witness :
  exists ca cb,
    ecb_encrypt (complement_cipher []) 2 [1; 2] = MOk ca /\
    ecb_encrypt (complement_cipher []) 2 [1; 2; 3; 4] = MOk cb /\
    ecb_encrypt (complement_cipher []) 2 ([1; 2] ++ [1; 2; 3; 4])
    = MOk (ca ++ cb).
Proof.
  apply (ecb_blockwise (complement_cipher []) 2 [1; 2] [1; 2; 3; 4]).
  - lia.
  - apply complement_keeps_length.
  - discriminate.
  - reflexivity.
  - discriminate.
  - reflexivity.
Defined.

(** ** Round trips of the register modes *)

(** The register built from an admissible initialization vector: at least
    one block, all of them full. *)
Lemma register_full (iv : bytes) (bs : Z) :
  0 < bs -> iv <> [] -> len iv mod bs = 0 ->
  register iv bs <> [] /\
  Forall (fun b => length b = Z.to_nat bs) (register iv bs).
Proof.
  intros Hbs Hne Hmod.
  destruct (aligned_inv _ _ Hbs (len_nonneg iv) (aligned_mod _ _ Hbs Hne Hmod))
    as (m & Hm & Hl).
  rewrite (register_eq iv bs m) by done. split.
  - intros Hnil. apply (f_equal length) in Hnil.
    rewrite length_blocks in Hnil. simpl in Hnil. lia.
  - apply blocks_full. unfold len in Hl. lia.
Qed.

(** The number of iterations of the loops of OFB and CFB covers the data. *)
Lemma padded_count (d : bytes) (bs : Z) :
  0 < bs ->
  (length d
   <= Z.to_nat (ceil_div (len d + getPadLength (len d) bs) bs)
      * Z.to_nat bs)%nat.
Proof.
  intros Hbs. pose proof (len_nonneg d) as Hl.
  destruct (getPadLength_spec (len d) bs Hbs Hl) as (Hp & Hm & _).
  apply Z.mod_divide in Hm as [q Hq]; [|lia]. rewrite Hq.
  rewrite ceil_div_exact by done. unfold len in *. nia.
Qed.

Lemma reg_mode_roundtrip (enc dec : bytes -> bytes -> bytes * bytes)
    (bs n : nat) (data : bytes) (r : list bytes) :
  (length data <= n * bs)%nat ->
  (exists cs, reg_run enc r (blocks bs n data) = MOk cs /\
              reg_run dec r cs = MOk (blocks bs n data) /\
              map length cs = map length (blocks bs n data)) ->
  exists c,
    (cs ← reg_run enc r (blocks bs n data); MOk (concatBytes cs)) = MOk c /\
    len c = len data /\
    (ps ← reg_run dec r (blocks bs n c); MOk (concatBytes ps)) = MOk data.
Proof.
  intros Hn (cs & Henc & Hdec & Hls). exists (concat cs).
  rewrite Henc. split; [done|]. split.
  - unfold len. rewrite (length_concat_lengths _ _ Hls).
    by rewrite concat_blocks.
  - rewrite (blocks_concat _ _ data) by done. rewrite Hdec.
    cbn [mbind mresult_bind]. unfold concatBytes. by rewrite concat_blocks.
Qed.

(** X2.  CBC round trip.  For a positive block size, a block function [E]
    that maps blocks to blocks and a [D] that inverts it on blocks, a
    non-empty input and an initialization vector of one or more whole
    blocks: [cbc_encrypt] returns a ciphertext as long as the input, and
    [cbc_decrypt] with the same vector turns it back into the input. *)
Theorem cbc_roundtrip (E D : CipherFunc) (bs : Z) (data iv : bytes) :
  0 < bs -> keeps_block_length E bs ->
  (forall b, len b = bs -> D (E b) = b) ->
  data <> [] -> len data mod bs = 0 ->
  iv <> [] -> len iv mod bs = 0 ->
  exists c, cbc_encrypt E bs data iv = MOk c /\ len c = len data /\
            cbc_decrypt D bs c iv = MOk data.
Proof.
  intros Hbs HE HDE Hd Hdm Hi Him.
  pose proof (aligned_mod _ _ Hbs Hd Hdm) as Hda.
  pose proof (aligned_mod _ _ Hbs Hi Him) as Hia.
  destruct (aligned_inv _ _ Hbs (len_nonneg data) Hda) as (m & Hm & Hl).
  destruct (register_full iv bs Hbs Hi Him) as [Hrne Hrfull].
  assert (Hfull : Forall (fun b => length b = Z.to_nat bs)
                    (blocks (Z.to_nat bs) m data)).
  { apply blocks_full. unfold len in Hl. lia. }
  destruct (reg_mode_roundtrip
              (fun h p => (E (xor h p), E (xor h p)))
              (fun h c => (xor h (D c), c))
              (Z.to_nat bs) m data (register iv bs))
    as (c & Henc & Hlen & Hdec).
  { unfold len in Hl. lia. }
  { by apply (cbc_run_roundtrip bs Hbs E HE D HDE). }
  exists c. split; [|split; [done|]].
  - unfold cbc_encrypt. rewrite Hda, Hia. change 0 with (Z.of_nat 0 * bs).
    rewrite cbc_encrypt_loop_run by done. rewrite Nat.mul_0_l, drop_0.
    by rewrite Hl, ceil_div_exact, Nat2Z.id.
  - unfold cbc_decrypt. rewrite Hlen, Hda, Hia.
    change 0 with (Z.of_nat 0 * bs).
    rewrite cbc_decrypt_loop_run by done. rewrite Nat.mul_0_l, drop_0.
    by rewrite Hl, ceil_div_exact, Nat2Z.id.
Qed.

Lemma cbc_roundtrip_witness :
  exists c,
    cbc_encrypt (complement_cipher []) 2 [1; 2; 3; 4] [9; 8; 7; 6] = MOk c /\
    len c = len [1; 2; 3; 4] /\
    cbc_decrypt (complement_cipher []) 2 c [9; 8; 7; 6] = MOk [1; 2; 3; 4].
Proof.
  apply (cbc_roundtrip (complement_cipher []) (complement_cipher []) 2
           [1; 2; 3; 4] [9; 8; 7; 6]).
  - lia.
  - apply complement_keeps_length.
  - intros b _. apply complement_involutive.
  - discriminate.
  - reflexivity.
  - discriminate.
  - reflexivity.
Defined.

(** X3.  CFB round trip.  For a positive block size, a block function [E]
    that maps blocks to blocks and an initialization vector of one or more
    whole blocks: [cfb_encrypt] accepts an input of any length, the empty one
    included, and returns a ciphertext as long as the input; [cfb_decrypt]
    with the same function [E] and the same vector turns it back into the
    input. *)
Theorem cfb_roundtrip (E : CipherFunc) (bs : Z) (data iv : bytes) :
  0 < bs -> keeps_block_length E bs ->
  iv <> [] -> len iv mod bs = 0 ->
  exists c, cfb_encrypt E bs data iv = MOk c /\ len c = len data /\
            cfb_decrypt E bs c iv = MOk data.
Proof.
  intros Hbs HE Hi Him.
  pose proof (aligned_mod _ _ Hbs Hi Him) as Hia.
  destruct (register_full iv bs Hbs Hi Him) as [Hrne Hrfull].
  set (n := Z.to_nat (ceil_div (len data + getPadLength (len data) bs) bs)).
  destruct (reg_mode_roundtrip
              (fun h p => (xor (E h) p, xor (E h) p))
              (fun h c => (xor (E h) c, c))
              (Z.to_nat bs) n data (register iv bs))
    as (c & Henc & Hlen & Hdec).
  { by apply padded_count. }
  { by apply (cfb_run_roundtrip bs Hbs E HE). }
  exists c. split; [|split; [done|]].
  - unfold cfb_encrypt. rewrite Hia. change 0 with (Z.of_nat 0 * bs).
    rewrite cfb_encrypt_loop_run by done. by rewrite Nat.mul_0_l, drop_0.
  - unfold cfb_decrypt. rewrite Hlen, Hia. change 0 with (Z.of_nat 0 * bs).
    rewrite cfb_decrypt_loop_run by done. by rewrite Nat.mul_0_l, drop_0.
Qed.

Lemma cfb_roundtrip_witness :
  exists c,
    cfb_encrypt (complement_cipher []) 2 [1; 2; 3] [9; 8; 7; 6] = MOk c /\
    len c = len [1; 2; 3] /\
    cfb_decrypt (complement_cipher []) 2 c [9; 8; 7; 6] = MOk [1; 2; 3].
Proof.
  apply (cfb_roundtrip (complement_cipher []) 2 [1; 2; 3] [9; 8; 7; 6]).
  - lia.
  - apply complement_keeps_length.
  - discriminate.
  - reflexivity.
Defined.

(** X4.  OFB is its own inverse.  For a positive block size, a block
    function [E] that maps blocks to blocks and an initialization vector of
    one or more whole blocks: [ofb] accepts an input of any length, returns
    an output as long as the input, and applied to that output with the same
    function and vector it returns the input. *)
Theorem ofb_involution (E : CipherFunc) (bs : Z) (data iv : bytes) :
  0 < bs -> keeps_block_length E bs ->
  iv <> [] -> len iv mod bs = 0 ->
  exists c, ofb E bs data iv = MOk c /\ len c = len data /\
            ofb E bs c iv = MOk data.
Proof.
  intros Hbs HE Hi Him.
  pose proof (aligned_mod _ _ Hbs Hi Him) as Hia.
  destruct (register_full iv bs Hbs Hi Him) as [Hrne Hrfull].
  set (n := Z.to_nat (ceil_div (len data + getPadLength (len data) bs) bs)).
  destruct (reg_mode_roundtrip
              (fun h p => (xor (E h) p, E h))
              (fun h p => (xor (E h) p, E h))
              (Z.to_nat bs) n data (register iv bs))
    as (c & Henc & Hlen & Hdec).
  { by apply padded_count. }
  { apply (ofb_run_roundtrip bs Hbs E HE); [done..|]. apply blocks_short. }
  exists c. split; [|split; [done|]].
  - unfold ofb. rewrite Hia. change 0 with (Z.of_nat 0 * bs).
    rewrite ofb_loop_run by done. by rewrite Nat.mul_0_l, drop_0.
  - unfold ofb. rewrite Hlen, Hia. change 0 with (Z.of_nat 0 * bs).
    rewrite ofb_loop_run by done. by rewrite Nat.mul_0_l, drop_0.
Qed.

Lemma ofb_involution_witness :
  exists c,
    ofb (complement_cipher []) 2 [1; 2; 3] [9; 8; 7; 6] = MOk c /\
    len c = len [1; 2; 3] /\
    ofb (complement_cipher []) 2 c [9; 8; 7; 6] = MOk [1; 2; 3].
Proof.
  apply (ofb_involution (complement_cipher []) 2 [1; 2; 3] [9; 8; 7; 6]).
  - lia.
  - apply complement_keeps_length.
  - discriminate.
  - reflexivity.
Defined.

(** ** Counter mode *)

Lemma ctr_rekey_keeps (acpkm : option ACPKMParameters) (sec bs c : Z)
    (E : CipherFunc) :
  keeps_block_length E bs ->
  (forall p key, acpkm = Some p -> keeps_block_length (cipherClass p key) bs) ->
  keeps_block_length (ctr_rekey acpkm sec bs c E) bs.
Proof.
  intros HE Hc. unfold ctr_rekey. destruct acpkm as [p|]; [|done].
  destruct (_ && _); [by apply Hc | done].
Qed.

(** The keystream of [ctr]: while the counter fits in half a block, every
    iteration yields one whole block. *)
Lemma ctr_loop_blocks (acpkm : option ACPKMParameters) (sec bs half : Z)
    (iv : bytes) (E : CipherFunc) (n : nat) (c : Z) :
  1 <= half -> len iv + half = bs ->
  keeps_block_length E bs ->
  (forall p key, acpkm = Some p -> keeps_block_length (cipherClass p key) bs) ->
  0 <= c -> c + Z.of_nat n <= 2 ^ (8 * half) ->
  exists ks, ctr_loop acpkm sec bs half iv E n c = Ok ks /\
             length ks = n /\
             Forall (fun b => length b = Z.to_nat bs) ks.
Proof.
  intros Hh Hiv HE Hcls. revert E HE c.
  induction n as [|n IH]; intros E HE c Hc Hn; [by exists []|].
  cbn [ctr_loop]. rewrite numberToBytesBE_fits by lia.
  cbn [mbind result_bind].
  pose proof (ctr_rekey_keeps acpkm sec bs c E HE Hcls) as HE'.
  destruct (IH _ HE' (c + 1)) as (ks & -> & Hl & Hks); [lia..|].
  cbn [mbind result_bind]. eexists. split; [done|]. split; [simpl; lia|].
  constructor; [|done].
  pose proof (HE' (concatBytes [iv; be_bytes (Z.to_nat half) c])) as H.
  unfold len, concatBytes in H. simpl in H.
  rewrite app_nil_r, length_app, length_be_bytes in H.
  unfold len in Hiv. unfold concatBytes. simpl. rewrite app_nil_r. lia.
Qed.

Lemma length_concat_full (bs : nat) (ks : list bytes) :
  Forall (fun b => length b = bs) ks ->
  length (concat ks) = (length ks * bs)%nat.
Proof.
  induction 1 as [|k ks Hk _ IH]; [done|].
  simpl. rewrite length_app, IH, Hk. lia.
Qed.

(** The section length in blocks that [ctr] computes. *)
Lemma ctr_guards (E : CipherFunc) (bs : Z) (data iv : bytes)
    (acpkm : option ACPKMParameters) :
  0 < bs < 2 ^ 32 -> bs mod 2 = 0 ->
  len iv = idiv32 bs 2 ->
  len data <= 2 ^ (4 * bs) * bs ->
  1 <= bs / 2 /\ len iv + bs / 2 = bs /\
  Z.of_nat (Z.to_nat (ceil_div (len data) bs)) <= 2 ^ (8 * (bs / 2)) /\
  (length data <= Z.to_nat (ceil_div (len data) bs) * Z.to_nat bs)%nat /\
  ctr E bs data iv acpkm =
    (ks ← ctr_loop acpkm
            (match acpkm with
             | Some p => idiv32 (sectionSize p) bs
             | None => 0
             end) bs (bs / 2) iv E (Z.to_nat (ceil_div (len data) bs)) 0;
     Ok (xor (concatBytes ks) data)).
Proof.
  intros Hbs Heven Hiv Hmax.
  assert (Hhalf : idiv32 bs 2 = bs / 2).
  { apply idiv32_small; [lia..|]. apply Z.div_lt_upper_bound; lia. }
  rewrite Hhalf in Hiv.
  assert (Hb2 : bs = 2 * (bs / 2)).
  { rewrite (Z.div_mod bs 2) at 1 by lia. rewrite Heven. lia. }
  assert (H84 : 8 * (bs / 2) = 4 * bs).
  { revert Hb2. generalize (bs / 2). intros h Hh. lia. }
  pose proof (len_nonneg data) as Hl.
  assert (Hceil : 0 <= ceil_div (len data) bs <= 2 ^ (4 * bs)).
  { unfold ceil_div. split; [apply Z.div_pos; lia|].
    apply Z.lt_succ_r, Z.div_lt_upper_bound; lia. }
  assert (Hcover : len data <= ceil_div (len data) bs * bs).
  { unfold ceil_div. pose proof (Z.div_mod (len data + bs - 1) bs).
    pose proof (Z.mod_pos_bound (len data + bs - 1) bs). lia. }
  split; [revert Hb2; generalize (bs / 2); intros; lia|].
  split; [revert Hiv Hb2; generalize (bs / 2); intros; lia|].
  split; [rewrite H84; lia|]. split; [unfold len in *; nia|].
  unfold ctr. rewrite Hhalf, Hiv, Z.eqb_refl. cbn [negb].
  rewrite Z.shiftl_1_l, H84.
  by destruct (len data >? _) eqn:Hgt; [lia|].
Qed.

(** [ctr] xors the data with a keystream that depends on the length of the
    data only, and that is at least as long. *)
Lemma ctr_keystream (E : CipherFunc) (bs : Z) (data iv : bytes)
    (acpkm : option ACPKMParameters) :
  0 < bs < 2 ^ 32 -> bs mod 2 = 0 ->
  keeps_block_length E bs ->
  (forall p key, acpkm = Some p -> keeps_block_length (cipherClass p key) bs) ->
  len iv = idiv32 bs 2 ->
  len data <= 2 ^ (4 * bs) * bs ->
  exists ks : bytes,
    (length data <= length ks)%nat /\
    forall d, len d = len data -> ctr E bs d iv acpkm = Ok (xor ks d).
Proof.
  intros Hbs Heven HE Hcls Hiv Hmax.
  destruct (ctr_guards E bs data iv acpkm) as (Hh & Hivh & Hn & Hcov & _);
    [done..|].
  destruct (ctr_loop_blocks acpkm
              (match acpkm with
               | Some p => idiv32 (sectionSize p) bs
               | None => 0
               end) bs (bs / 2) iv E (Z.to_nat (ceil_div (len data) bs)) 0)
    as (ks & Hks & Hlen & Hfull); [done | done | done | done | lia | lia |].
  exists (concat ks). split.
  - by rewrite (length_concat_full _ _ Hfull), Hlen.
  - intros d Hd.
    destruct (ctr_guards E bs d iv acpkm) as (_ & _ & _ & _ & ->);
      [done | done | done | lia |].
    by rewrite Hd, Hks.
Qed.

(** X5.  CTR is its own inverse, with and without ACPKM re-keying.  For an
    even block size below 2^32, block functions (the given one and those of
    the cipher class) that map blocks to blocks, an initialization vector of
    half a block and data of at most [2^(4 * blockSize)] blocks: [ctr]
    returns an output as long as the input, and applied to that output with
    the same arguments it returns the input. *)
Theorem ctr_involution (E : CipherFunc) (bs : Z) (data iv : bytes)
    (acpkm : option ACPKMParameters) :
  0 < bs < 2 ^ 32 -> bs mod 2 = 0 ->
  keeps_block_length E bs ->
  (forall p key, acpkm = Some p -> keeps_block_length (cipherClass p key) bs) ->
  len iv = idiv32 bs 2 ->
  len data <= 2 ^ (4 * bs) * bs ->
  exists c, ctr E bs data iv acpkm = Ok c /\ len c = len data /\
            ctr E bs c iv acpkm = Ok data.
Proof.
  intros Hbs Heven HE Hcls Hiv Hmax.
  destruct (ctr_keystream E bs data iv acpkm) as (ks & Hlk & Hctr);
    [done..|].
  assert (Hlc : len (xor ks data) = len data).
  { unfold len. rewrite length_xor. lia. }
  exists (xor ks data). split; [by apply Hctr|]. split; [done|].
  rewrite Hctr by done. f_equal. by apply xor_twice.
Qed.

Lemma ctr_involution_witness :
  let acpkm := Some {| cipherClass := complement_cipher; sectionSize := 8 |} in
  exists c,
    ctr (fun b => b) 8 [1; 2; 3; 4; 5; 6; 7; 8; 9; 10] [0; 0; 0; 9] acpkm
    = Ok c /\
    len c = len [1; 2; 3; 4; 5; 6; 7; 8; 9; 10] /\
    ctr (fun b => b) 8 c [0; 0; 0; 9] acpkm
    = Ok [1; 2; 3; 4; 5; 6; 7; 8; 9; 10].
Proof.
  intros acpkm.
  apply (ctr_involution (fun b => b) 8 [1; 2; 3; 4; 5; 6; 7; 8; 9; 10]
           [0; 0; 0; 9] acpkm).
  - lia.
  - reflexivity.
  - by intros b Hb.
  - intros p key [= <-]. apply complement_keeps_length.
  - reflexivity.
  - vm_compute. discriminate.
Defined.

(** X6.  Below 2^31 blocks per section, a section size that is a multiple
    of the block size and covers the data rounded up to whole blocks never
    triggers a key change: [ctr_acpkm] returns what [ctr] without ACPKM
    returns, exceptions included. *)
Theorem ctr_acpkm_one_section (cipherClass : ACPKMConstructor)
    (E : CipherFunc) (N bs : Z) (data iv : bytes) :
  bs = 8 \/ bs = 16 ->
  N mod bs = 0 ->
  ceil_div (len data) bs * bs <= N ->
  N / bs < 2 ^ 31 ->
  ctr_acpkm cipherClass E N bs data iv = ctr E bs data iv None.
Proof. apply ctr_acpkm_no_rekey. Qed.

Lemma ctr_acpkm_one_section_witness :
  ctr_acpkm complement_cipher (fun b => b) 16 8 (zeros 16) [0; 0; 0; 0]
  = ctr (fun b => b) 8 (zeros 16) [0; 0; 0; 0] None.
Proof.
  apply (ctr_acpkm_one_section complement_cipher (fun b => b) 16 8 (zeros 16)
           [0; 0; 0; 0]).
  - by left.
  - reflexivity.
  - vm_compute. discriminate.
  - reflexivity.
Defined.

(** ** Counter mode on a prefix *)

Lemma ctr_loop_prefix (acpkm : option ACPKMParameters) (sec bs half : Z)
    (iv : bytes) (E : CipherFunc) (n k : nat) (c : Z) (ks : list bytes) :
  ctr_loop acpkm sec bs half iv E (n + k) c = Ok ks ->
  ctr_loop acpkm sec bs half iv E n c = Ok (take n ks).
Proof.
  revert E c ks. induction n as [|n IH]; intros E c ks; [done|].
  cbn [Nat.add ctr_loop].
  destruct (numberToBytesBE c half) as [b|]; [|done].
  cbn [mbind result_bind].
  destruct (ctr_loop acpkm sec bs half iv _ (n + k) (c + 1)) as [rest|] eqn:Hr;
    [|done].
  cbn [mbind result_bind]. intros [= <-].
  by rewrite (IH _ _ _ Hr).
Qed.

Lemma xor_take (k : nat) (a b : bytes) :
  take k (xor a b) = xor (take k a) (take k b).
Proof.
  revert a b. induction k as [|k IH]; intros [|x a] [|y b]; simpl; try done.
  by rewrite IH.
Qed.

Lemma xor_take_l (a b : bytes) : xor (take (length b) a) b = xor a b.
Proof.
  revert b. induction a as [|x a IH]; intros [|y b]; simpl; try done.
  by rewrite IH.
Qed.

Lemma ceil_div_mono (a b bs : Z) :
  0 < bs -> a <= b -> ceil_div a bs <= ceil_div b bs.
Proof. intros Hbs Hab. unfold ceil_div. apply Z.div_le_mono; lia. Qed.

(** X28.  CTR works on prefixes.  Under the conditions of the CTR round
    trip, the output for the first octets of a message is the beginning of
    the output for the whole message, key changes of ACPKM included. *)
Theorem ctr_prefix (E : CipherFunc) (bs : Z) (d d' iv c : bytes)
    (acpkm : option ACPKMParameters) :
  0 < bs < 2 ^ 32 -> bs mod 2 = 0 ->
  keeps_block_length E bs ->
  (forall p key, acpkm = Some p -> keeps_block_length (cipherClass p key) bs) ->
  len iv = idiv32 bs 2 ->
  len (d ++ d') <= 2 ^ (4 * bs) * bs ->
  ctr E bs (d ++ d') iv acpkm = Ok c ->
  ctr E bs d iv acpkm = Ok (take (length d) c).
Proof.
  intros Hbs Heven HE Hcls Hiv Hmax.
  pose proof (len_nonneg d) as Hd. pose proof (len_nonneg d') as Hd'.
  rewrite len_app in Hmax.
  destruct (ctr_guards E bs (d ++ d') iv acpkm) as (Hh & Hivh & Hn & _ & ->);
    [done | done | done | rewrite len_app; lia |].
  destruct (ctr_guards E bs d iv acpkm) as (_ & _ & _ & Hcov & ->);
    [done | done | done | lia |].
  set (n := Z.to_nat (ceil_div (len (d ++ d')) bs)) in *.
  set (n' := Z.to_nat (ceil_div (len d) bs)) in *.
  assert (Hle : (n' <= n)%nat).
  { unfold n, n'. apply Z2Nat.inj_le.
    - unfold ceil_div. apply Z.div_pos; lia.
    - unfold ceil_div. apply Z.div_pos; rewrite ?len_app; lia.
    - apply ceil_div_mono; [lia|]. rewrite len_app. lia. }
  destruct (ctr_loop_blocks acpkm
              (match acpkm with
               | Some p => idiv32 (sectionSize p) bs
               | None => 0
               end) bs (bs / 2) iv E n 0)
    as (ks & Hks & Hlen & Hfull); [done | done | done | done | lia | lia |].
  rewrite Hks. cbn [mbind result_bind]. intros [= <-].
  replace n with (n' + (n - n'))%nat in Hks by lia.
  rewrite (ctr_loop_prefix _ _ _ _ _ _ _ _ _ _ Hks).
  cbn [mbind result_bind]. f_equal. unfold concatBytes.
  rewrite xor_take, take_app_length.
  rewrite <- (take_drop n' ks) at 2. rewrite concat_app.
  assert (Hpre : length (concat (take n' ks)) = (n' * Z.to_nat bs)%nat).
  { rewrite (length_concat_full (Z.to_nat bs)) by (by apply Forall_take).
    rewrite length_take. by rewrite Nat.min_l by lia. }
  rewrite take_app_le by (rewrite Hpre; exact Hcov).
  by rewrite xor_take_l.
Qed.

Lemma ctr_prefix_witness :
  let acpkm := Some {| cipherClass := complement_cipher; sectionSize := 8 |} in
  ctr (fun b => b) 8 [1; 2; 3; 4; 5; 6; 7; 8; 9; 10] [0; 0; 0; 9] acpkm
  = Ok (take (length [1; 2; 3; 4; 5; 6; 7; 8; 9; 10])
          [1; 2; 3; 13; 5; 6; 7; 8; 246; 245; 244; 250; 242; 241; 240; 238;
           238; 237; 236; 226]).
Proof.
  intros acpkm.
  apply (ctr_prefix (fun b => b) 8 [1; 2; 3; 4; 5; 6; 7; 8; 9; 10]
           [11; 12; 13; 14; 15; 16; 17; 18; 19; 20] [0; 0; 0; 9]
           _ acpkm).
  - lia.
  - reflexivity.
  - by intros b Hb.
  - intros p key [= <-]. apply complement_keeps_length.
  - reflexivity.
  - vm_compute. discriminate.
  - vm_compute. reflexivity.
Defined.

(** ** Conversions of [utils.ts] *)

Lemma xor_comm (a b : bytes) : xor a b = xor b a.
Proof.
  revert b. induction a as [|x a IH]; intros [|y b]; simpl; [done..|].
  by rewrite Z.lxor_comm, IH.
Qed.

(** X7.  [xor] has the length of its shorter argument, does not depend on
    the order of its arguments, and applied twice with the same first
    argument it gives back the second one, cut to the length of the
    first. *)
Theorem xor_keystream (a b : bytes) :
  len (xor a b) = Z.min (len a) (len b) /\
  xor a b = xor b a /\
  xor a (xor a b) = take (length a) b.
Proof.
  split; [|split].
  - unfold len. rewrite length_xor. lia.
  - apply xor_comm.
  - rewrite <- (app_nil_r (xor a b)). by apply xor_cancel.
Qed.

Lemma length_bytesToHex (b : bytes) :
  bytes_ok b -> length (bytesToHex b) = (2 * length b)%nat.
Proof.
  induction 1 as [|x b Hx Hb IH]; [done|].
  unfold bytesToHex in *. simpl flat_map.
  rewrite length_app, IH, hexes_byte by done. simpl. lia.
Qed.

Lemma hexToBytes_loop_bytesToHex (b : bytes) :
  bytes_ok b -> hexToBytes_loop (bytesToHex b) = Ok b.
Proof.
  induction 1 as [|x b Hx Hb IH]; [done|].
  unfold bytesToHex in *. simpl flat_map. rewrite hexes_byte by done.
  unfold byte_ok in Hx.
  assert (0 <= x / 16 < 16)
    by (split; [apply Z.div_pos; lia | apply Z.div_lt_upper_bound; lia]).
  pose proof (Z.mod_pos_bound x 16 ltac:(lia)).
  cbn [app hexToBytes_loop]. rewrite !asciiToBase16_digit_char by done.
  rewrite IH. cbn [mbind result_bind]. do 2 f_equal.
  pose proof (Z.div_mod x 16). lia.
Qed.

(** X8.  Hexadecimal round trip: [hexToBytes] reads back the octets that
    [bytesToHex] wrote. *)
Theorem hexToBytes_bytesToHex (b : bytes) :
  bytes_ok b -> hexToBytes (bytesToHex b) = Ok b.
Proof.
  intros Hb. unfold hexToBytes, len. rewrite length_bytesToHex by done.
  replace (Z.odd (Z.of_nat (2 * length b))) with false.
  - by apply hexToBytes_loop_bytesToHex.
  - symmetry. rewrite Nat2Z.inj_mul, Z.odd_mul. done.
Qed.

Lemma hexToBytes_bytesToHex_witness :
  hexToBytes (bytesToHex [0; 10; 0xFF; 0x80]) = Ok [0; 10; 0xFF; 0x80].
Proof.
  apply (hexToBytes_bytesToHex [0; 10; 0xFF; 0x80]).
  repeat constructor; unfold byte_ok; lia.
Defined.

(** [padStart] after [toString(16)]: the digits of [n], at least [t] of
    them. *)
Lemma padStart_toString16_max (n t : Z) :
  0 <= n ->
  padStart (toString16 n) t
  = map digit_char (be_digits (Nat.max (hex_digit_count n) (Z.to_nat t)) n).
Proof.
  intros Hn. rewrite toString16_nonneg by done. unfold padStart, len.
  rewrite length_map, length_be_digits.
  pose proof (hex_digit_count_bound n Hn) as Hb.
  set (c := hex_digit_count n) in *.
  replace (Nat.max c (Z.to_nat t)) with (Z.to_nat (t - Z.of_nat c) + c)%nat
    by lia.
  rewrite be_digits_pad by lia. rewrite map_app. f_equal.
  by rewrite map_replicate.
Qed.

Lemma odd_of_nat (k : nat) : Z.odd (Z.of_nat k) = Nat.odd k.
Proof.
  rewrite (Nat.div2_odd k) at 1.
  rewrite Nat2Z.inj_add, Nat2Z.inj_mul, Z.add_comm, Z.odd_add_mul_2.
  by destruct (Nat.odd k).
Qed.

Lemma numberToBytesBE_eval (n L : Z) :
  0 <= n ->
  let k := Nat.max (hex_digit_count n) (Z.to_nat (L * 2)) in
  numberToBytesBE n L =
    if Nat.odd k then Err (HexUnpadded (Z.of_nat k))
    else Ok (be_bytes (Nat.div2 k) n).
Proof.
  intros Hn k. unfold numberToBytesBE.
  rewrite padStart_toString16_max by done. fold k.
  unfold hexToBytes, len. rewrite length_map, length_be_digits.
  rewrite odd_of_nat.
  destruct (Nat.odd k) eqn:Ho; [done|].
  assert (Hk : k = (2 * Nat.div2 k)%nat).
  { rewrite (Nat.div2_odd k) at 1. rewrite Ho. simpl. lia. }
  rewrite Hk at 1.
  rewrite <- (app_nil_r (map digit_char _)).
  rewrite (hexToBytes_loop_digits _ _ [] []) by done.
  by rewrite app_nil_r.
Qed.

Lemma hex_digit_count_pos (n : Z) : (1 <= hex_digit_count n)%nat.
Proof.
  unfold hex_digit_count. destruct (n =? 0); [done|].
  pose proof (Z.log2_nonneg n). pose proof (Z.div_pos (Z.log2 n) 4). lia.
Qed.

(** X9.  [numberToBytesBE] pads and never truncates.  For a natural number
    [n], with [k] the larger of the number of hexadecimal digits of [n] and
    of [2 * len]: if [k] is odd the call throws the odd-length error of
    [hexToBytes]; otherwise it returns [k / 2] octets whose big-endian value
    is [n] itself. *)
Theorem numberToBytesBE_never_truncates (n L : Z) :
  0 <= n ->
  let k := Z.max (Z.of_nat (hex_digit_count n)) (2 * L) in
  if Z.odd k then numberToBytesBE n L = Err (HexUnpadded k)
  else exists b, numberToBytesBE n L = Ok b /\ 2 * len b = k /\
                 bytes_ok b /\ be_value b = n.
Proof.
  intros Hn k. rewrite numberToBytesBE_eval by done.
  pose proof (hex_digit_count_pos n) as Hpos.
  pose proof (hex_digit_count_bound n Hn) as Hb.
  set (k' := Nat.max (hex_digit_count n) (Z.to_nat (L * 2))).
  assert (Hk : k = Z.of_nat k') by lia.
  assert (Ho : Z.odd k = Nat.odd k') by (rewrite Hk; apply odd_of_nat).
  rewrite Ho. destruct (Nat.odd k') eqn:Hodd; [by rewrite Hk|].
  assert (Hk2 : k' = (2 * Nat.div2 k')%nat).
  { rewrite (Nat.div2_odd k') at 1. rewrite Hodd. simpl. lia. }
  exists (be_bytes (Nat.div2 k') n). split; [done|].
  split; [unfold len; rewrite length_be_bytes; lia|].
  split; [apply be_bytes_ok|].
  apply be_value_be_bytes. split; [done|].
  eapply Z.lt_le_trans; [exact Hb|]. apply Z.pow_le_mono_r; lia.
Qed.

Lemma numberToBytesBE_never_truncates_witness :
  numberToBytesBE 0x10000 2 = Err (HexUnpadded 5) /\
  exists b, numberToBytesBE 0x100000 2 = Ok b /\ 2 * len b = 6 /\
            bytes_ok b /\ be_value b = 0x100000.
Proof.
  split.
  - apply (numberToBytesBE_never_truncates 0x10000 2). lia.
  - apply (numberToBytesBE_never_truncates 0x100000 2). lia.
Defined.

(** X10.  Number to octets and back: whenever [numberToBytesBE] returns for
    a natural number, [bytesToNumberBE] maps the result to that number. *)
Theorem bytesToNumberBE_numberToBytesBE (n L : Z) (b : bytes) :
  0 <= n -> numberToBytesBE n L = Ok b -> bytesToNumberBE b = Ok n.
Proof.
  intros Hn. rewrite numberToBytesBE_eval by done.
  destruct (Nat.odd _) eqn:Hodd; [done|]. intros [= <-].
  rewrite bytesToNumberBE_ok by apply be_bytes_ok. f_equal.
  apply be_value_be_bytes. split; [done|].
  pose proof (hex_digit_count_bound n Hn) as Hb.
  set (k := Nat.max _ _) in *.
  assert (Hk2 : k = (2 * Nat.div2 k)%nat).
  { rewrite (Nat.div2_odd k) at 1. rewrite Hodd. simpl. lia. }
  eapply Z.lt_le_trans; [exact Hb|]. apply Z.pow_le_mono_r; lia.
Qed.

Lemma bytesToNumberBE_numberToBytesBE_witness :
  bytesToNumberBE [0; 1; 2; 3] = Ok 0x10203.
Proof.
  apply (bytesToNumberBE_numberToBytesBE 0x10203 4 [0; 1; 2; 3]).
  - lia.
  - reflexivity.
Defined.

Lemma be_value_snoc (b : bytes) (x : Z) :
  be_value (b ++ [x]) = be_value b * 256 + x.
Proof. unfold be_value. by rewrite fold_left_app. Qed.

Lemma be_bytes_be_value (b : bytes) :
  bytes_ok b -> be_bytes (length b) (be_value b) = b.
Proof.
  induction b as [|x b IH] using rev_ind; intros Hb; [done|].
  apply Forall_app in Hb as [Hb Hx]. apply Forall_cons in Hx as [Hx _].
  unfold byte_ok in Hx.
  rewrite length_app, be_value_snoc. simpl length.
  replace (length b + 1)%nat with (S (length b)) by lia. simpl be_bytes.
  replace ((be_value b * 256 + x) / 256) with (be_value b)
    by (apply (Z.div_unique _ _ _ x); lia).
  replace ((be_value b * 256 + x) mod 256) with x
    by (apply (Z.mod_unique _ _ (be_value b)); lia).
  by rewrite IH.
Qed.

(** X11.  Octets to number and back: a non-empty octet sequence is what
    [numberToBytesBE] returns for its [bytesToNumberBE] value at its own
    length; the empty sequence has the value 0, which [numberToBytesBE]
    refuses at length 0. *)
Theorem numberToBytesBE_bytesToNumberBE (b : bytes) :
  bytes_ok b ->
  (v ← bytesToNumberBE b; numberToBytesBE v (len b))
  = if decide (b = []) then Err (HexUnpadded 1) else Ok b.
Proof.
  intros Hb. rewrite bytesToNumberBE_ok by done. cbn [mbind result_bind].
  destruct (decide (b = [])) as [->|Hne]; [done|].
  assert (1 <= len b) by (destruct b; [done|]; unfold len; simpl; lia).
  rewrite numberToBytesBE_fits by (by try apply be_value_bound).
  unfold len. rewrite Nat2Z.id. by rewrite be_bytes_be_value.
Qed.

Lemma numberToBytesBE_bytesToNumberBE_witness :
  (v ← bytesToNumberBE [0; 0; 0xFF; 0x80]; numberToBytesBE v 4)
  = Ok [0; 0; 0xFF; 0x80].
Proof.
  apply (numberToBytesBE_bytesToNumberBE [0; 0; 0xFF; 0x80]).
  repeat constructor; unfold byte_ok; lia.
Defined.

(** ** Padding procedures 2 and 3 *)

Lemma len_marked (x : bytes) (k : Z) :
  0 <= k -> len (x ++ 0x80 :: zeros k) = len x + 1 + k.
Proof.
  intros Hk. rewrite len_app. unfold len at 2. simpl length.
  rewrite Nat2Z.inj_succ. fold (len (zeros k)). rewrite len_zeros by lia. lia.
Qed.

(** X12.  [pad2] appends the marker 0x80 and then fewer than a block of zero
    octets, up to the next multiple of the block size: between 1 and
    [blockSize] octets are added, also to an input that is already
    aligned. *)
Theorem pad2_shape (data : bytes) (bs : Z) :
  0 < bs ->
  exists k : Z,
    pad2 data bs = data ++ 0x80 :: zeros k /\
    0 <= k < bs /\
    len (pad2 data bs) = len data + 1 + k /\
    (len data + 1 + k) mod bs = 0.
Proof.
  intros Hbs. pose proof (len_nonneg data) as Hl.
  destruct (getPadLength_spec (len data + 1) bs) as (Hp & Hm & Hlt & _);
    [lia..|].
  exists (getPadLength (len data + 1) bs). rewrite pad2_eq by done.
  split; [done|]. split; [lia|]. split; [|done].
  apply len_marked. lia.
Qed.

Lemma pad2_shape_witness :
  exists k : Z,
    pad2 [1; 2; 3; 4] 4 = [1; 2; 3; 4] ++ 0x80 :: zeros k /\
    0 <= k < 4 /\
    len (pad2 [1; 2; 3; 4] 4) = len [1; 2; 3; 4] + 1 + k /\
    (len [1; 2; 3; 4] + 1 + k) mod 4 = 0.
Proof. apply (pad2_shape [1; 2; 3; 4] 4). lia. Defined.

Lemma pad3_eq (data : bytes) (bs : Z) :
  0 < bs ->
  pad3 data bs
  = if decide (data <> [] /\ len data mod bs = 0) then data
    else pad2 data bs.
Proof.
  intros Hbs. pose proof (len_nonneg data) as Hl.
  unfold pad3, getPadLength, rem_eq0.
  destruct (bs =? 0) eqn:E0; [lia|].
  rewrite Z.rem_mod_nonneg by lia.
  pose proof (Z.mod_pos_bound (len data) bs Hbs) as Hm.
  destruct (decide (data <> [] /\ len data mod bs = 0)) as [[Hne H0]|Hn].
  - assert (0 < len data)
      by (destruct data; [done|]; unfold len; simpl; lia).
    assert (bs <= len data).
    { destruct (Z.lt_ge_cases (len data) bs) as [Hlt|]; [|done].
      rewrite Z.mod_small in H0 by lia. lia. }
    destruct (len data <? bs) eqn:E1; [lia|]. by rewrite H0.
  - destruct (len data <? bs) eqn:E1.
    + destruct (bs - len data =? 0) eqn:E2; [lia|done].
    + destruct (len data mod bs =? 0) eqn:E2.
      * exfalso. apply Z.ltb_ge in E1. apply Hn. split; [|lia].
        intros ->. unfold len in E1. simpl in E1. lia.
      * destruct (bs - len data mod bs =? 0) eqn:E3; [|done].
        apply Z.eqb_eq in E3. clear E2. lia.
Qed.

(** X13.  [pad3] returns its input unchanged exactly when the input is
    non-empty and its length is a multiple of the block size; every other
    input, the empty one included, is padded by [pad2].  The result is never
    empty and its length is a multiple of the block size. *)
Theorem pad3_cases (data : bytes) (bs : Z) :
  0 < bs ->
  pad3 data bs
  = (if decide (data <> [] /\ len data mod bs = 0) then data
     else pad2 data bs) /\
  0 < len (pad3 data bs) /\ len (pad3 data bs) mod bs = 0.
Proof.
  intros Hbs. pose proof (len_nonneg data) as Hl.
  split; [by apply pad3_eq|]. rewrite pad3_eq by done.
  destruct (decide _) as [[Hne H0]|_].
  - split; [|done]. destruct data; [done|]. unfold len. simpl. lia.
  - rewrite pad2_eq by done.
    destruct (getPadLength_spec (len data + 1) bs) as (Hp & Hm & _); [lia..|].
    rewrite len_marked by lia. split; [lia|done].
Qed.

Lemma pad3_cases_witness :
  pad3 [] 4 = pad2 [] 4 /\ 0 < len (pad3 [] 4) /\ len (pad3 [] 4) mod 4 = 0.
Proof. apply (pad3_cases [] 4). lia. Defined.

(** The marker search of [unpad2]: the last index below [i] that holds
    0x80, or [-1] when there is none. *)
Lemma find_marker_spec (l : bytes) (i : nat) :
  (find_marker l i = -1 /\ forall j, (j < i)%nat -> get0 l j <> 0x80) \/
  (exists p : nat, (p < i)%nat /\ find_marker l i = Z.of_nat p /\
     get0 l p = 0x80 /\
     forall j, (p < j < i)%nat -> get0 l j <> 0x80).
Proof.
  induction i as [|i IH].
  - left. split; [done|]. intros j Hj. lia.
  - simpl. destruct (get0 l i =? 128) eqn:E.
    + apply Z.eqb_eq in E. right. exists i. split; [lia|].
      split; [done|]. split; [done|]. intros j Hj. lia.
    + apply Z.eqb_neq in E. destruct IH as [[H1 Hn]|(p & Hp & H1 & Hg & Hn)].
      * left. split; [done|]. intros j Hj.
        destruct (decide (j = i)) as [->|]; [done|]. apply Hn. lia.
      * right. exists p. split; [lia|]. split; [done|]. split; [done|].
        intros j Hj. destruct (decide (j = i)) as [->|]; [done|].
        apply Hn. lia.
Qed.

Lemma forallb_zero_inv (l : bytes) :
  forallb (fun b => b =? 0) l = true -> l = replicate (length l) 0.
Proof.
  induction l as [|x l IH]; [done|]. simpl. intros H.
  apply andb_true_iff in H as [Hx Hl]. apply Z.eqb_eq in Hx. subst x.
  by rewrite <- IH.
Qed.

Lemma unpad2_marked (x : bytes) (k bs : Z) :
  0 < bs -> 0 <= k < bs -> bs <= len x + 1 + k ->
  unpad2 (x ++ 0x80 :: zeros k) bs = Ok x.
Proof.
  intros Hbs Hk Hge. pose proof (len_nonneg x) as Hl. unfold unpad2.
  assert (Htot : len (x ++ 128 :: zeros k) = len x + 1 + k)
    by (apply len_marked; lia).
  rewrite Htot.
  set (m := len x + 1 + k - bs).
  assert (Hm : 0 <= m <= len x) by (unfold m; lia).
  rewrite subarray_from_suffix by lia.
  rewrite drop_app_le by (unfold len in *; lia).
  unfold zeros.
  replace (length (drop (Z.to_nat m) x ++ 128 :: replicate (Z.to_nat k) 0))
    with (length (drop (Z.to_nat m) x) + 1 + Z.to_nat k)%nat
    by (rewrite length_app; simpl; rewrite length_replicate; lia).
  rewrite find_marker_found by lia.
  rewrite length_drop.
  destruct (Z.of_nat (length x - Z.to_nat m) =? -1) eqn:E;
    [apply Z.eqb_eq in E; lia|].
  replace (Z.to_nat (Z.of_nat (length x - Z.to_nat m) + 1))
    with (S (length (drop (Z.to_nat m) x))) by (rewrite length_drop; lia).
  rewrite drop_app_ge by lia.
  replace (S (length (drop (Z.to_nat m) x)) - length (drop (Z.to_nat m) x))%nat
    with 1%nat by lia.
  change (drop 1 (128 :: replicate (Z.to_nat k) 0))
    with (replicate (Z.to_nat k) 0).
  rewrite forallb_zero_replicate. simpl.
  rewrite subarray_prefix.
  2:{ fold (zeros k). rewrite Htot. unfold len in *. lia. }
  replace (Z.to_nat (len x + 1 + k - (bs - Z.of_nat (length x - Z.to_nat m))))
    with (length x) by (unfold len in *; lia).
  by rewrite take_app_length.
Qed.

Lemma unpad2_inv (data x : bytes) (bs : Z) :
  0 < bs <= len data -> unpad2 data bs = Ok x ->
  exists k, 0 <= k < bs /\ data = x ++ 0x80 :: zeros k.
Proof.
  intros Hbs. unfold unpad2.
  rewrite subarray_from_suffix by lia.
  set (m := Z.to_nat (len data - bs)).
  set (lb := drop m data).
  assert (Hlb : length lb = Z.to_nat bs)
    by (unfold lb, m; rewrite length_drop; unfold len in *; lia).
  destruct (find_marker_spec lb (length lb))
    as [[-> _]|(p & Hp & -> & Hg & _)]; [done|].
  destruct (Z.of_nat p =? -1) eqn:E; [apply Z.eqb_eq in E; lia|].
  destruct (forallb _ _) eqn:Hz; [|done]. cbn [negb].
  intros [= <-]. apply forallb_zero_inv in Hz.
  rewrite length_drop in Hz.
  replace (Z.to_nat (Z.of_nat p + 1)) with (S p) in Hz by lia.
  exists (Z.of_nat (length lb - S p)). split; [lia|].
  rewrite subarray_prefix by lia.
  replace (Z.to_nat (len data - (bs - Z.of_nat p))) with (m + p)%nat
    by (unfold m, len in *; lia).
  rewrite <- (take_drop (m + p) data) at 1. f_equal.
  rewrite <- drop_drop. fold lb.
  unfold get0 in Hg. destruct (lb !! p) as [y|] eqn:Hy.
  - simpl in Hg. subst y. rewrite (drop_S lb 128 p Hy). f_equal.
    unfold zeros. by rewrite Nat2Z.id.
  - apply lookup_ge_None in Hy. lia.
Qed.

(** X14.  What [unpad2] accepts.  On data of at least one block, [unpad2]
    returns [x] exactly when the data is [x] followed by the marker 0x80 and
    fewer than a block of zero octets; on every other such input it
    throws. *)
Theorem unpad2_accepts (data x : bytes) (bs : Z) :
  0 < bs <= len data ->
  unpad2 data bs = Ok x <->
  exists k, 0 <= k < bs /\ data = x ++ 0x80 :: zeros k.
Proof.
  intros Hbs. split; [by apply unpad2_inv|].
  intros (k & Hk & ->). apply unpad2_marked; [lia | done |].
  destruct Hbs as [_ Hle]. rewrite len_marked in Hle by lia. lia.
Qed.

Lemma unpad2_accepts_witness :
  unpad2 [7; 0x80; 0x80; 0] 4 = Ok [7; 0x80] <->
  exists k, 0 <= k < 4 /\ [7; 0x80; 0x80; 0] = [7; 0x80] ++ 0x80 :: zeros k.
Proof. apply (unpad2_accepts [7; 0x80; 0x80; 0] [7; 0x80] 4). done. Defined.

(** ** The subkeys of [mac] *)

Lemma macKs_step_eval (bs : Z) (l : bytes) :
  bs = 8 \/ bs = 16 -> wf_block bs l ->
  macKs_step bs (if bs =? 16 then Rb128 else Rb64) l =
    if be_value l <? 2 ^ (8 * bs - 1)
    then Ok (be_bytes (Z.to_nat bs) (2 * be_value l))
    else Err (HexUnpadded (bs * 2 + 1)).
Proof.
  intros Hbs [Hok Hlen]. rewrite <- omac_k2_macKs_step by done.
  assert (Hne : l <> []) by (intros ->; block_cases Hbs; done).
  pose proof (high_bit_value l Hok Hne) as Hb. rewrite Hlen in Hb.
  destruct (be_value l <? 2 ^ (8 * bs - 1)).
  - apply Z.eqb_eq in Hb. by apply omac_k2_low_bit.
  - apply Z.eqb_neq in Hb. by apply omac_k2_overflow.
Qed.

Lemma pow2_split (n k : Z) : 0 <= k <= n -> 2 ^ n = 2 ^ k * 2 ^ (n - k).
Proof. intros Hk. rewrite <- Z.pow_add_r by lia. f_equal. lia. Qed.

(** X15.  The subkeys of [mac].  Let [v] be the value of the block
    [encrypter(0...0)].  If its two top bits are clear, the subkeys are the
    blocks of value [2 * v] and [4 * v].  If one of them is set, [macKs]
    throws the odd-length error of [hexToBytes] instead of reducing by the
    polynomial [Rb], and so does [mac] on every input. *)
Theorem mac_subkeys (E : CipherFunc) (bs : Z) :
  bs = 8 \/ bs = 16 -> wf_block bs (E (zeros bs)) ->
  let v := be_value (E (zeros bs)) in
  (v < 2 ^ (8 * bs - 2) ->
   macKs E bs = Ok (be_bytes (Z.to_nat bs) (2 * v),
                    be_bytes (Z.to_nat bs) (4 * v))) /\
  (2 ^ (8 * bs - 2) <= v ->
   macKs E bs = Err (HexUnpadded (bs * 2 + 1)) /\
   forall data, mac E bs data = Err (HexUnpadded (bs * 2 + 1))).
Proof.
  intros Hbs Hwf v.
  pose proof (be_value_bound _ (proj1 Hwf)) as Hv.
  rewrite (proj2 Hwf) in Hv. fold v in Hv.
  assert (H1 : 2 ^ (8 * bs) = 2 * 2 ^ (8 * bs - 1)).
  { rewrite (pow2_split (8 * bs) 1) by (block_cases Hbs; lia). done. }
  assert (H2 : 2 ^ (8 * bs - 1) = 2 * 2 ^ (8 * bs - 2)).
  { rewrite (pow2_split (8 * bs - 1) 1) by (block_cases Hbs; lia).
    change (2 ^ 1) with 2. do 2 f_equal. lia. }
  assert (Hks : macKs E bs =
    if v <? 2 ^ (8 * bs - 2)
    then Ok (be_bytes (Z.to_nat bs) (2 * v), be_bytes (Z.to_nat bs) (4 * v))
    else Err (HexUnpadded (bs * 2 + 1))).
  { unfold macKs. rewrite macKs_step_eval by done. fold v.
    destruct (v <? 2 ^ (8 * bs - 1)) eqn:E1.
    - apply Z.ltb_lt in E1. cbn [mbind result_bind].
      assert (Hk1 : wf_block bs (be_bytes (Z.to_nat bs) (2 * v))).
      { split; [apply be_bytes_ok|]. unfold len. rewrite length_be_bytes.
        block_cases Hbs; lia. }
      rewrite macKs_step_eval by done.
      rewrite be_value_be_bytes
        by (replace (8 * Z.of_nat (Z.to_nat bs)) with (8 * bs)
              by (block_cases Hbs; lia); lia).
      destruct (v <? 2 ^ (8 * bs - 2)) eqn:E2.
      + apply Z.ltb_lt in E2.
        replace (2 * v <? 2 ^ (8 * bs - 1)) with true
          by (symmetry; apply Z.ltb_lt; lia).
        cbn [mbind result_bind]. do 3 f_equal. lia.
      + apply Z.ltb_ge in E2.
        replace (2 * v <? 2 ^ (8 * bs - 1)) with false
          by (symmetry; apply Z.ltb_ge; lia).
        done.
    - apply Z.ltb_ge in E1.
      replace (v <? 2 ^ (8 * bs - 2)) with false
        by (symmetry; apply Z.ltb_ge; lia).
      done. }
  split.
  - intros Hlow. rewrite Hks.
    by replace (v <? 2 ^ (8 * bs - 2)) with true
      by (symmetry; apply Z.ltb_lt; lia).
  - intros Hhigh.
    replace (v <? 2 ^ (8 * bs - 2)) with false in Hks
      by (symmetry; apply Z.ltb_ge; lia).
    split; [done|]. intros data. unfold mac. by rewrite Hks.
Qed.

Lemma mac_subkeys_witness :
  macKs (fun _ => [0; 0; 0; 0; 0; 0; 0; 3]) 8
  = Ok ([0; 0; 0; 0; 0; 0; 0; 6], [0; 0; 0; 0; 0; 0; 0; 12]) /\
  mac (fun _ => [0x40; 0; 0; 0; 0; 0; 0; 0]) 8 [1; 2; 3]
  = Err (HexUnpadded 17).
Proof.
  split.
  - apply (proj1 (mac_subkeys (fun _ => [0; 0; 0; 0; 0; 0; 0; 3]) 8
                    ltac:(by left)
                    ltac:(split; [repeat constructor; done | done]))).
    reflexivity.
  - apply (proj2 (mac_subkeys (fun _ => [0x40; 0; 0; 0; 0; 0; 0; 0]) 8
                    ltac:(by left)
                    ltac:(split; [repeat constructor; done | done]))).
    vm_compute. discriminate.
Defined.

(** X16.  The K2 step of [omac_acpkm_master] is the subkey step of [macKs]:
    on every block the two return the same block or throw the same
    exception. *)
Theorem omac_k2_is_macKs_step (bs : Z) (k1 : bytes) :
  bs = 8 \/ bs = 16 -> bytes_ok k1 -> len k1 = bs ->
  omac_k2 bs k1 = macKs_step bs (if bs =? 16 then Rb128 else Rb64) k1.
Proof. apply omac_k2_macKs_step. Qed.

Lemma omac_k2_is_macKs_step_witness :
  omac_k2 8 [0x80; 0; 0; 0; 0; 0; 0; 1]
  = macKs_step 8 Rb64 [0x80; 0; 0; 0; 0; 0; 0; 1].
Proof.
  apply (omac_k2_is_macKs_step 8 [0x80; 0; 0; 0; 0; 0; 0; 1]).
  - by left.
  - repeat constructor; done.
  - reflexivity.
Defined.

(** ** ACPKM key derivation *)

(** X17.  [acpkmDerivation] for block size 8 or 16: the constant
    0x80, ..., 0x9F is cut into blocks, each block is encrypted, and the
    results are joined; with a block function that maps blocks to blocks the
    derived key has [KEYSIZE] octets. *)
Theorem acpkmDerivation_blocks (E : CipherFunc) (bs : Z) :
  bs = 8 \/ bs = 16 ->
  acpkmDerivation E bs
  = concat (map E (blocks (Z.to_nat bs) (Z.to_nat (32 / bs))
                     (map Z.of_nat (seq 0x80 32)))) /\
  (keeps_block_length E bs -> len (acpkmDerivation E bs) = KEYSIZE).
Proof.
  intros Hbs.
  assert (Heq : acpkmDerivation E bs
    = concat (map E (blocks (Z.to_nat bs) (Z.to_nat (32 / bs))
                       (map Z.of_nat (seq 0x80 32)))))
    by (destruct Hbs as [-> | ->]; reflexivity).
  split; [done|]. intros HE. rewrite Heq. unfold len.
  assert (Hfull : Forall (fun b => length b = Z.to_nat bs)
            (map E (blocks (Z.to_nat bs) (Z.to_nat (32 / bs))
                      (map Z.of_nat (seq 0x80 32))))).
  { apply Forall_map. eapply Forall_impl.
    - apply blocks_full. destruct Hbs as [-> | ->]; reflexivity.
    - intros b Hb. simpl. pose proof (HE b) as H. unfold len in H.
      block_cases Hbs; lia. }
  rewrite (length_concat_full _ _ Hfull), length_map, length_blocks.
  destruct Hbs as [-> | ->]; reflexivity.
Qed.

Lemma acpkmDerivation_blocks_witness :
  acpkmDerivation (complement_cipher []) 16
  = concat (map (complement_cipher [])
              (blocks 16 2 (map Z.of_nat (seq 0x80 32)))) /\
  (keeps_block_length (complement_cipher []) 16 ->
   len (acpkmDerivation (complement_cipher []) 16) = KEYSIZE).
Proof.
  apply (acpkmDerivation_blocks (complement_cipher []) 16). by right.
Defined.

Lemma xor_zeros_r (ks : bytes) (n : nat) :
  xor ks (replicate n 0) = take n ks.
Proof.
  revert n. induction ks as [|k ks IH]; intros [|n]; simpl; [done..|].
  by rewrite Z.lxor_0_r, IH.
Qed.

(** X18.  [acpkmDerivationMaster] returns exactly [keyMaterialLength]
    octets.  For an even block size below 2^32, block functions that map
    blocks to blocks and a length of at most [2^(4 * blockSize)] blocks, the
    call returns, whatever the key section size. *)
Theorem acpkmDerivationMaster_length (cls : ACPKMConstructor)
    (E : CipherFunc) (T bs L : Z) :
  0 < bs < 2 ^ 32 -> bs mod 2 = 0 ->
  keeps_block_length E bs ->
  (forall key, keeps_block_length (cls key) bs) ->
  0 <= L <= 2 ^ (4 * bs) * bs ->
  exists km, acpkmDerivationMaster cls E T bs L = Ok km /\ len km = L.
Proof.
  intros Hbs Heven HE Hcls HL. unfold acpkmDerivationMaster, ctr_acpkm.
  assert (Hh : 0 <= idiv32 bs 2).
  { rewrite idiv32_small; [apply Z.div_pos; lia | lia | lia |].
    apply Z.div_lt_upper_bound; lia. }
  destruct (ctr_keystream E bs (zeros L)
              (replicate (Z.to_nat (idiv32 bs 2)) 0xFF)
              (Some {| cipherClass := cls; sectionSize := T |}))
    as (ks & Hlk & Hctr); [done | done | done | | | |].
  - intros p key [= <-]. apply Hcls.
  - unfold len. rewrite length_replicate. lia.
  - rewrite len_zeros; lia.
  - rewrite Hctr by done. eexists. split; [done|].
    unfold len, zeros in *. rewrite length_replicate in Hlk.
    rewrite xor_zeros_r, length_take. lia.
Qed.

Lemma acpkmDerivationMaster_length_witness :
  exists km,
    acpkmDerivationMaster complement_cipher (fun b => b) 16 8 40 = Ok km /\
    len km = 40.
Proof.
  apply (acpkmDerivationMaster_length complement_cipher (fun b => b) 16 8 40).
  - lia.
  - reflexivity.
  - by intros b Hb.
  - intros key. apply complement_keeps_length.
  - split; [lia|]. vm_compute. discriminate.
Defined.

(** ** [mac] as a CBC-MAC *)

Lemma xor_shuffle (a b c : bytes) : xor (xor a b) c = xor b (xor a c).
Proof.
  revert b c. induction a as [|x a IH]; intros [|y b] [|z c]; simpl;
    try done.
  rewrite IH. f_equal.
  rewrite (Z.lxor_comm x y), Z.lxor_assoc. done.
Qed.

Lemma mac_chain_fold (E : CipherFunc) (bs : Z) (data : bytes) (n k : nat)
    (prev : bytes) :
  0 < bs ->
  mac_chain E bs data n (Z.of_nat k * bs) prev
  = fold_left (fun prev blk => E (xor prev blk))
      (blocks (Z.to_nat bs) n (drop (k * Z.to_nat bs) data)) prev.
Proof.
  intros Hbs. revert k prev. induction n as [|n IH]; intros k prev; [done|].
  cbn [mac_chain blocks fold_left]. rewrite subarray_chunk by lia.
  replace (Z.of_nat k * bs + bs) with (Z.of_nat (S k) * bs) by lia.
  rewrite IH, drop_drop.
  replace (Z.to_nat (Z.of_nat k * bs)) with (k * Z.to_nat bs)%nat by lia.
  replace (S k * Z.to_nat bs)%nat with (k * Z.to_nat bs + Z.to_nat bs)%nat
    by lia.
  by rewrite (xor_comm prev).
Qed.

(** CBC over a register of one block: the last output block is the
    encryption of the last input block chained to the fold of the blocks
    before it. *)
Lemma cbc_chain_run (E : CipherFunc) (bs : nat) (ps : list bytes)
    (p prev : bytes) :
  (forall b, length b = bs -> length (E b) = bs) ->
  length prev = bs -> Forall (fun b => length b = bs) ps ->
  exists cs,
    reg_run (fun h q => (E (xor h q), E (xor h q))) [prev] (ps ++ [p])
    = MOk (cs ++ [E (xor (fold_left (fun prev blk => E (xor prev blk)) ps prev)
                       p)]) /\
    length (concat cs) = (length ps * bs)%nat.
Proof.
  intros HE. revert prev. induction ps as [|q ps IH]; intros prev Hprev Hps.
  - by exists [].
  - apply Forall_cons in Hps as [Hq Hps].
    assert (Hc : length (E (xor prev q)) = bs)
      by (apply HE; rewrite length_xor; lia).
    destruct (IH (E (xor prev q)) Hc Hps) as (cs & Hrun & Hlen).
    exists (E (xor prev q) :: cs).
    cbn [app reg_run r0 mbind mresult_bind fst snd fold_left].
    change (drop 1 [prev] ++ [E (xor prev q)]) with [E (xor prev q)].
    rewrite Hrun. cbn [mbind mresult_bind]. split; [done|].
    simpl. rewrite length_app, Hlen, Hc. lia.
Qed.

Lemma len_pad3_tail (tail : bytes) (bs : Z) :
  0 < bs -> len tail <= bs -> len (pad3 tail bs) = bs.
Proof.
  intros Hbs Hle. pose proof (len_nonneg tail) as Hl.
  rewrite pad3_eq by done.
  destruct (decide _) as [[Hne H0]|Hn].
  - assert (0 < len tail)
      by (destruct tail; [done|]; unfold len; simpl; lia).
    destruct (Z.eq_dec (len tail) bs) as [|Hneq]; [done|].
    rewrite Z.mod_small in H0 by lia. lia.
  - assert (Hlt : len tail < bs).
    { destruct (Z.eq_dec (len tail) bs) as [Heq|]; [|lia].
      exfalso. apply Hn. split.
      - intros ->. unfold len in Heq. simpl in Heq. lia.
      - rewrite Heq. apply Z.mod_same. lia. }
    rewrite pad2_eq by done.
    destruct (getPadLength_spec (len tail + 1) bs) as (Hp & Hm & Hk & _);
      [lia..|].
    specialize (Hk ltac:(lia)). rewrite len_marked by lia.
    set (k := getPadLength (len tail + 1) bs) in *.
    apply Z.mod_divide in Hm as [q Hq]; [|lia].
    assert (q = 1) by nia. lia.
Qed.

(** X27.  [mac] is a CBC-MAC.  Split the data into the whole blocks before
    the last block and the last block itself, which is whole, partial, or
    empty for empty data.  Then [mac] returns the last block of
    [cbc_encrypt], under the all-zero initialization vector, of the leading
    blocks followed by the padded last block masked with a subkey: the first
    subkey for a whole last block, the second one otherwise. *)
Theorem mac_is_cbc_mac (E : CipherFunc) (bs : Z) (head tail k1 k2 : bytes)
    (m : nat) :
  0 < bs -> keeps_block_length E bs ->
  macKs E bs = Ok (k1, k2) -> len k1 = bs -> len k2 = bs ->
  len head = Z.of_nat m * bs -> len tail <= bs ->
  (tail = [] -> head = []) ->
  exists c,
    cbc_encrypt E bs
      (head ++ xor (pad3 tail bs) (if len tail =? bs then k1 else k2))
      (zeros bs) = MOk c /\
    mac E bs (head ++ tail) = Ok (drop (m * Z.to_nat bs) c).
Proof.
  intros Hbs HE Hks Hk1 Hk2 Hhead Htail Hempty.
  pose proof (len_nonneg tail) as Hlt.
  set (K := if len tail =? bs then k1 else k2).
  assert (HK : len K = bs) by (unfold K; by destruct (_ =? _)).
  set (lst := xor (pad3 tail bs) K).
  assert (Hlst : length lst = Z.to_nat bs).
  { unfold lst. rewrite length_xor.
    pose proof (len_pad3_tail tail bs Hbs Htail). unfold len in *. lia. }
  assert (HE' : forall b, length b = Z.to_nat bs ->
                          length (E b) = Z.to_nat bs).
  { intros b Hb. pose proof (HE b) as H. unfold len in H. lia. }
  assert (Hhl : length head = (m * Z.to_nat bs)%nat)
    by (unfold len in Hhead; lia).
  assert (Hz : length (zeros bs) = Z.to_nat bs)
    by (unfold zeros; by rewrite length_replicate).
  destruct (cbc_chain_run E (Z.to_nat bs) (blocks (Z.to_nat bs) m head) lst
              (zeros bs) HE' Hz (blocks_full _ _ _ Hhl))
    as (cs & Hrun & Hcs).
  rewrite length_blocks in Hcs.
  exists (concat (cs ++ [E (xor (fold_left (fun prev blk => E (xor prev blk))
                                   (blocks (Z.to_nat bs) m head) (zeros bs))
                             lst)])).
  split.
  - unfold cbc_encrypt.
    assert (Hl : len (head ++ lst) = Z.of_nat (S m) * bs)
      by (rewrite len_app; unfold len in *; lia).
    rewrite Hl, aligned_ok by (done || lia).
    assert (Hzl : len (zeros bs) = Z.of_nat 1 * bs)
      by (rewrite len_zeros; lia).
    rewrite (register_eq (zeros bs) bs 1) by done.
    rewrite Hzl, aligned_ok by (done || lia).
    rewrite ceil_div_exact, Nat2Z.id by done.
    change 0 with (Z.of_nat 0 * bs).
    rewrite cbc_encrypt_loop_run by done. rewrite Nat.mul_0_l, drop_0.
    replace (S m) with (m + 1)%nat by lia.
    rewrite blocks_app_full by done.
    cbn [blocks]. rewrite !take_ge by lia.
    by rewrite Hrun.
  - unfold mac. rewrite Hks. cbn [mbind result_bind].
    rewrite len_app.
    assert (Hoff :
      (if rem_eq0 (len head + len tail) bs then len head + len tail - bs
       else len head + len tail - Z.rem (len head + len tail) bs)
      = if decide (tail = []) then - bs else len head).
    { unfold rem_eq0. destruct (bs =? 0) eqn:E0; [lia|].
      rewrite Z.rem_mod_nonneg by lia.
      assert (Hmod : (len head + len tail) mod bs = len tail mod bs)
        by (by rewrite Hhead, Z.add_comm, Z.mod_add by lia).
      rewrite Hmod.
      destruct (decide (tail = [])) as [->|Hne].
      - rewrite (Hempty eq_refl). unfold len. simpl length.
        change (Z.of_nat 0) with 0. rewrite Z.mod_0_l by lia. simpl. lia.
      - assert (0 < len tail)
          by (destruct tail; [done|]; unfold len; simpl; lia).
        destruct (Z.eq_dec (len tail) bs) as [Heq|Hneq].
        + rewrite Heq, Z.mod_same by lia. simpl. lia.
        + rewrite Z.mod_small by lia.
          destruct (len tail =? 0) eqn:E1; [lia|]. lia. }
    rewrite Hoff.
    assert (Hn : Z.to_nat (ceil_div (if decide (tail = []) then - bs
                                     else len head) bs) = m
                 /\ subarray_from (head ++ tail)
                      (if decide (tail = []) then - bs else len head) = tail).
    { destruct (decide (tail = [])) as [->|Hne].
      - rewrite (Hempty eq_refl) in *. unfold len in Hhead. simpl in Hhead.
        split.
        + unfold ceil_div. replace (- bs + bs - 1) with (- 1) by lia.
          assert (-1 / bs < 0) by (apply Z.div_lt_upper_bound; lia). nia.
        + unfold subarray_from, subarray. simpl app.
          by rewrite drop_nil, take_nil.
      - split.
        + rewrite Hhead, ceil_div_exact by done. lia.
        + apply subarray_from_app. }
    destruct Hn as [-> ->].
    change 0 with (Z.of_nat 0 * bs). rewrite mac_chain_fold by done.
    rewrite Nat.mul_0_l, drop_0.
    replace m with (m + 0)%nat at 1 by lia.
    rewrite blocks_app_full by done. cbn [blocks]. rewrite app_nil_r.
    fold K. f_equal. rewrite concat_app. simpl. rewrite app_nil_r.
    rewrite drop_app_ge by lia. rewrite Hcs, Nat.sub_diag, drop_0.
    f_equal. unfold lst. apply xor_shuffle.
Qed.

Lemma mac_is_cbc_mac_witness :
  exists c,
    cbc_encrypt (fun _ => [0; 0; 0; 0; 0; 0; 0; 1]) 8
      ([1; 2; 3; 4; 5; 6; 7; 8]
       ++ xor (pad3 [9; 10] 8) [0; 0; 0; 0; 0; 0; 0; 4])
      (zeros 8) = MOk c /\
    mac (fun _ => [0; 0; 0; 0; 0; 0; 0; 1]) 8
      ([1; 2; 3; 4; 5; 6; 7; 8] ++ [9; 10])
    = Ok (drop (1 * Z.to_nat 8) c).
Proof.
  apply (mac_is_cbc_mac (fun _ => [0; 0; 0; 0; 0; 0; 0; 1]) 8
           [1; 2; 3; 4; 5; 6; 7; 8] [9; 10]
           [0; 0; 0; 0; 0; 0; 0; 2] [0; 0; 0; 0; 0; 0; 0; 4] 1).
  - lia.
  - by intros b Hb.
  - reflexivity.
  - reflexivity.
  - reflexivity.
  - reflexivity.
  - vm_compute. discriminate.
  - discriminate.
Defined.

(** ** Sealed messages *)

Lemma identity_block_fn (bs : Z) : block_fn (fun b => b) bs.
Proof. by intros b Hb. Qed.

Lemma seal_open_roundtrip_witness :
  let this := identity_mgm 8 in
  let nb := [1; 2; 3; 4; 5; 6; 7; 8] in
  let h : heap := {[ 5%nat := nb ]} in
  let c := [0; 0; 0; 25; 66; 151; 58; 174; 44; 170; 237] in
  exists h2, open this 5%nat c [9] (<[6%nat := set_msb nb]> h)
             = (h2, Ok [1; 2; 3]).
Proof.
  intros this nb h c.
  apply (seal_open_roundtrip (fun b => b) 8 None this 5%nat h
           (<[6%nat := set_msb nb]> h) nb [1; 2; 3] [9] c).
  - reflexivity.
  - apply identity_block_fn.
  - reflexivity.
  - split; [repeat constructor; done | reflexivity].
  - repeat constructor; done.
  - repeat constructor; done.
  - vm_compute. reflexivity.
Defined.

Lemma identity_mgm_valid : valid_instance (identity_mgm 8).
Proof. repeat split; try done. by left. Qed.

Lemma seal_outcome_witness :
  let nb := [1; 2; 3; 4; 5; 6; 7; 8] in
  let h : heap := {[ 5%nat := nb ]} in
  overflow_or_ok (identity_mgm 8)
    (seal (identity_mgm 8) 5%nat [1; 2; 3] [9] h).2.
Proof.
  intros nb h.
  apply (seal_outcome (identity_mgm 8) identity_mgm_valid
           (identity_block_fn 8) 5%nat h nb [1; 2; 3] [9]).
  - reflexivity.
  - split; [repeat constructor; done | reflexivity].
  - repeat constructor; done.
  - repeat constructor; done.
  - reflexivity.
Defined.

(** X21.  The length of a sealed message: whenever [seal] returns, its
    result is as long as the plaintext plus the tag size. *)
Theorem seal_length (this : MGM) (nonce : loc) (h h1 : heap)
    (nb p ad c : bytes) :
  valid_instance this ->
  block_fn (encrypter this) (blockSize this) ->
  h !! nonce = Some nb -> wf_block (blockSize this) nb ->
  bytes_ok p -> bytes_ok ad ->
  seal this nonce p ad h = (h1, Ok c) ->
  len c = len p + tag_size this.
Proof.
  intros Hvalid HE Hn Hnb Hp Had.
  pose proof Hvalid as (Hbs & _).
  destruct (validateSizes this p ad) as [[]|e] eqn:Hv.
  2:{ unfold seal, seal_of, slice, mbind, M_bind, lift. by rewrite Hv. }
  rewrite (seal_eval _ _ _ _ _ nb Hn Hv). cbv zeta.
  destruct (crypt_body this (clear_msb nb) p) as [ct|e] eqn:Hc; [|done].
  destruct (auth_body this _ ct ad) as [tag|e] eqn:Ha; [|done].
  intros [= <- <-].
  pose proof (clear_msb_wf _ _ Hnb) as Hcwf.
  pose proof (set_msb_wf _ _ Hcwf) as Hswf.
  destruct (crypt_body_roundtrip this Hbs HE _ _ _ Hcwf Hc) as [Hlen _].
  pose proof (crypt_body_ok this Hbs HE _ _ _ Hcwf Hp Hc) as Hct.
  destruct (auth_body_inv this Hvalid HE _ _ _ _ Hswf Hct Had Ha)
    as (Htag & _).
  rewrite len_app, Htag. unfold len. lia.
Qed.

Lemma seal_length_witness :
  let nb := [1; 2; 3; 4; 5; 6; 7; 8] in
  let h : heap := {[ 5%nat := nb ]} in
  len [0; 0; 0; 25; 66; 151; 58; 174; 44; 170; 237]
  = len [1; 2; 3] + tag_size (identity_mgm 8).
Proof.
  intros nb h.
  apply (seal_length (identity_mgm 8) 5%nat h (<[6%nat := set_msb nb]> h)
           nb [1; 2; 3] [9]).
  - apply identity_mgm_valid.
  - apply identity_block_fn.
  - reflexivity.
  - split; [repeat constructor; done | reflexivity].
  - repeat constructor; done.
  - repeat constructor; done.
  - vm_compute. reflexivity.
Defined.

Lemma seal_result (this : MGM) (nonce : loc) (p ad : bytes) (h : heap)
    (nb : bytes) :
  h !! nonce = Some nb ->
  (seal this nonce p ad h).2 =
    (_ ← validateSizes this p ad;
     ct ← crypt_body this (clear_msb nb) p;
     tag ← auth_body this (set_msb (clear_msb nb)) ct ad;
     Ok (ct ++ tag)).
Proof.
  intros Hn. destruct (validateSizes this p ad) as [[]|e] eqn:Hv.
  2:{ unfold seal, seal_of, slice, mbind at 1, M_bind, lift. by rewrite Hv. }
  rewrite (seal_eval _ _ _ _ _ nb Hn Hv). cbv zeta. cbn [mbind result_bind].
  destruct (crypt_body this (clear_msb nb) p) as [ct|e]; [|done].
  cbn [mbind result_bind].
  by destruct (auth_body this _ ct ad).
Qed.

(** X22.  The top bit of the first nonce octet is ignored: two nonces that
    differ in that bit only make [seal] return the same sealed message, or
    throw the same exception. *)
Theorem seal_ignores_nonce_msb (this : MGM) (n n' : loc) (h h' : heap)
    (nb nb' p ad : bytes) :
  h !! n = Some nb -> h' !! n' = Some nb' ->
  clear_msb nb = clear_msb nb' ->
  (seal this n p ad h).2 = (seal this n' p ad h').2.
Proof.
  intros Hn Hn' Heq.
  by rewrite (seal_result _ _ _ _ _ nb Hn), (seal_result _ _ _ _ _ nb' Hn'),
    Heq.
Qed.

Lemma seal_ignores_nonce_msb_witness :
  let h : heap := {[ 5%nat := [0x01; 2; 3; 4; 5; 6; 7; 8];
                     7%nat := [0x81; 2; 3; 4; 5; 6; 7; 8] ]} in
  (seal (identity_mgm 8) 5%nat [1; 2; 3] [9] h).2
  = (seal (identity_mgm 8) 7%nat [1; 2; 3] [9] h).2.
Proof.
  intros h.
  apply (seal_ignores_nonce_msb (identity_mgm 8) 5%nat 7%nat h h
           [0x01; 2; 3; 4; 5; 6; 7; 8] [0x81; 2; 3; 4; 5; 6; 7; 8]).
  - reflexivity.
  - reflexivity.
  - reflexivity.
Defined.

(** ** Tag sizes *)

(** Two instances over the same block function and block size compute the
    same keystream and the same untruncated tag. *)
Lemma crypt_loop_ext (this this' : MGM) (f : nat) (enc data : bytes) :
  encrypter this' = encrypter this -> blockSize this' = blockSize this ->
  crypt_loop this' f enc data = crypt_loop this f enc data.
Proof.
  intros HE Hbs. revert enc data. induction f as [|f IH]; intros enc data.
  - by destruct data.
  - destruct data as [|x data]; [done|]. cbn [crypt_loop].
    rewrite HE, Hbs. destruct (incr_r enc (blockSize this)); [|done].
    cbn [mbind result_bind]. by rewrite IH.
Qed.

Lemma mul_ext (this this' : MGM) (a b : bytes) :
  blockSize this' = blockSize this -> r this' = r this ->
  mul this' a b = mul this a b.
Proof. intros Hbs Hr. unfold mul. by rewrite Hbs, Hr. Qed.

Lemma auth_loop_ext (this this' : MGM) (f : nat) (data : bytes)
    (st : bytes * bytes) :
  encrypter this' = encrypter this -> blockSize this' = blockSize this ->
  r this' = r this ->
  auth_loop this' f data st = auth_loop this f data st.
Proof.
  intros HE Hbs Hr. revert data st. induction f as [|f IH]; intros data st.
  - by destruct data.
  - destruct data as [|x data]; [done|]. cbn [auth_loop].
    rewrite HE, Hbs, (mul_ext this this') by done.
    destruct (mul this _ _); [|done]. cbn [mbind result_bind].
    destruct (incr_l st.2 (blockSize this)); [|done].
    cbn [mbind result_bind]. by rewrite IH.
Qed.

(** The tag before its truncation to [tag_size]. *)
Lemma auth_body_truncates (this : MGM) (icn text ad : bytes) :
  exists full : result bytes,
    forall this', encrypter this' = encrypter this ->
      blockSize this' = blockSize this -> r this' = r this ->
      auth_body this' icn text ad
      = (t ← full; Ok (subarray t 0 (tag_size this'))).
Proof.
  exists (st ← auth_loop this (length ad) ad
                  (zeros (blockSize this), encrypter this icn);
          st ← auth_loop this (length text) text st;
          la ← numberToBytesBE (len ad * 8) (idiv32 (blockSize this) 2);
          lt ← numberToBytesBE (len text * 8) (idiv32 (blockSize this) 2);
          m ← mul this (encrypter this st.2) (concatBytes [la; lt]);
          Ok (encrypter this (xor st.1 m))).
  intros this' HE Hbs Hr. unfold auth_body.
  rewrite !(auth_loop_ext this this') by done. rewrite HE, Hbs.
  destruct (auth_loop this (length ad) ad _) as [st1|]; [|done].
  cbn [mbind result_bind].
  rewrite !(auth_loop_ext this this') by done.
  destruct (auth_loop this (length text) text st1) as [st2|]; [|done].
  cbn [mbind result_bind].
  destruct (numberToBytesBE (len ad * 8) _) as [la|]; [|done].
  cbn [mbind result_bind].
  destruct (numberToBytesBE (len text * 8) _) as [lt|]; [|done].
  cbn [mbind result_bind].
  rewrite (mul_ext this this') by done.
  by destruct (mul this _ _).
Qed.

(** X23.  A shorter tag is a prefix of the default one.  For two instances
    built over the same block function and block size, one with the default
    tag size and one with tag size [t]: whenever the first seals a plaintext
    as a ciphertext of the length of the plaintext followed by a tag of
    [blockSize] octets, the second returns the same ciphertext followed by
    the first [t] octets of that tag, that is, the first
    [plaintext.length + t] octets of the first message, and leaves the same
    store. *)
Theorem seal_tag_truncation (E : CipherFunc) (bs t : Z) (this this_t : MGM)
    (nonce : loc) (h h1 : heap) (nb p ad c : bytes) :
  constructor E bs None = Ok this ->
  constructor E bs (Some t) = Ok this_t ->
  block_fn E bs ->
  h !! nonce = Some nb -> wf_block bs nb ->
  bytes_ok p -> bytes_ok ad ->
  seal this nonce p ad h = (h1, Ok c) ->
  exists ct tag,
    c = ct ++ tag /\ len ct = len p /\ len tag = bs /\
    seal this_t nonce p ad h = (h1, Ok (ct ++ take (Z.to_nat t) tag)) /\
    len (ct ++ take (Z.to_nat t) tag) = len p + t /\
    ct ++ take (Z.to_nat t) tag = take (Z.to_nat (len p + t)) c.
Proof.
  intros Hnew Hnew_t HEfn Hn Hnb Hp Had.
  apply constructor_valid in Hnew as (Hvalid & HE & Hb & Hts).
  pose proof Hvalid as (Hbs & _ & Hmax & Hr).
  apply constructor_valid in Hnew_t
    as ((_ & Hts_t & Hmax_t & Hr_t) & HE_t & Hb_t & Htt).
  simpl in Hts, Htt.
  assert (Hrr : r this_t = r this) by (by rewrite Hr, Hr_t, Hb, Hb_t).
  assert (Hv' : validateSizes this_t p ad = validateSizes this p ad).
  { unfold validateSizes. by rewrite Hmax, Hmax_t, Hb, Hb_t. }
  destruct (validateSizes this p ad) as [[]|e] eqn:Hv.
  2:{ unfold seal, seal_of, slice, mbind, M_bind, lift. by rewrite Hv. }
  rewrite (seal_eval _ _ _ _ _ nb Hn Hv), (seal_eval _ _ _ _ _ nb Hn Hv').
  cbv zeta.
  assert (Hcb : crypt_body this_t (clear_msb nb) p
                = crypt_body this (clear_msb nb) p).
  { unfold crypt_body. rewrite (crypt_loop_ext this this_t) by congruence.
    by rewrite HE_t, <- HE. }
  rewrite Hcb.
  destruct (crypt_body this (clear_msb nb) p) as [ct|] eqn:Hc; [|done].
  destruct (auth_body_truncates this (set_msb (clear_msb nb)) ct ad)
    as [full Hfull].
  pose proof (Hfull this eq_refl eq_refl eq_refl) as Ha.
  rewrite Ha, (Hfull this_t) by congruence.
  destruct full as [tg|]; [|done]. cbn [mbind result_bind] in *.
  intros [= <- <-].
  rewrite <- Hb in Hnb, HEfn. rewrite <- HE in HEfn.
  pose proof (clear_msb_wf _ _ Hnb) as Hcwf.
  pose proof (set_msb_wf _ _ Hcwf) as Hswf.
  destruct (crypt_body_roundtrip this Hbs HEfn _ _ _ Hcwf Hc) as [Hlen _].
  pose proof (crypt_body_ok this Hbs HEfn _ _ _ Hcwf Hp Hc) as Hct.
  destruct (auth_body_inv this Hvalid HEfn _ _ _ _ Hswf Hct Had Ha)
    as (Htag & _).
  rewrite Hts in Htag |- *. rewrite Htt in Hts_t |- *. rewrite Hb_t in Hts_t.
  assert (Hbs' : bs = 8 \/ bs = 16) by (by rewrite <- Hb).
  assert (Hcut : take (Z.to_nat t) (subarray tg 0 bs) = subarray tg 0 t).
  { rewrite !subarray_take by (block_cases Hbs'; lia).
    rewrite take_take. f_equal. lia. }
  exists ct, (subarray tg 0 bs).
  split; [done|]. split; [unfold len; by rewrite Hlen|]. split; [done|].
  rewrite Hcut. split; [done|].
  assert (Hlt : len (subarray tg 0 t) = t).
  { rewrite <- Hcut. unfold len in *. rewrite length_take. lia. }
  split; [rewrite len_app, Hlt; unfold len; by rewrite Hlen|].
  rewrite <- Hcut.
  replace (Z.to_nat (len p + t)) with (length ct + Z.to_nat t)%nat
    by (unfold len; lia).
  by rewrite take_app_add.
Qed.

Lemma seal_tag_truncation_witness :
  let this_t :=
    {| tag_size := 4; encrypter := fun b => b; blockSize := 8;
       max_size := 2 ^ 32 - 1; r := 0x1B |} in
  let nb := [1; 2; 3; 4; 5; 6; 7; 8] in
  let h : heap := {[ 5%nat := nb ]} in
  let c := [0; 0; 0; 25; 66; 151; 58; 174; 44; 170; 237] in
  exists ct tag,
    c = ct ++ tag /\ len ct = len [1; 2; 3] /\ len tag = 8 /\
    seal this_t 5%nat [1; 2; 3] [9] h
    = (<[6%nat := set_msb nb]> h, Ok (ct ++ take (Z.to_nat 4) tag)) /\
    len (ct ++ take (Z.to_nat 4) tag) = len [1; 2; 3] + 4 /\
    ct ++ take (Z.to_nat 4) tag = take (Z.to_nat (len [1; 2; 3] + 4)) c.
Proof.
  intros this_t nb h c.
  apply (seal_tag_truncation (fun b => b) 8 4 (identity_mgm 8) this_t 5%nat h
           (<[6%nat := set_msb nb]> h) nb [1; 2; 3] [9]).
  - reflexivity.
  - reflexivity.
  - apply identity_block_fn.
  - reflexivity.
  - split; [repeat constructor; done | reflexivity].
  - repeat constructor; done.
  - repeat constructor; done.
  - vm_compute. reflexivity.
Defined.

(** ** The counters of MGM as numbers *)

Lemma incr_l_spec (data : bytes) (bs : Z) :
  bs = 8 \/ bs = 16 -> bytes_ok data -> len data = bs ->
  be_value (take (Z.to_nat (bs / 2)) data) + 1 < 2 ^ (4 * bs) ->
  incr_l data bs =
    Ok (be_bytes (Z.to_nat (bs / 2))
          (be_value (take (Z.to_nat (bs / 2)) data) + 1)
        ++ drop (Z.to_nat (bs / 2)) data).
Proof.
  intros Hbs Hok Hlen Hv. unfold incr_l. rewrite half_block by done.
  assert (Hh : 0 <= bs / 2 <= len data)
    by (rewrite Hlen; destruct Hbs as [-> | ->]; done).
  rewrite subarray_from_suffix, subarray_prefix by done.
  rewrite _incr_spec; try done.
  - apply Z.ltb_lt in Hv. rewrite Hv. simpl. by rewrite app_nil_r.
  - by apply Forall_take.
  - unfold len in *. rewrite length_take. block_cases Hbs; lia.
Qed.

(** X24.  The two counters of MGM, read as big-endian numbers.  On a block
    whose right half is not all ones, [incr_r] returns the block whose value
    is one more; on a block whose left half is not all ones, [incr_l]
    returns the block whose value is [2^(4 * blockSize)] more, that is, one
    more in the left half. *)
Theorem incr_adds (data : bytes) (bs : Z) :
  bs = 8 \/ bs = 16 -> wf_block bs data ->
  (be_value (drop (Z.to_nat (bs / 2)) data) + 1 < 2 ^ (4 * bs) ->
   exists r, incr_r data bs = Ok r /\ wf_block bs r /\
             be_value r = be_value data + 1) /\
  (be_value (take (Z.to_nat (bs / 2)) data) + 1 < 2 ^ (4 * bs) ->
   exists r, incr_l data bs = Ok r /\ wf_block bs r /\
             be_value r = be_value data + 2 ^ (4 * bs)).
Proof.
  intros Hbs [Hok Hlen].
  set (h := Z.to_nat (bs / 2)).
  assert (Hh8 : 8 * Z.of_nat h = 4 * bs) by (unfold h; block_cases Hbs; lia).
  assert (Hld : len (drop h data) = Z.of_nat h)
    by (unfold len in *; rewrite length_drop; unfold h; block_cases Hbs; lia).
  assert (Hval : be_value data
    = be_value (take h data) * 2 ^ (4 * bs) + be_value (drop h data)).
  { rewrite <- (take_drop h data) at 1. rewrite be_value_app, Hld.
    by rewrite Hh8. }
  pose proof (be_value_bound (take h data) ltac:(by apply Forall_take))
    as Hbt.
  pose proof (be_value_bound (drop h data) ltac:(by apply Forall_drop))
    as Hbd.
  split; intros Hv.
  - pose proof (incr_r_spec data bs Hbs Hok Hlen Hv) as Hr. fold h in Hr.
    eexists. split; [exact Hr|].
    split; [by apply (incr_r_wf data _ bs Hbs) in Hr|].
    rewrite be_value_app. unfold len at 1. rewrite length_be_bytes, Hh8.
    rewrite be_value_be_bytes by (rewrite Hh8; lia). lia.
  - pose proof (incr_l_spec data bs Hbs Hok Hlen Hv) as Hl. fold h in Hl.
    eexists. split; [exact Hl|].
    split; [by apply (incr_l_wf data _ bs Hbs) in Hl|].
    rewrite be_value_app, Hld, Hh8.
    rewrite be_value_be_bytes by (rewrite Hh8; lia). lia.
Qed.

Lemma incr_adds_witness :
  (exists r, incr_r [0; 0; 0; 1; 0; 0; 1; 0xFF] 8 = Ok r /\ wf_block 8 r /\
             be_value r = be_value [0; 0; 0; 1; 0; 0; 1; 0xFF] + 1) /\
  (exists r, incr_l [0; 0; 0; 1; 0; 0; 1; 0xFF] 8 = Ok r /\ wf_block 8 r /\
             be_value r = be_value [0; 0; 0; 1; 0; 0; 1; 0xFF] + 2 ^ (4 * 8)).
Proof.
  assert (Hwf : wf_block 8 [0; 0; 0; 1; 0; 0; 1; 0xFF])
    by (split; [repeat constructor; done | reflexivity]).
  split.
  - apply (proj1 (incr_adds [0; 0; 0; 1; 0; 0; 1; 0xFF] 8
                    ltac:(by left) Hwf)).
    reflexivity.
  - apply (proj2 (incr_adds [0; 0; 0; 1; 0; 0; 1; 0xFF] 8
                    ltac:(by left) Hwf)).
    reflexivity.
Defined.

(** ** The multiplier of MGM is linear *)

Ltac xor_bits :=
  apply Z.bits_inj'; intros;
  rewrite ?Z.lxor_spec, ?Z.bits_0;
  repeat match goal with
         | |- context [Z.testbit ?a ?i] => destruct (Z.testbit a i)
         end; reflexivity.

Lemma land_bit (x k : Z) :
  0 <= k -> Z.land x (2 ^ k) = if Z.testbit x k then 2 ^ k else 0.
Proof.
  intros Hk. apply Z.bits_inj'. intros i Hi. rewrite Z.land_spec.
  destruct (Z.eq_dec i k) as [->|Hne].
  - rewrite Z.pow2_bits_true by done.
    destruct (Z.testbit x k); [by rewrite Z.pow2_bits_true|by rewrite Z.bits_0].
  - rewrite Z.pow2_bits_false by lia. rewrite andb_false_r.
    destruct (Z.testbit x k); [by rewrite Z.pow2_bits_false by lia|].
    by rewrite Z.bits_0.
Qed.

(** The doubling step of [mul] is linear over [xor]. *)
Lemma mul_step_linear (r k x x' : Z) :
  0 <= k ->
  (if Z.land (Z.lxor x x') (2 ^ k) >? 0
   then Z.lxor (Z.shiftl (Z.lxor (Z.lxor x x') (2 ^ k)) 1) r
   else Z.shiftl (Z.lxor x x') 1)
  = Z.lxor
      (if Z.land x (2 ^ k) >? 0
       then Z.lxor (Z.shiftl (Z.lxor x (2 ^ k)) 1) r
       else Z.shiftl x 1)
      (if Z.land x' (2 ^ k) >? 0
       then Z.lxor (Z.shiftl (Z.lxor x' (2 ^ k)) 1) r
       else Z.shiftl x' 1).
Proof.
  intros Hk. rewrite !land_bit by done. rewrite Z.lxor_spec.
  assert (Hp : 0 < 2 ^ k) by (apply Z.pow_pos_nonneg; lia).
  assert (Ht : (2 ^ k >? 0) = true) by (rewrite Z.gtb_ltb; apply Z.ltb_lt; lia).
  rewrite !Z.shiftl_lxor.
  destruct (Z.testbit x k), (Z.testbit x' k); cbn [xorb];
    rewrite ?Ht; change (0 >? 0) with false; cbv iota; xor_bits.
Qed.

Lemma mul_loop_linear (r k : Z) (y : positive) (x x' z z' : Z) :
  0 <= k ->
  mul_loop r (2 ^ k) y (Z.lxor x x') (Z.lxor z z')
  = Z.lxor (mul_loop r (2 ^ k) y x z) (mul_loop r (2 ^ k) y x' z').
Proof.
  intros Hk. revert x x' z z'.
  induction y as [y IH|y IH|]; intros x x' z z'; cbn [mul_loop].
  - rewrite mul_step_linear by done.
    replace (Z.lxor (Z.lxor z z') (Z.lxor x x'))
      with (Z.lxor (Z.lxor z x) (Z.lxor z' x')) by xor_bits.
    apply IH.
  - rewrite mul_step_linear by done. apply IH.
  - xor_bits.
Qed.

Lemma be_bytes_lxor (k : nat) (z z' : Z) :
  be_bytes k (Z.lxor z z') = xor (be_bytes k z) (be_bytes k z').
Proof.
  revert z z'. induction k as [|k IH]; intros z z'; [done|].
  cbn [be_bytes].
  assert (Hx : forall a a' b b' : bytes, length a = length a' ->
            xor (a ++ b) (a' ++ b') = xor a a' ++ xor b b').
  { intros a. induction a as [|u a IHa]; intros [|u' a'] b b' Hl;
      simpl in *; try done. by rewrite IHa by lia. }
  rewrite Hx by (by rewrite !length_be_bytes).
  change 256 with (2 ^ 8).
  rewrite <- !Z.shiftr_div_pow2, <- !Z.land_ones by lia.
  rewrite Z.shiftr_lxor, IH. f_equal. simpl. f_equal.
  apply Z.bits_inj'. intros i Hi.
  rewrite Z.lxor_spec, !Z.land_spec, Z.lxor_spec.
  by destruct (Z.testbit z i), (Z.testbit z' i), (Z.testbit (Z.ones 8) i).
Qed.

Lemma be_value_xor (a a' : bytes) :
  bytes_ok a -> bytes_ok a' -> length a = length a' ->
  be_value (xor a a') = Z.lxor (be_value a) (be_value a').
Proof.
  intros Ha Ha' Hl.
  rewrite <- (be_bytes_be_value a Ha) at 1.
  rewrite <- (be_bytes_be_value a' Ha') at 1.
  rewrite <- Hl, <- be_bytes_lxor.
  pose proof (be_value_bound a Ha). pose proof (be_value_bound a' Ha').
  apply be_value_be_bytes. apply lxor_upper_bound; [lia|done|].
  unfold len in *. by rewrite Hl.
Qed.

(** X25.  The multiplier of [auth] is linear in its first argument: for
    blocks [a] and [a'] and any octet sequence [b], the product of
    [xor a a'] with [b] is the [xor] of the two products, so a tag is a sum
    of products in the field with reduction constant [r]. *)
Theorem mul_linear (this : MGM) (a a' b : bytes) :
  valid_instance this ->
  wf_block (blockSize this) a -> wf_block (blockSize this) a' ->
  bytes_ok b ->
  exists m m', mul this a b = Ok m /\ mul this a' b = Ok m' /\
               mul this (xor a a') b = Ok (xor m m').
Proof.
  intros Hvalid [Ha Hla] [Ha' Hla'] Hb. unfold mul.
  assert (Hlen : length a = length a') by (unfold len in *; lia).
  rewrite !bytesToNumberBE_ok by (done || by apply xor_ok).
  cbn [mbind result_bind]. rewrite be_value_xor by done.
  pose proof Hvalid as (Hbs & _ & _ & Hr).
  set (n := blockSize this * 8).
  assert (Hn : 0 < n) by (unfold n; block_cases Hbs; lia).
  assert (Hrb : 0 <= r this < 2 ^ n).
  { assert (2 ^ 8 <= 2 ^ n)
      by (apply Z.pow_le_mono_r; unfold n; block_cases Hbs; lia).
    rewrite Hr. change (2 ^ 8) with 256 in *. destruct (_ =? 8); lia. }
  assert (Hx : forall c, bytes_ok c -> len c = blockSize this ->
                         0 <= be_value c < 2 ^ n).
  { intros c Hc Hlc. pose proof (be_value_bound c Hc) as Hv.
    rewrite Hlc in Hv.
    by replace (8 * blockSize this) with n in Hv by (unfold n; lia). }
  rewrite Z.shiftl_1_l. fold n.
  set (z := fun x => match be_value b with
                     | Z.pos p => mul_loop (r this) (2 ^ (n - 1)) p x 0
                     | _ => 0
                     end).
  assert (Hz : forall x, 0 <= x < 2 ^ n -> 0 <= z x < 2 ^ n).
  { intros x Hxb. unfold z. destruct (be_value b); [lia | | lia].
    apply mul_loop_bound; try done. lia. }
  assert (Hlin : forall x x', z (Z.lxor x x') = Z.lxor (z x) (z x')).
  { intros x x'. unfold z. destruct (be_value b); [done| |done].
    rewrite <- mul_loop_linear by lia. done. }
  change (match be_value b with
          | Z.pos p => mul_loop (r this) (2 ^ (n - 1)) p (be_value a) 0
          | _ => 0
          end) with (z (be_value a)).
  change (match be_value b with
          | Z.pos p => mul_loop (r this) (2 ^ (n - 1)) p (be_value a') 0
          | _ => 0
          end) with (z (be_value a')).
  change (match be_value b with
          | Z.pos p => mul_loop (r this) (2 ^ (n - 1)) p
                         (Z.lxor (be_value a) (be_value a')) 0
          | _ => 0
          end) with (z (Z.lxor (be_value a) (be_value a'))).
  assert (Hfit : forall v, 0 <= v < 2 ^ n ->
            numberToBytesBE v (blockSize this)
            = Ok (be_bytes (Z.to_nat (blockSize this)) v)).
  { intros v Hv. apply numberToBytesBE_fits; [block_cases Hbs; lia|].
    by replace (8 * blockSize this) with n by (unfold n; lia). }
  rewrite Hlin.
  rewrite !Hfit; try (apply Hz; by apply Hx).
  - eexists _, _. split; [done|]. split; [done|]. by rewrite be_bytes_lxor.
  - apply lxor_upper_bound; [lia|apply Hz; by apply Hx..].
Qed.

Lemma mul_linear_witness :
  exists m m',
    mul (identity_mgm 8) [1; 2; 3; 4; 5; 6; 7; 8] [0x80; 0; 0; 0; 0; 0; 0; 3]
    = Ok m /\
    mul (identity_mgm 8) [0xFF; 0; 0; 0; 0; 0; 0; 1]
      [0x80; 0; 0; 0; 0; 0; 0; 3] = Ok m' /\
    mul (identity_mgm 8)
      (xor [1; 2; 3; 4; 5; 6; 7; 8] [0xFF; 0; 0; 0; 0; 0; 0; 1])
      [0x80; 0; 0; 0; 0; 0; 0; 3] = Ok (xor m m').
Proof.
  apply (mul_linear (identity_mgm 8) [1; 2; 3; 4; 5; 6; 7; 8]
           [0xFF; 0; 0; 0; 0; 0; 0; 1] [0x80; 0; 0; 0; 0; 0; 0; 3]).
  - apply identity_mgm_valid.
  - split; [repeat constructor; done | reflexivity].
  - split; [repeat constructor; done | reflexivity].
  - repeat constructor; done.
Defined.

(** ** Messages shorter than a tag *)

Lemma subarray_ok (a : bytes) (b e : Z) :
  bytes_ok a -> bytes_ok (subarray a b e).
Proof. intros Ha. unfold subarray. by apply Forall_take, Forall_drop. Qed.

Lemma length_subarray_le (a : bytes) (b e : Z) :
  (length (subarray a b e) <= length a)%nat.
Proof. unfold subarray. rewrite length_take, length_drop. lia. Qed.

(** X26.  [open] never returns on a message shorter than the tag: for a
    valid instance over a block function that maps blocks to blocks and a
    block-sized nonce, a message of fewer than [tag_size] octets makes
    [open] throw, whatever the associated data. *)
Theorem open_rejects_short (this : MGM) (nonce : loc) (h : heap)
    (nb c ad : bytes) :
  valid_instance this ->
  block_fn (encrypter this) (blockSize this) ->
  h !! nonce = Some nb -> wf_block (blockSize this) nb ->
  bytes_ok c -> bytes_ok ad ->
  len c < tag_size this ->
  exists e, (open this nonce c ad h).2 = Err e.
Proof.
  intros Hvalid HE Hn Hnb Hc Had Hshort.
  destruct (validateSizes this c ad) as [[]|e] eqn:Hv.
  2:{ exists e. unfold open, open_of, slice, mbind at 1, M_bind, lift.
      by rewrite Hv. }
  rewrite (open_eval _ _ _ _ _ nb Hn Hv). cbv zeta.
  pose proof (set_msb_wf _ _ Hnb) as Hswf.
  destruct (auth_body this (set_msb nb) _ ad) as [tag|e] eqn:Ha;
    [|by exists e].
  destruct (auth_body_inv this Hvalid HE _ _ _ _ Hswf
              (subarray_ok c 0 (len c - tag_size this) Hc) Had Ha)
    as (Htag & _).
  exists InvalidAuthTag. unfold buffer_equals.
  case_bool_decide as Heq; [|done]. exfalso.
  pose proof (length_subarray_le c (len c - tag_size this) (len c)) as Hle.
  unfold subarray_from in Heq. rewrite Heq in Hle. unfold len in *. lia.
Qed.

Lemma open_rejects_short_witness :
  let h : heap := {[ 5%nat := [1; 2; 3; 4; 5; 6; 7; 8] ]} in
  exists e, (open (identity_mgm 8) 5%nat [1; 2; 3] [9] h).2 = Err e.
Proof.
  intros h.
  apply (open_rejects_short (identity_mgm 8) 5%nat h [1; 2; 3; 4; 5; 6; 7; 8]
           [1; 2; 3] [9]).
  - apply identity_mgm_valid.
  - apply identity_block_fn.
  - reflexivity.
  - split; [repeat constructor; done | reflexivity].
  - repeat constructor; done.
  - repeat constructor; done.
  - reflexivity.
Defined.
